(** * pwdsphinx oracle: a shallow embedding of [pwdsphinx/oracle.py]

    The server side of the SPHINX password store: the per-connection worker
    ([ratelimit] and everything it calls), its record store on disk, the
    proof-of-work rate limiter and the shadow-copy commit/undo rotation.

    Modelling conventions.
    - A [bytes] object is a [list byte]; slices are [take]/[drop].
    - The data directory is a finite map from (directory, file name) to file
      contents together with the set of existing directories.  A directory is
      [None] for the data directory itself (the path [''] of the source) and
      [Some id] for [os.path.join(datadir, hexlify(id))]; [hexlify] is
      injective, so the raw id stands for its hexadecimal name.
    - Stateful code is written in a state-and-outcome monad over a [world]:
      the record store, the bytes still to arrive on the connection (as the
      chunks successive [recv] calls see), what has been sent, whether the
      socket is open, the position in the entropy source and the wall clock.
    - A computation ends by returning, by leaving the process through
      [os._exit] ([Exit]), with an uncaught Python exception ([Raise]), or not
      at all ([Hang]: [read_pkt] spinning at end of stream).
    - The cryptographic libraries (pysodium, pyoprf, equihash, noisexk), the
      constants of [pwdsphinx.consts] and the configuration are parameters.
    - [datetime.now().timestamp()] is a float; every float is a rational and
      the comparisons and floor divisions made on it are exact at the
      magnitudes of a POSIX time stamp, so the clock is a [Q].
    - Diagnostic output ([print], [traceback]) is not part of the model. *)

From Stdlib Require Import ZArith QArith Qround Lia Lqa.
From Stdlib.Strings Require Import Byte Ascii.
From stdpp Require Import gmap strings list fin_maps.

Local Open Scope string_scope.
Local Open Scope list_scope.
Local Open Scope stdpp_scope.
Local Open Scope Z_scope.

(** ** Bytes *)

Abbreviation bytes := (list byte).

#[global] Instance byte_eq_dec : EqDecision byte := Byte.byte_eq_dec.

#[global] Program Instance byte_countable : Countable byte :=
  inj_countable Byte.to_N Byte.of_N _.
Next Obligation. intros b. apply Byte.of_to_N. Qed.

Definition byte_to_Z (b : byte) : Z := Z.of_N (Byte.to_N b).

Definition Z_to_byte (z : Z) : byte :=
  match Byte.of_N (Z.to_N (z `mod` 256)) with
  | Some b => b
  | None => "000"%byte
  end.

(** [bytes([v1, v2, ...])]: a [ValueError] unless every value is in
    [range(256)]. *)
Definition bytes_of_ints (l : list Z) : option bytes :=
  if forallb (λ v, (0 <=? v) && (v <? 256)) l then Some (Z_to_byte <$> l) else None.

(** [sum(b)] for a bytes object. *)
Definition sum_bytes (b : bytes) : Z := foldr (λ x acc, byte_to_Z x + acc) 0 b.

(** [obj[-n:]] and [obj[:-n]] for [n > 0]. *)
Definition last_n (n : nat) (b : bytes) : bytes := drop (length b - n)%nat b.
Definition but_last_n (n : nat) (b : bytes) : bytes := take (length b - n)%nat b.

(** [pop(obj, cnt)] *)
Definition pop (obj : bytes) (cnt : nat) : bytes * bytes := (take cnt obj, drop cnt obj).

(** *** [struct] *)

(** Little-endian layout of [v] on [n] bytes (the native layout of the
    formats ["B"], ["I"], ["Q"] on the platforms the server runs on). *)
Fixpoint le_bytes (n : nat) (v : Z) : bytes :=
  match n with
  | O => []
  | S n' => Z_to_byte v :: le_bytes n' (v / 256)
  end.

Fixpoint le_value (b : bytes) : Z :=
  match b with
  | [] => 0
  | x :: b' => byte_to_Z x + 256 * le_value b'
  end.

(** [struct.pack(fmt, v)] for an unsigned format of [n] bytes:
    [struct.error] when [v] is out of range. *)
Definition struct_pack (n : nat) (v : Z) : option bytes :=
  if (0 <=? v) && (v <? 256 ^ Z.of_nat n) then Some (le_bytes n v) else None.

(** [struct.unpack(fmt, b)[0]]: [struct.error] unless [b] has [n] bytes. *)
Definition struct_unpack (n : nat) (b : bytes) : option Z :=
  if decide (length b = n) then Some (le_value b) else None.

(** [struct.unpack('!H', b)[0]]: network byte order. *)
Definition struct_unpack_be (n : nat) (b : bytes) : option Z :=
  if decide (length b = n) then Some (le_value (reverse b)) else None.

(** [int(x)] for a float [x]: truncation towards zero. *)
Definition int_of_Q (q : Q) : Z := Z.quot (Qnum q) (Zpos (Qden q)).

(** ** The record store *)

Abbreviation path := (option (list byte)).

Record fsys := Fsys {
  dirs : gset path;
  files : gmap (path * string) bytes
}.

Definition fs_empty : fsys := Fsys ∅ ∅.

Definition dir_exists (fs : fsys) (p : path) : bool := bool_decide (p ∈ dirs fs).

Definition fs_read (fs : fsys) (p : path) (fname : string) : option bytes :=
  files fs !! (p, fname).

Definition fs_write (fs : fsys) (p : path) (fname : string) (blob : bytes) : fsys :=
  Fsys (dirs fs) (<[(p, fname) := blob]> (files fs)).

Definition fs_unlink (fs : fsys) (p : path) (fname : string) : fsys :=
  Fsys (dirs fs) (delete (p, fname) (files fs)).

Definition fs_mkdir (fs : fsys) (p : path) : fsys :=
  Fsys ({[p]} ∪ dirs fs) (files fs).

(** [shutil.rmtree]: the directory and every file in it. *)
Definition fs_rmtree (fs : fsys) (p : path) : fsys :=
  Fsys (dirs fs ∖ {[p]}) (filter (λ kv, kv.1.1 ≠ p) (files fs)).

(** ** Worlds, outcomes and the monad *)

Inductive exn :=
| ValueError | FileNotFoundError | FileExistsError | StructError
| KeyError | IndexError | ZeroDivisionError | LibraryError.

#[global] Instance exn_eq_dec : EqDecision exn.
Proof. solve_decision. Defined.

Inductive outcome (A : Type) :=
| Ret (a : A)
| Exit
| Raise (e : exn)
| Hang.
Arguments Ret {A} a.
Arguments Exit {A}.
Arguments Raise {A} e.
Arguments Hang {A}.

Record world := World {
  w_fs : fsys;
  w_in : list bytes;
  w_out : list bytes;
  w_open : bool;
  w_entropy : nat → byte;
  w_rpos : nat;
  w_now : Q
}.

Definition M (A : Type) : Type := world → outcome A * world.

#[global] Instance M_ret : MRet M := λ A a w, (Ret a, w).

#[global] Instance M_bind : MBind M := λ A B f m w,
  match m w with
  | (Ret a, w') => f a w'
  | (Exit, w') => (Exit, w')
  | (Raise e, w') => (Raise e, w')
  | (Hang, w') => (Hang, w')
  end.

Definition raise {A} (e : exn) : M A := λ w, (Raise e, w).

(** [try: m except <catches>: h] *)
Definition try_except {A} (m : M A) (catches : exn → bool) (h : M A) : M A := λ w,
  match m w with
  | (Raise e, w') => if catches e then h w' else (Raise e, w')
  | r => r
  end.

Definition any_exn (e : exn) : bool := true.
Definition is_exn (e0 e : exn) : bool := bool_decide (e = e0).

(** A library call that raises when it has no result. *)
Definition lib {A} (e : exn) (r : option A) : M A :=
  match r with Some a => mret a | None => raise e end.

Definition set_fs (fs : fsys) (w : world) : world :=
  World fs (w_in w) (w_out w) (w_open w) (w_entropy w) (w_rpos w) (w_now w).
Definition set_in (i : list bytes) (w : world) : world :=
  World (w_fs w) i (w_out w) (w_open w) (w_entropy w) (w_rpos w) (w_now w).
Definition set_out (o : list bytes) (w : world) : world :=
  World (w_fs w) (w_in w) o (w_open w) (w_entropy w) (w_rpos w) (w_now w).
Definition set_open (b : bool) (w : world) : world :=
  World (w_fs w) (w_in w) (w_out w) b (w_entropy w) (w_rpos w) (w_now w).
Definition set_rpos (n : nat) (w : world) : world :=
  World (w_fs w) (w_in w) (w_out w) (w_open w) (w_entropy w) n (w_now w).

(** *** The connection *)

(** [s.recv(n)] / [conn.read(n)]: at most [n] bytes of what arrives next;
    the empty string at end of stream. *)
Definition recv (n : nat) : M bytes := λ w,
  match w_in w with
  | [] => (Ret [], w)
  | c :: rest =>
      (Ret (take n c),
       set_in (match drop n c with [] => rest | r => r :: rest end) w)
  end.

(** [s.send(b)] / [s.sendall(b)] *)
Definition send (b : bytes) : M unit := λ w, (Ret tt, set_out (w_out w ++ [b]) w).

(** [s.close()] *)
Definition close : M unit := λ w, (Ret tt, set_open false w).

(** [os._exit(0)] *)
Definition os_exit {A} : M A := λ w, (Exit, w).

Definition fail_marker : bytes := ["000"; "004"; "f"; "a"; "i"; "l"]%byte.
Definition auth_marker : bytes := ["000"; "004"; "a"; "u"; "t"; "h"]%byte.
Definition ok_marker : bytes := ["o"; "k"]%byte.

(** [fail(s)] *)
Definition fail {A} : M A :=
  send fail_marker ;; close ;; os_exit.

(** [read_pkt(s, size)]: loops until [size] bytes have arrived.  Every
    [recv] on a non-empty stream consumes a byte or a chunk, so the fuel
    below is never the reason to stop; at end of stream [recv] returns the
    empty string for ever and the loop does not end. *)
Fixpoint read_pkt_loop (fuel : nat) (size : nat) (res : bytes) : M bytes :=
  if decide (length res < size)%nat then
    match fuel with
    | O => λ w, (Hang, w)
    | S fuel' =>
        λ w, match w_in w with
             | [] => (Hang, w)
             | _ => (c ← recv (size - length res); read_pkt_loop fuel' size (res ++ c)) w
             end
    end
  else mret res.

Definition read_pkt (size : nat) : M bytes := λ w,
  read_pkt_loop (length (w_in w) + length (concat (w_in w))) size [] w.

(** *** Entropy and clock *)

(** [pysodium.randombytes(n)] *)
Definition randombytes (n : nat) : M bytes := λ w,
  (Ret ((λ i, w_entropy w (w_rpos w + i)%nat) <$> seq 0 n), set_rpos (w_rpos w + n) w).

(** [datetime.datetime.now().timestamp()] *)
Definition timestamp : M Q := λ w, (Ret (w_now w), w).

(** *** Files *)

(** [os.path.exists(os.path.join(datadir, path))] *)
Definition path_exists (p : path) : M bool := λ w, (Ret (dir_exists (w_fs w) p), w).

(** [os.mkdir(p, 0o700)] *)
Definition os_mkdir (p : path) : M unit := λ w,
  if dir_exists (w_fs w) p then (Raise FileExistsError, w)
  else match p with
       | Some _ =>
           if dir_exists (w_fs w) None then (Ret tt, set_fs (fs_mkdir (w_fs w) p) w)
           else (Raise FileNotFoundError, w)
       | None => (Ret tt, set_fs (fs_mkdir (w_fs w) p) w)
       end.

(** [os.unlink(os.path.join(tdir, fname))] *)
Definition os_unlink (p : path) (fname : string) : M unit := λ w,
  match fs_read (w_fs w) p fname with
  | Some _ => (Ret tt, set_fs (fs_unlink (w_fs w) p fname) w)
  | None => (Raise FileNotFoundError, w)
  end.

(** [shutil.rmtree(tdir)] *)
Definition rmtree (p : path) : M unit := λ w,
  if dir_exists (w_fs w) p then (Ret tt, set_fs (fs_rmtree (w_fs w) p) w)
  else (Raise FileNotFoundError, w).

(** [save_blob(path, fname, blob)] *)
Definition save_blob (p : path) (fname : string) (blob : bytes) : M unit := λ w,
  if dir_exists (w_fs w) p then (Ret tt, set_fs (fs_write (w_fs w) p fname blob) w)
  else (Raise FileNotFoundError, w).

(** [load_blob(path, fname, size=None)] *)
Definition load_blob (p : path) (fname : string) (size : option nat) : M (option bytes) := λ w,
  match fs_read (w_fs w) p fname with
  | None => (Ret None, w)
  | Some v =>
      match size with
      | Some (S n) =>
          if decide (length v ≠ S n) then (Raise ValueError, w) else (Ret (Some v), w)
      | _ => (Ret (Some v), w)
      end
  end.

Definition when (b : bool) (m : M unit) : M unit := if b then m else mret tt.

(** ** What the server takes from outside *)

(** [pwdsphinx.consts]: the size of a rules blob and the opcodes, each a
    [bytes] object compared with a one-byte slice of the request. *)
Class Consts := {
  RULE_SIZE : nat;
  CREATE : bytes;
  READ : bytes;
  UNDO : bytes;
  GET : bytes;
  COMMIT : bytes;
  CHANGE : bytes;
  DELETE : bytes;
  CHALLENGE_CREATE : bytes;
  CHALLENGE_VERIFY : bytes;
  CREATE_DKG : bytes;
  CHANGE_DKG : bytes
}.

(** The [server] section of the configuration, and the two files outside
    the data directory that [dkg] reads. *)
Class Config := {
  rl_decay : Z;
  rl_threshold : Z;
  rl_gracetime : Z;
  noisekey_file : option bytes;
  authorized_keys_file : option (list string)
}.

(** pysodium, pyoprf, equihash, noisexk, [binascii.a2b_base64] and
    [pwdsphinx.utils.split_by_n].  A result of [None] (or [false] for the
    signature check) is the library raising. *)
Class Primitives := {
  crypto_sign_verify_detached : bytes → bytes → bytes → bool;
  crypto_sign_keypair : bytes → bytes * bytes;
  crypto_generichash : bytes → bytes → bytes;
  oprf_evaluate : bytes → bytes → option bytes;
  equihash_solsize : Z → Z → nat;
  equihash_verify : Z → Z → bytes → bytes → bool;
  a2b_base64 : string → option bytes;
  split_by_n : bytes → nat → list bytes;
  session : Type;
  transcript : Type;
  noise_pubkey : bytes → bytes;
  noise_initiator_session : bytes → bytes → option (session * bytes);
  noise_responder_session : bytes → list (bytes * string) → bytes → option (session * bytes);
  noise_initiator_session_complete : session → bytes → option unit;
  noise_send_msg : session → bytes → option bytes;
  noise_read_msg : session → bytes → option bytes;
  dkg_start : Z → Z → bytes → bytes → option (bytes * bytes * list bytes * transcript);
  transcript_update : transcript → bytes → transcript;
  dkg_verify_commitments :
    Z → Z → Z → bytes → bytes → bytes → list bytes → transcript → option (bytes * transcript);
  dkg_finish : Z → list bytes → Z → bytes → transcript → option (bytes * bytes)
}.

(** ** The difficulty ladder *)

Record difficulty := Difficulty { d_n : Z; d_k : Z; d_timeout : Z }.

Definition Difficulties : list difficulty := [
  Difficulty 60 4 1;
  Difficulty 65 4 2;
  Difficulty 70 4 4;
  Difficulty 75 4 9;
  Difficulty 80 4 16;
  Difficulty 85 4 32;
  Difficulty 90 4 80;
  Difficulty 95 4 160;
  Difficulty 100 4 320;
  Difficulty 105 4 640;
  Difficulty 110 4 1280;
  Difficulty 115 4 2560;
  Difficulty 120 4 5120
].

(** [{(e['n'],e['k']): e['timeout'] for e in Difficulties}] *)
Definition RL_Timeouts : gmap (Z * Z) Z :=
  foldl (λ m e, <[(d_n e, d_k e) := d_timeout e]> m) ∅ Difficulties.

(** [Difficulties[level]] for a level that is never negative. *)
Definition difficulty_at (level : Z) : option difficulty :=
  Difficulties !! Z.to_nat level.

(** ** Text helpers of [load_authkeys] *)

Definition is_space (c : Ascii.ascii) : bool :=
  let n := Ascii.nat_of_ascii c in
  bool_decide (n = 32 ∨ 9 ≤ n ≤ 13)%nat.

(** [line.split(' ', 1)]: [None] when the line has no space, where the
    unpacking of the source raises [ValueError]. *)
Fixpoint split_space (s : string) : option (string * string) :=
  match s with
  | EmptyString => None
  | String c s' =>
      if bool_decide (c = " "%char) then Some (EmptyString, s')
      else match split_space s' with
           | Some (a, b) => Some (String c a, b)
           | None => None
           end
  end.

Fixpoint lstrip (s : string) : string :=
  match s with
  | String c s' => if is_space c then lstrip s' else s
  | EmptyString => EmptyString
  end.

Fixpoint rstrip (s : string) : string :=
  match s with
  | String c s' =>
      match rstrip s' with
      | EmptyString => if is_space c then EmptyString else String c EmptyString
      | r => String c r
      end
  | EmptyString => EmptyString
  end.

(** [name.strip()] *)
Definition strip (s : string) : string := rstrip (lstrip s).

(** [a > b] on floats *)
Definition Qgtb (a b : Q) : bool := negb (Qle_bool a b).

(** [sum(m^i for (m, i) in zip(mac, sig))] *)
Definition xor_sum (mac sig : bytes) : Z :=
  foldr (λ mi acc, Z.lxor (byte_to_Z mi.1) (byte_to_Z mi.2) + acc) 0 (zip mac sig).

(** ** The server *)

Section Oracle.
Context {C : Consts} {cfg : Config} {P : Primitives}.

(** [verify_blob(msg, pk)] *)
Definition verify_blob (msg pk : bytes) : M bytes :=
  let sig := last_n 64 msg in
  let msg := but_last_n 64 msg in
  if crypto_sign_verify_detached sig msg pk then mret msg else raise ValueError.

(** The loop of [load_authkeys] over the lines of the file. *)
Fixpoint load_authkeys_lines (lines : list string) : M (list (bytes * string)) :=
  match lines with
  | [] => mret []
  | line :: rest =>
      '(b64key, name) ← lib ValueError (split_space line);
      key ← lib ValueError (a2b_base64 b64key);
      res ← load_authkeys_lines rest;
      mret ((key, strip name) :: res)
  end.

(** [load_authkeys(authorized_keys)] *)
Definition load_authkeys : M (list (bytes * string)) :=
  lines ← lib FileNotFoundError authorized_keys_file;
  load_authkeys_lines lines.

(** [setup_noise_sessions(s, n, privkey, auth_keys)] *)
Definition setup_noise_sessions (n : nat) (privkey : bytes) (auth_keys : list (bytes * string))
  : M (list session * list session) :=
  let pk := noise_pubkey privkey in
  send pk;;
  pkt ← read_pkt (32 * n);
  let pubkeys := split_by_n pkt 32 in
  when (bool_decide (length pubkeys ≠ length (remove_dups pubkeys))) fail;;
  initiated ← lib LibraryError (mapM (noise_initiator_session privkey) pubkeys);
  let sender_sessions := initiated.*1 in
  send (concat initiated.*2);;
  msg1s ← read_pkt (48 * n);
  responded ← lib LibraryError
    (mapM (noise_responder_session privkey auth_keys) (split_by_n msg1s 48));
  let receiver_sessions := responded.*1 in
  send (concat responded.*2);;
  msg2s ← read_pkt (48 * n);
  lib LibraryError
    (mapM (λ ms, noise_initiator_session_complete ms.2 ms.1)
          (zip (split_by_n msg2s 48) sender_sessions));;
  mret (sender_sessions, receiver_sessions).

(** [dkg(s, n, t, index, aux)]; the key pair and the polynomial of the
    library are drawn from the entropy of the world. *)
Definition dkg (n t index : nat) (aux : bytes) : M bytes :=
  privkey ← lib FileNotFoundError noisekey_file;
  when (bool_decide (length privkey ≠ 32%nat)) fail;;
  auth_keys ← load_authkeys;
  '(tx, rx) ← setup_noise_sessions n privkey auth_keys;
  seed ← randombytes 32;
  let '(pk, sk) := crypto_sign_keypair seed in
  send pk;;
  pks ← read_pkt (length pk * n);
  coins ← randombytes 32;
  '(c_hash, signed_c, shares, tr) ←
    lib LibraryError (dkg_start (Z.of_nat n) (Z.of_nat t) sk coins);
  let tr := transcript_update tr aux in
  send c_hash;;
  c_hashes ← read_pkt (length c_hash * n);
  send signed_c;;
  signed_commitments ← read_pkt (length signed_c * n);
  cts ← lib LibraryError (mapM (λ ss, noise_send_msg ss.2 ss.1) (zip shares tx));
  send (concat cts);;
  msg ← read_pkt (n * (33 + 64));
  shares ← lib LibraryError
    (mapM (λ cs, noise_read_msg cs.2 cs.1) (zip (split_by_n msg (33 + 64)) rx));
  '(complaints, tr) ←
    lib LibraryError
      (dkg_verify_commitments (Z.of_nat n) (Z.of_nat t) (Z.of_nat index)
         c_hashes signed_commitments pks shares tr);
  len ← lib StructError (struct_pack 1 (Z.of_nat (length complaints)));
  send (len ++ complaints);;
  '(share, final_msg) ←
    lib LibraryError (dkg_finish (Z.of_nat n) shares (Z.of_nat index) sk tr);
  mret share.

(** [update_blob(s)] *)
Definition update_blob : M unit :=
  signed_id ← recv (32 + 64);
  when (bool_decide (length signed_id ≠ (32 + 64)%nat)) fail;;
  if bool_decide (sum_bytes (take 32 signed_id) = 0) then mret tt else
  let id := Some (take 32 signed_id) in
  pk ← load_blob id "pub" None;
  '(new, blob) ←
    match pk with
    | None =>
        ex ← path_exists id;
        when ex fail;;
        mret (true, ["000"; "000"]%byte)
    | Some pk =>
        try_except (verify_blob signed_id pk) (is_exn ValueError) fail;;
        blob ← load_blob id "blob" None;
        match blob with
        | None => fail
        | Some blob => mret (false, blob)
        end
    end;
  send blob;;
  blob ←
    (if new : bool then
       pk ← recv 32;
       prefix ← recv 2;
       bsize ← lib StructError (struct_unpack_be 2 prefix);
       signedblob ← read_pkt (Z.to_nat bsize + 64);
       let blob := pk ++ prefix ++ signedblob in
       blob ← try_except (verify_blob blob pk) (is_exn ValueError) fail;
       let blob := drop 32 blob in
       ex ← path_exists None;
       when (negb ex) (os_mkdir None);;
       let tdir := id in
       ex ← path_exists tdir;
       when (negb ex) (os_mkdir tdir);;
       save_blob id "pub" pk;;
       mret blob
     else
       prefix ← recv 2;
       bsize ← lib StructError (struct_unpack_be 2 prefix);
       signedblob ← read_pkt (Z.to_nat bsize + 64);
       let blob := prefix ++ signedblob in
       pk ← load_blob id "pub" None;
       try_except
         (match pk with
          | Some pk => verify_blob blob pk
          | None => raise ValueError
          end) (is_exn ValueError) fail);
  save_blob id "blob" blob.

(** [create(s, msg)]; msg format: [0x00|id[32]|alpha[32]] *)
Definition create (msg : bytes) : M unit :=
  when (bool_decide (length msg ≠ 65%nat)) fail;;
  let '(op, msg) := pop msg 1 in
  let '(id, msg) := pop msg 32 in
  let '(alpha, msg) := pop msg 32 in
  let tdir := Some id in
  ex ← path_exists tdir;
  when ex fail;;
  k ← randombytes 32;
  beta ← try_except (lib LibraryError (oprf_evaluate k alpha)) any_exn fail;
  send beta;;
  msg ← recv (32 + RULE_SIZE + 64);
  when (bool_decide (length msg ≠ (32 + RULE_SIZE + 64)%nat)) fail;;
  let pk := take 32 msg in
  msg ← try_except (verify_blob msg pk) (is_exn ValueError) fail;
  let rules := drop 32 msg in
  update_blob;;
  ex ← path_exists None;
  when (negb ex) (os_mkdir None);;
  os_mkdir tdir;;
  save_blob tdir "key" k;;
  save_blob tdir "pub" pk;;
  save_blob tdir "rules" rules;;
  send ok_marker.

(** [pop(msg, 1, lambda x: x[0])] *)
Definition pop_int (msg : bytes) : M (nat * bytes) :=
  let '(x, msg) := pop msg 1 in
  x0 ← lib IndexError (head x);
  mret (N.to_nat (Byte.to_N x0), msg).

(** [create_dkg(s, msg)]; msg format: [0xf0|index|threshold|n|id[32]|alpha[32]] *)
Definition create_dkg (msg : bytes) : M unit :=
  when (bool_decide (length msg ≠ 68%nat)) fail;;
  let '(op, msg) := pop msg 1 in
  '(index, msg) ← pop_int msg;
  '(t, msg) ← pop_int msg;
  '(n, msg) ← pop_int msg;
  let '(id, msg) := pop msg 32 in
  let '(alpha, msg) := pop msg 32 in
  let aux := op ++ alpha in
  let tdir := Some id in
  ex ← path_exists tdir;
  when ex fail;;
  xi ← dkg n t index aux;
  beta ← try_except (lib LibraryError (oprf_evaluate (drop 1 xi) alpha)) any_exn fail;
  xi0 ← lib IndexError (head xi);
  send (xi0 :: beta);;
  msg ← recv (32 + RULE_SIZE + 64);
  when (bool_decide (length msg ≠ (32 + RULE_SIZE + 64)%nat)) fail;;
  let pk := take 32 msg in
  msg ← try_except (verify_blob msg pk) (is_exn ValueError) fail;
  let rules := drop 32 msg in
  update_blob;;
  ex ← path_exists None;
  when (negb ex) (os_mkdir None);;
  os_mkdir tdir;;
  save_blob tdir "key" xi;;
  save_blob tdir "pub" pk;;
  save_blob tdir "rules" rules;;
  send ok_marker.

(** [get(conn, msg)]; msg format: [0x66|id[32]|alpha[32]] *)
Definition get (msg : bytes) : M unit :=
  let '(_, msg) := pop msg 1 in
  let '(id, msg) := pop msg 32 in
  let '(alpha, msg) := pop msg 32 in
  when (bool_decide (msg ≠ [])) fail;;
  k ← load_blob (Some id) "key" (Some 33%nat);
  match k with
  | None => fail
  | Some k =>
      rules ← load_blob (Some id) "rules" (Some RULE_SIZE);
      match rules with
      | None => fail
      | Some rules =>
          beta ← try_except (lib LibraryError (oprf_evaluate (drop 1 k) alpha)) any_exn fail;
          send (take 1 k ++ beta ++ rules)
      end
  end.

(** [auth(s, id, alpha)] *)
Definition auth (id : path) (alpha : bytes) : M unit :=
  pk ← load_blob id "pub" (Some 32%nat);
  match pk with
  | None => fail
  | Some pk =>
      nonce ← randombytes 32;
      k ← load_blob id "key" None;
      beta ←
        match k with
        | Some k =>
            try_except
              (k0 ← lib IndexError (head k);
               e ← lib LibraryError (oprf_evaluate (drop 1 k) alpha);
               mret (k0 :: e)) any_exn fail
        | None => mret []
        end;
      send (beta ++ nonce);;
      sig ← recv 64;
      if crypto_sign_verify_detached sig nonce pk then send auth_marker else fail
  end.

(** [change(conn, msg)] *)
Definition change (msg : bytes) : M unit :=
  let '(op, msg) := pop msg 1 in
  let '(id, msg) := pop msg 32 in
  let '(alpha, msg) := pop msg 32 in
  when (bool_decide (msg ≠ [])) fail;;
  let tdir := Some id in
  ex ← path_exists tdir;
  when (negb ex) fail;;
  auth tdir alpha;;
  alpha ← recv 32;
  when (bool_decide (length alpha ≠ 32%nat)) fail;;
  k ← randombytes 32;
  beta ← try_except (lib LibraryError (oprf_evaluate k alpha)) any_exn fail;
  send beta;;
  blob ← recv (32 + RULE_SIZE + 64);
  when (bool_decide (length blob ≠ (32 + RULE_SIZE + 64)%nat)) fail;;
  let pk := take 32 blob in
  signed ← try_except (verify_blob blob pk) (is_exn ValueError) fail;
  let rules := drop 32 signed in
  save_blob tdir "new" k;;
  save_blob tdir "rules.new" rules;;
  save_blob tdir "pub.new" pk;;
  send ok_marker.

(** [change_dkg(s, msg)] *)
Definition change_dkg (msg : bytes) : M unit :=
  let '(op, msg) := pop msg 1 in
  let '(id, msg) := pop msg 32 in
  let '(alpha, msg) := pop msg 32 in
  when (bool_decide (msg ≠ [])) fail;;
  let aux := op ++ alpha in
  let tdir := Some id in
  ex ← path_exists tdir;
  when (negb ex) fail;;
  auth tdir alpha;;
  msg ← recv 35;
  '(t, msg) ← pop_int msg;
  '(n, msg) ← pop_int msg;
  '(index, alpha) ← pop_int msg;
  xi ← dkg n t index aux;
  beta ← try_except (lib LibraryError (oprf_evaluate (drop 1 xi) alpha)) any_exn fail;
  xi0 ← lib IndexError (head xi);
  send (xi0 :: beta);;
  blob ← recv (32 + RULE_SIZE + 64);
  when (bool_decide (length blob ≠ (32 + RULE_SIZE + 64)%nat)) fail;;
  let pk := take 32 blob in
  signed ← try_except (verify_blob blob pk) (is_exn ValueError) fail;
  let rules := drop 32 signed in
  save_blob tdir "new" xi;;
  save_blob tdir "rules.new" rules;;
  save_blob tdir "pub.new" pk;;
  send ok_marker.

(** [delete(conn, msg)] *)
Definition delete (msg : bytes) : M unit :=
  let '(op, msg) := pop msg 1 in
  let '(id, msg) := pop msg 32 in
  let '(alpha, msg) := pop msg 32 in
  when (bool_decide (msg ≠ [])) fail;;
  let tdir := Some id in
  ex ← path_exists tdir;
  when (negb ex) fail;;
  auth tdir alpha;;
  update_blob;;
  rmtree tdir;;
  send ok_marker.

(** [commit_undo(conn, msg, new, old)] *)
Definition commit_undo (new old : string) (msg : bytes) : M unit :=
  let '(op, msg) := pop msg 1 in
  let '(id, msg) := pop msg 32 in
  let '(alpha, msg) := pop msg 32 in
  when (bool_decide (msg ≠ [])) fail;;
  let tdir := Some id in
  ex ← path_exists tdir;
  when (negb ex) fail;;
  auth tdir alpha;;
  new_rules ← load_blob tdir ("rules." +:+ new) (Some RULE_SIZE);
  match new_rules with None => fail | Some new_rules =>
  cur_rules ← load_blob tdir "rules" (Some RULE_SIZE);
  match cur_rules with None => fail | Some cur_rules =>
  new_pub ← load_blob tdir ("pub." +:+ new) (Some 32%nat);
  match new_pub with None => fail | Some new_pub =>
  cur_pub ← load_blob tdir "pub" (Some 32%nat);
  match cur_pub with None => fail | Some cur_pub =>
  new_key ← load_blob tdir new (Some 33%nat);
  match new_key with None => fail | Some new_key =>
  cur_key ← load_blob tdir "key" (Some 33%nat);
  match cur_key with None => fail | Some cur_key =>
  save_blob tdir old cur_key;;
  save_blob tdir ("rules." +:+ old) cur_rules;;
  save_blob tdir ("pub." +:+ old) cur_pub;;
  save_blob tdir "key" new_key;;
  save_blob tdir "rules" new_rules;;
  save_blob tdir "pub" new_pub;;
  os_unlink tdir new;;
  os_unlink tdir ("pub." +:+ new);;
  os_unlink tdir ("rules." +:+ new);;
  send ok_marker
  end end end end end end.

(** [read(conn, msg)] *)
Definition read (msg : bytes) : M unit :=
  let '(op, msg) := pop msg 1 in
  let '(id, msg) := pop msg 32 in
  let '(alpha, msg) := pop msg 32 in
  auth (Some id) alpha;;
  blob ← load_blob (Some id) "blob" None;
  send (default [] blob).

(** [handler(conn, data)] *)
Definition handler (data : bytes) : M unit :=
  (if bool_decide (take 1 data = GET) then get data
   else if bool_decide (take 1 data = CHANGE) then change data
   else if bool_decide (take 1 data = CHANGE_DKG) then change_dkg data
   else if bool_decide (take 1 data = DELETE) then delete data
   else if bool_decide (take 1 data = COMMIT) then commit_undo "new" "old" data
   else if bool_decide (take 1 data = UNDO) then commit_undo "old" "new" data
   else if bool_decide (take 1 data = READ) then read data
   else mret tt);;
  close;;
  os_exit.

(** The rate-limit context after one more challenge for an id whose stored
    context is [(level, count, ts)]: the branches of [create_challenge]
    between unpacking the stored context and looking up the ladder.  [None]
    is the [ZeroDivisionError] of [//] when [rl_decay] is 0. *)
Definition next_difficulty (now : Q) (level count ts : Z) : option (Z * Z) :=
  if bool_decide (Z.of_nat (length Difficulties) ≤ level) then
    Some (Z.of_nat (length Difficulties) - 1, 0)
  else if Qgtb (now - inject_Z rl_decay) (inject_Z ts) && bool_decide (0 < level) then
    if bool_decide (rl_decay = 0) then None else
    let periods := Qfloor ((now - inject_Z ts) / inject_Z rl_decay) in
    if bool_decide (periods ≤ level) then Some (level - periods, 0)
    else Some (0, 0)
  else
    if bool_decide (rl_threshold ≤ count)
       && bool_decide (level < Z.of_nat (length Difficulties) - 1)
    then Some (level + 1, 0)
    else Some (level, count + 1).

(** [create_challenge(conn)] *)
Definition create_challenge : M unit :=
  req ← recv 65;
  (if bool_decide (take 1 req = READ)
   then when (bool_decide (length req ≠ 33%nat)) fail
   else when (bool_decide (length req ≠ 65%nat)) fail);;
  now ← timestamp;
  let id := Some (take 32 (drop 1 req)) in
  diff ← load_blob id "difficulty" (Some 9%nat);
  '(n, k, level, count) ←
    match diff with
    | None | Some [] =>
        d ← lib IndexError (difficulty_at 0);
        mret (d_n d, d_k d, 0, 0)
    | Some diff =>
        level ← lib StructError (struct_unpack 1 (take 1 diff));
        count ← lib StructError (struct_unpack 4 (take 4 (drop 1 diff)));
        ts ← lib StructError (struct_unpack 4 (drop 5 diff));
        '(level, count) ← lib ZeroDivisionError (next_difficulty now level count ts);
        d ← lib IndexError (difficulty_at level);
        mret (d_n d, d_k d, level, count)
    end;
  rl_level ← lib StructError (struct_pack 1 level);
  rl_count ← lib StructError (struct_pack 4 count);
  rl_ts ← lib StructError (struct_pack 4 (int_of_Q now));
  let rl_ctx := rl_level ++ rl_count ++ rl_ts in
  try_except (save_blob id "difficulty" rl_ctx) (is_exn FileNotFoundError)
    (match diff with
     | None | Some [] => mret tt
     | Some _ => raise FileNotFoundError
     end);;
  nk ← lib ValueError (bytes_of_ints [n; k]);
  ts8 ← lib StructError (struct_pack 8 (int_of_Q now));
  let challenge := nk ++ ts8 in
  key ← load_blob None "key" (Some 32%nat);
  key ←
    match key with
    | None | Some [] =>
        key ← randombytes 32;
        save_blob None "key" key;;
        mret key
    | Some key => mret key
    end;
  let sig := crypto_generichash key (req ++ challenge) in
  let resp := challenge ++ sig in
  send resp.

(** [verify_challenge(conn)] *)
Definition verify_challenge : M unit :=
  challenge ← recv (1 + 1 + 8 + 32);
  when (bool_decide (length challenge ≠ 42%nat)) fail;;
  let '(n, tmp) := pop challenge 1 in
  n ← lib IndexError (head n);
  let n := byte_to_Z n in
  let '(k, tmp) := pop tmp 1 in
  k ← lib IndexError (head k);
  let k := byte_to_Z k in
  let '(ts, tmp) := pop tmp 8 in
  ts ← lib StructError (struct_unpack 8 ts);
  let '(sig, tmp) := pop tmp 32 in
  req_type ← recv 1;
  payload ←
    (if bool_decide (take 1 req_type = READ) then
       payload ← recv 32;
       when (bool_decide (length payload ≠ 32%nat)) fail;;
       mret payload
     else
       payload ← recv 64;
       when (bool_decide (length payload ≠ 64%nat)) fail;;
       mret payload);
  let req := req_type ++ payload in
  key ← load_blob None "key" (Some 32%nat);
  match key with
  | None | Some [] => fail
  | Some key =>
      let tosign := take 10 challenge in
      let mac := crypto_generichash key (req ++ tosign) in
      when (bool_decide (xor_sum mac sig ≠ 0)) fail;;
      now ← timestamp;
      timeout ← lib KeyError (RL_Timeouts !! (n, k));
      when (Qgtb (now - inject_Z (timeout + rl_gracetime)) (inject_Z ts)) fail;;
      let solsize := equihash_solsize n k in
      solution ← recv solsize;
      when (bool_decide (length solution ≠ solsize)) fail;;
      let seed := challenge ++ req in
      when (negb (equihash_verify n k seed solution)) fail;;
      handler req
  end.

(** [ratelimit(conn)] *)
Definition ratelimit : M unit :=
  op ← recv 1;
  if bool_decide (op = CREATE) then
    data ← recv 64;
    create (CREATE ++ data)
  else if bool_decide (op = CREATE_DKG) then
    data ← recv 67;
    create_dkg (CREATE_DKG ++ data)
  else if bool_decide (op = CHALLENGE_CREATE) then create_challenge
  else if bool_decide (op = CHALLENGE_VERIFY) then verify_challenge
  else mret tt.

(** The child of [main]: [ratelimit(conn)], then the [finally] clause
    closes the connection; [os._exit] skips it. *)
Definition worker : M unit := λ w,
  match ratelimit w with
  | (Ret _, w') => (Exit, set_open false w')
  | (Exit, w') => (Exit, w')
  | (Raise e, w') => (Raise e, set_open false w')
  | (Hang, w') => (Hang, w')
  end.

End Oracle.

(** ** Derived notions used in the statements *)

(** The world after [fail]: the marker is the last thing sent and the
    socket is closed. *)
Definition failed (w : world) : world :=
  set_open false (set_out (w_out w ++ [fail_marker]) w).

(** [load_blob]'s size check: [size] is given and not zero. *)
Definition well_sized (size : option nat) (v : bytes) : Prop :=
  match size with
  | Some (S n) => length v = S n
  | _ => True
  end.

(** A run that ended the way [fail] ends it: the process left, the marker
    was the last thing sent, the socket is closed. *)
Definition sent_fail {A} (r : outcome A * world) : Prop :=
  r.1 = Exit ∧ last (w_out r.2) = Some fail_marker ∧ w_open r.2 = false.

(** A computation that leaves the process only through [fail]. *)
Definition exits_by_fail {A} (m : M A) : Prop :=
  ∀ w, (m w).1 = Exit → sent_fail (m w).

(** The request [op|id|alpha] carried by every operation on an account. *)
Definition req_id (msg : bytes) : path := Some (take 32 (drop 1 msg)).
Definition req_alpha (msg : bytes) : bytes := take 32 (drop 32 (drop 1 msg)).

(** A request as [create_challenge] accepts it: 33 bytes for READ, 65 for
    the other operations. *)
Definition wf_request {C : Consts} (req : bytes) : Prop :=
  if bool_decide (take 1 req = READ) then length req = 33%nat else length req = 65%nat.

(** The fields of a stored rate-limit context, and the context
    [create_challenge] writes. *)
Definition difficulty_of (diff : bytes) : Z * Z * Z :=
  (le_value (take 1 diff), le_value (take 4 (drop 1 diff)), le_value (drop 5 diff)).

Definition rl_ctx_of (level count ts : Z) : bytes :=
  le_bytes 1 level ++ le_bytes 4 count ++ le_bytes 4 ts.

(** The challenge issued at difficulty [d] and time [now]. *)
Definition challenge_of (d : difficulty) (now : Q) : bytes :=
  [Z_to_byte (d_n d); Z_to_byte (d_k d)] ++ le_bytes 8 (int_of_Q now).

(** What CHALLENGE_VERIFY finds on a connection that delivers the
    challenge [n|k|ts[8]|sig[32]], the request [op|payload] and a solution
    of the full size, with the MAC key in place. *)
Definition verify_input {C : Consts} {P : Primitives} (w : world)
    (nb kb : byte) (ts8 sig op payload solution : bytes) (rest : list bytes)
    (key : bytes) : Prop :=
  length ts8 = 8%nat ∧
  length sig = 32%nat ∧
  length op = 1%nat ∧
  length payload = (if bool_decide (op = READ) then 32 else 64)%nat ∧
  length solution = equihash_solsize (byte_to_Z nb) (byte_to_Z kb) ∧
  w_in w = (nb :: kb :: ts8 ++ sig) :: op :: payload :: solution :: rest ∧
  fs_read (w_fs w) None "key" = Some key ∧
  length key = 32%nat.

(** The six blobs [commit_undo] loads, in the order it loads them. *)
Definition six_blobs (new : string) : list string :=
  ["rules." +:+ new; "rules"; "pub." +:+ new; "pub"; new; "key"].

(** The store without the files [names] of directory [id]. *)
Definition fs_without (fs : fsys) (id : path) (names : list string) : fsys :=
  foldr (λ f fs, fs_unlink fs id f) fs names.

(** What the nine writes of [commit_undo] leave on disk. *)
Definition rotated (fs : fsys) (id : path) (new old : string)
    (new_key new_rules new_pub cur_key cur_rules cur_pub : bytes) : fsys :=
  let fs := fs_write fs id old cur_key in
  let fs := fs_write fs id ("rules." +:+ old) cur_rules in
  let fs := fs_write fs id ("pub." +:+ old) cur_pub in
  let fs := fs_write fs id "key" new_key in
  let fs := fs_write fs id "rules" new_rules in
  let fs := fs_write fs id "pub" new_pub in
  let fs := fs_unlink fs id new in
  let fs := fs_unlink fs id ("pub." +:+ new) in
  fs_unlink fs id ("rules." +:+ new).

(** What holds of the record store at every reachable state: files live
    in existing directories, the data directory exists when a directory in
    it does, every directory holds [pub], and a directory that holds [key]
    holds a 32-byte [pub] and a [rules] of the size [load_blob] checks. *)
Definition store_inv {C : Consts} (fs : fsys) : Prop :=
  (∀ p f, is_Some (fs_read fs p f) → dir_exists fs p = true) ∧
  (∀ id, dir_exists fs (Some id) = true → dir_exists fs None = true) ∧
  (∀ id, dir_exists fs (Some id) = true → is_Some (fs_read fs (Some id) "pub")) ∧
  (∀ id, is_Some (fs_read fs (Some id) "key") →
     (∃ pk, fs_read fs (Some id) "pub" = Some pk ∧ length pk = 32%nat) ∧
     (∃ r, fs_read fs (Some id) "rules" = Some r ∧ well_sized (Some RULE_SIZE) r)).

(** The equivalence of the specification's first invariant, for one
    account directory. *)
Definition account_complete {C : Consts} (fs : fsys) (id : bytes) : Prop :=
  ∃ k pk r,
    fs_read fs (Some id) "key" = Some k ∧ length k = 33%nat ∧
    fs_read fs (Some id) "pub" = Some pk ∧ length pk = 32%nat ∧
    fs_read fs (Some id) "rules" = Some r ∧ length r = RULE_SIZE.

(** The stores the server can reach from an empty data directory: one
    worker per connection, whatever the connection delivers, whatever the
    entropy and the clock. *)
Inductive reachable {C : Consts} {cfg : Config} {P : Primitives} : fsys → Prop :=
| reach_empty : reachable fs_empty
| reach_worker (w : world) : reachable (w_fs w) → reachable (w_fs (worker w).2).

(** A computation that leaves the record store alone. *)
Definition fs_const {A} (m : M A) : Prop := ∀ w, w_fs (m w).2 = w_fs w.

(** Weakest precondition for the record store: started on the store
    [fs], a computation that returns establishes [Q], and one that ends
    otherwise leaves [store_inv]. *)
Definition wp {C : Consts} {A} (m : M A) (Q : A → fsys → Prop) (fs : fsys) : Prop :=
  ∀ w, w_fs w = fs →
    match m w with
    | (Ret a, w') => Q a (w_fs w')
    | (_, w') => store_inv (w_fs w')
    end.

(** An operation that keeps the invariant, however it ends. *)
Definition keeps_inv {C : Consts} {A} (m : M A) : Prop :=
  ∀ w, store_inv (w_fs w) → store_inv (w_fs (m w).2).

(** The operations of the server: the request handlers, the host-blob
    update they call, the rate limiter and the dispatchers around them. *)
Inductive server_op {C : Consts} {cfg : Config} {P : Primitives} : M unit → Prop :=
| op_create msg : server_op (create msg)
| op_create_dkg msg : server_op (create_dkg msg)
| op_change msg : server_op (change msg)
| op_change_dkg msg : server_op (change_dkg msg)
| op_commit msg : server_op (commit_undo "new" "old" msg)
| op_undo msg : server_op (commit_undo "old" "new" msg)
| op_delete msg : server_op (delete msg)
| op_update_blob : server_op update_blob
| op_get msg : server_op (get msg)
| op_read msg : server_op (read msg)
| op_create_challenge : server_op create_challenge
| op_verify_challenge : server_op verify_challenge
| op_handler data : server_op (handler data)
| op_ratelimit : server_op ratelimit
| op_worker : server_op worker.

(** A triple on the record store: started on [fs], a run of [m] that
    returns [a] leaves a store with [Qr a], and a run that ends in any other
    way leaves one with [Qe]. *)
Definition hoare {A} (m : M A) (fs : fsys) (Qr : A → fsys → Prop) (Qe : fsys → Prop) : Prop :=
  ∀ w, w_fs w = fs →
    match m w with
    | (Ret a, w') => Qr a (w_fs w')
    | (_, w') => Qe (w_fs w')
    end.

(** The footprint of a computation: however it ends, the files outside
    [D] and the directories outside [E] are as before. *)
Definition writes_within {A} (m : M A) (D : path → string → Prop) (E : path → Prop) : Prop :=
  ∀ w, (∀ p f, ¬ D p f → fs_read (w_fs (m w).2) p f = fs_read (w_fs w) p f) ∧
       (∀ p, ¬ E p → dir_exists (w_fs (m w).2) p = dir_exists (w_fs w) p).

(** A computation that closes the connection before it leaves the
    process. *)
Definition closes {A} (m : M A) : Prop :=
  ∀ w, (m w).1 = Exit → w_open (m w).2 = false.

(** The records a successful [change] or [change_dkg] stages: the key
    [k], and the public key and rules the client signed with that public
    key. *)
Definition staged_by {P : Primitives} {C : Consts} (fs : fsys) (id : path) (k : bytes) (fs' : fsys) : Prop :=
  ∃ pk rules sig,
    length pk = 32%nat ∧ length rules = RULE_SIZE ∧
    crypto_sign_verify_detached sig (pk ++ rules) pk = true ∧
    fs' = fs_write (fs_write (fs_write fs id "new" k) id "rules.new" rules) id "pub.new" pk.

(** The three things [update_blob] can do to the record store [fs]:
    nothing; replace the [blob] of a host record that has a [pub], by a blob
    signed under that [pub], for a client that also signed the id; or enrol a host record whose directory does not
    exist, with the [pub] the client sends and a blob signed under it (the
    data directory is made first when it is missing). *)
Definition blob_updated {P : Primitives} (fs fs' : fsys) : Prop :=
  fs' = fs ∨
  (∃ id pk blob sig idsig,
     fs_read fs (Some id) "pub" = Some pk ∧
     crypto_sign_verify_detached idsig id pk = true ∧
     crypto_sign_verify_detached sig blob pk = true ∧
     fs' = fs_write fs (Some id) "blob" blob) ∨
  (∃ id pk signed sig,
     fs_read fs (Some id) "pub" = None ∧
     dir_exists fs (Some id) = false ∧
     crypto_sign_verify_detached sig signed pk = true ∧
     fs' = fs_write
             (fs_write
                (fs_mkdir (if dir_exists fs None then fs else fs_mkdir fs None) (Some id))
                (Some id) "pub" pk)
             (Some id) "blob" (drop 32 signed)).

(** Footprints: the files inside record directories; every directory;
    and what issuing a challenge may write, the rate-limit context of a
    record and the MAC key in the data directory. *)
Definition in_records (p : path) (f : string) : Prop := p ≠ None.
Definition any_dir (p : path) : Prop := True.
Definition no_dir (p : path) : Prop := False.
Definition rate_limit_files (p : path) (f : string) : Prop :=
  (p ≠ None ∧ f = "difficulty") ∨ (p = None ∧ f = "key").

(** A computation that leaves a MAC key that is on file, and not empty,
    as it is. *)
Definition keeps_mac_key {A} (m : M A) : Prop :=
  ∀ w k, fs_read (w_fs w) None "key" = Some k → k ≠ [] →
         fs_read (w_fs (m w).2) None "key" = Some k.

(** What holds of the value and the world of a run that returns. *)
Definition post {A} (m : M A) (w : world) (Q : A → world → Prop) : Prop :=
  ∀ a w', m w = (Ret a, w') → Q a w'.

(** The next [n] bytes of the entropy of a world: what [randombytes n]
    returns there. *)
Definition fresh_bytes (n : nat) (w : world) : bytes :=
  (λ i, w_entropy w (w_rpos w + i)%nat) <$> seq 0 n.

(** What [recv n] returns in a world: at most [n] bytes of the first
    segment of the stream, nothing at its end. *)
Definition next_bytes (n : nat) (w : world) : bytes :=
  take n (default [] (head (w_in w))).

(** A computation that only adds to what was sent. *)
Definition only_appends {A} (m : M A) : Prop :=
  ∀ w, w_out w `prefix_of` w_out (m w).2.

(** ** An instance to evaluate the model on

    The theorems below hold for every choice of constants, configuration
    and libraries; the closed examples run the server on this one.  The
    stand-ins for the libraries are not cryptography: a digest that only
    sees the length and the byte sum of its input, a signature that is the
    public key followed by the digest of the message, and an OPRF that
    xors key and input. *)

Definition demo_consts : Consts := {|
  RULE_SIZE := 4;
  CREATE := [x00];
  READ := [x33];
  UNDO := [x55];
  GET := [x66];
  COMMIT := [x99];
  CHANGE := [xaa];
  DELETE := [xff];
  CHALLENGE_CREATE := [x5a];
  CHALLENGE_VERIFY := [xa5];
  CREATE_DKG := [xf0];
  CHANGE_DKG := [xfa]
|}.

Definition demo_config : Config := {|
  rl_decay := 1800;
  rl_threshold := 1;
  rl_gracetime := 10;
  noisekey_file := None;
  authorized_keys_file := None
|}.

Definition demo_digest (data : bytes) : bytes :=
  replicate 32 (Z_to_byte (sum_bytes data + Z.of_nat (length data))).

Definition demo_sign (pk msg : bytes) : bytes := pk ++ demo_digest msg.

Definition demo_xor (a b : bytes) : bytes :=
  (λ ab, Z_to_byte (Z.lxor (byte_to_Z ab.1) (byte_to_Z ab.2))) <$> zip a b.

Fixpoint demo_chunks (fuel : nat) (b : bytes) (n : nat) : list bytes :=
  match fuel, b with
  | S fuel', _ :: _ => take n b :: demo_chunks fuel' (drop n b) n
  | _, _ => []
  end.

Definition demo_primitives : Primitives := {|
  crypto_sign_verify_detached sig msg pk :=
    bool_decide (length pk = 32%nat ∧ sig = demo_sign pk msg);
  crypto_sign_keypair seed := (seed, seed);
  crypto_generichash key data := demo_digest (key ++ data);
  oprf_evaluate k alpha :=
    if bool_decide (length k = 32%nat ∧ length alpha = 32%nat)
    then Some (demo_xor k alpha) else None;
  equihash_solsize n k := 32%nat;
  equihash_verify n k seed solution := bool_decide (solution = demo_digest seed);
  a2b_base64 s := None;
  split_by_n b n := demo_chunks (length b) b n;
  session := unit;
  transcript := unit;
  noise_pubkey privkey := privkey;
  noise_initiator_session privkey pubkey := None;
  noise_responder_session privkey auth_keys msg := None;
  noise_initiator_session_complete s msg := None;
  noise_send_msg s msg := None;
  noise_read_msg s ct := None;
  dkg_start n t sk coins := None;
  transcript_update tr aux := tr;
  dkg_verify_commitments n t index c_hashes commitments pks shares tr := None;
  dkg_finish n shares index sk tr := None
|}.

(** Sample values: an account id, a blinded element, two key pairs' public
    halves, rules blobs and 33-byte OPRF keys. *)
Definition demo_id : bytes := replicate 32 x01.
Definition demo_alpha : bytes := replicate 32 x02.
Definition demo_pub : bytes := replicate 32 x03.
Definition demo_pub' : bytes := replicate 32 x04.
Definition demo_rules : bytes := replicate 4 x05.
Definition demo_rules' : bytes := replicate 4 x06.
Definition demo_key : bytes := x00 :: replicate 32 x07.
Definition demo_key' : bytes := x00 :: replicate 32 x08.
Definition demo_pub0 : bytes := replicate 32 x0a.
Definition demo_rules0 : bytes := replicate 4 x0b.
Definition demo_key0 : bytes := x00 :: replicate 32 x0c.

Definition demo_entropy (i : nat) : byte := x09.

(** A world with the given store, input chunks and clock. *)
Definition demo_world (fs : fsys) (input : list bytes) (now : Q) : world :=
  World fs input [] true demo_entropy 0 now.

(** An account with a live triple only. *)
Definition demo_fs_live : fsys :=
  Fsys {[ None; Some demo_id ]}
       (list_to_map [
          ((Some demo_id, "key"), demo_key);
          ((Some demo_id, "rules"), demo_rules);
          ((Some demo_id, "pub"), demo_pub)]).

(** The same account one generation later: a live triple, a staged shadow
    triple, and the .old triple an earlier commit left behind. *)
Definition demo_fs_staged : fsys :=
  Fsys {[ None; Some demo_id ]}
       (list_to_map [
          ((Some demo_id, "key"), demo_key);
          ((Some demo_id, "rules"), demo_rules);
          ((Some demo_id, "pub"), demo_pub);
          ((Some demo_id, "new"), demo_key');
          ((Some demo_id, "rules.new"), demo_rules');
          ((Some demo_id, "pub.new"), demo_pub');
          ((Some demo_id, "old"), demo_key0);
          ((Some demo_id, "rules.old"), demo_rules0);
          ((Some demo_id, "pub.old"), demo_pub0)]).

(** The signature the client returns on the nonce of [auth] in the demo
    worlds: the entropy is constant, so the nonce is known. *)
Definition demo_nonce : bytes := replicate 32 x09.

(** A COMMIT request for the demo account, and the world of a connection
    on which the client answers [auth] with a valid signature. *)
Definition demo_commit_msg : bytes := [x99] ++ demo_id ++ demo_alpha.
Definition demo_undo_msg : bytes := [x55] ++ demo_id ++ demo_alpha.

Definition demo_commit_world : world :=
  demo_world demo_fs_staged [demo_sign demo_pub demo_nonce] 0.

Definition demo_committed : outcome unit * world :=
  commit_undo (C := demo_consts) (P := demo_primitives) "new" "old"
    demo_commit_msg demo_commit_world.

(** The next connection: UNDO on the store the commit left, signed with
    the key that is live now. *)
Definition demo_undo_conn : world :=
  demo_world fs_empty [demo_sign demo_pub' demo_nonce] 0.

Definition demo_undo_world : world := set_fs (w_fs demo_committed.2) demo_undo_conn.

Definition demo_undone : outcome unit * world :=
  commit_undo (C := demo_consts) (P := demo_primitives) "old" "new"
    demo_undo_msg demo_undo_world.

(** COMMIT on the account that has nothing staged. *)
Definition demo_live_world : world :=
  demo_world demo_fs_live [demo_sign demo_pub demo_nonce] 0.

(** A GET request for the demo account and a store that has the account,
    a rate-limit context [(level, count, ts)] for it and the MAC key. *)
Definition demo_get_req : bytes := [x66] ++ demo_id ++ demo_alpha.
Definition demo_mac_key : bytes := replicate 32 x0d.

Definition demo_fs_rl (level count ts : Z) : fsys :=
  fs_write
    (fs_write demo_fs_live (Some demo_id) "difficulty" (rl_ctx_of level count ts))
    None "key" demo_mac_key.

Definition demo_rl_world (level count ts : Z) (now : Q) : world :=
  demo_world (demo_fs_rl level count ts) [demo_get_req] now.

(** A challenge for the GET request at the first rung (n = 60, k = 4),
    issued at time 1000: the ten bytes, the MAC, and two candidate
    solutions, one for the seed with the MAC in it and one for the seed
    without. *)
Definition demo_challenge10 : bytes := x3c :: x04 :: le_bytes 8 1000.
Definition demo_challenge_sig : bytes :=
  crypto_generichash (Primitives := demo_primitives) demo_mac_key
    (demo_get_req ++ demo_challenge10).
Definition demo_challenge : bytes := demo_challenge10 ++ demo_challenge_sig.
Definition demo_solution42 : bytes := demo_digest (demo_challenge ++ demo_get_req).
Definition demo_solution10 : bytes := demo_digest (demo_challenge10 ++ demo_get_req).

Definition demo_verify_world (solution : bytes) (now : Q) : world :=
  demo_world (demo_fs_rl 0 0 1000)
    [demo_challenge; [x66]; demo_id ++ demo_alpha; solution] now.

(** The reply of GET for the demo account. *)
Definition demo_get_reply : bytes :=
  x00 :: demo_xor (replicate 32 x07) demo_alpha ++ demo_rules.

(** Enrolment on an empty store: CREATE for the demo account, then the
    client's [pub|rules|sig] and an all-zero host id (no host record). *)
Definition demo_create_msg : bytes := [x00] ++ demo_id ++ demo_alpha.

Definition demo_create_world : world :=
  demo_world fs_empty
    [ (demo_pub ++ demo_rules) ++ demo_sign demo_pub (demo_pub ++ demo_rules);
      replicate 96 x00 ] 0.

Definition demo_created : outcome unit * world :=
  create (C := demo_consts) (P := demo_primitives) demo_create_msg demo_create_world.

(** The next connection: GET on the store CREATE left. *)
Definition demo_get_conn : world := demo_world fs_empty [] 0.

Definition demo_get_after_create : outcome unit * world :=
  get (C := demo_consts) (P := demo_primitives) demo_get_req
    (set_fs (w_fs demo_created.2) demo_get_conn).

(** The demo account with a key file of 32 bytes, and a complete
    CHALLENGE_VERIFY connection carrying GET for it; a CHALLENGE_CREATE
    connection on a machine whose data directory does not exist. *)
Definition demo_fs_corrupt : fsys :=
  fs_write (demo_fs_rl 0 0 1000) (Some demo_id) "key" (replicate 32 x07).

Definition demo_corrupt_world : world :=
  demo_world demo_fs_corrupt
    [[xa5]; demo_challenge; [x66]; demo_id ++ demo_alpha; demo_solution42] 1005.

Definition demo_nodir_world : world :=
  demo_world fs_empty [[x5a]; demo_get_req] 1000.

(** Enrolment with a host record: CREATE for the demo account on an empty
    store, the client registering a host blob under the id [demo_host]. *)
Definition demo_host : bytes := replicate 32 x0e.
Definition demo_host_pub : bytes := replicate 32 x0f.
Definition demo_host_blob : bytes := [x00; x02; x10; x11].

Definition demo_enrol_world : world :=
  demo_world fs_empty
    [ [x00];
      demo_id ++ demo_alpha;
      (demo_pub ++ demo_rules) ++ demo_sign demo_pub (demo_pub ++ demo_rules);
      demo_host ++ replicate 64 x00;
      demo_host_pub;
      [x00; x02];
      [x10; x11] ++ demo_sign demo_host_pub (demo_host_pub ++ demo_host_blob) ] 0.

Definition demo_enrolled : outcome unit * world :=
  worker (C := demo_consts) (cfg := demo_config) (P := demo_primitives) demo_enrol_world.

(** A stream that delivers five bytes in three segments. *)
Definition demo_stream_world : world :=
  demo_world fs_empty [[x01; x02]; [x03]; [x04; x05]] 0.

(** CHANGE for the demo account: the client signs the nonce of [auth],
    sends a new blinded element and then the new [pub|rules|sig]. *)
Definition demo_change_msg : bytes := [xaa] ++ demo_id ++ demo_alpha.

Definition demo_change_world : world :=
  demo_world demo_fs_live
    [ demo_sign demo_pub demo_nonce;
      demo_alpha;
      (demo_pub' ++ demo_rules') ++ demo_sign demo_pub' (demo_pub' ++ demo_rules') ] 0.

Definition demo_changed : outcome unit * world :=
  change (C := demo_consts) (P := demo_primitives) demo_change_msg demo_change_world.

(** The next connection: COMMIT on the store CHANGE left. *)
Definition demo_commit_after_change : world :=
  set_fs (w_fs demo_changed.2) (demo_world fs_empty [demo_sign demo_pub demo_nonce] 0).

(** DELETE for the demo account, with an all-zero host id. *)
Definition demo_delete_msg : bytes := [xff] ++ demo_id ++ demo_alpha.

Definition demo_delete_world : world :=
  demo_world demo_fs_live [demo_sign demo_pub demo_nonce; replicate 96 x00] 0.

Definition demo_deleted : outcome unit * world :=
  delete (P := demo_primitives) demo_delete_msg demo_delete_world.

(** A connection that only carries a host-blob update with the all-zero
    id, on the store that has the demo account. *)
Definition demo_blob_world : world := demo_world demo_fs_live [replicate 96 x00] 0.

(** An instance on which the distributed key generation goes through,
    with no peers: the share is the index byte followed by the coins. *)
Definition demo_config_dkg : Config := {|
  rl_decay := 1800;
  rl_threshold := 1;
  rl_gracetime := 10;
  noisekey_file := Some (replicate 32 x0a);
  authorized_keys_file := Some []
|}.

Definition demo_primitives_dkg : Primitives := {|
  crypto_sign_verify_detached sig msg pk :=
    bool_decide (length pk = 32%nat ∧ sig = demo_sign pk msg);
  crypto_sign_keypair seed := (seed, seed);
  crypto_generichash key data := demo_digest (key ++ data);
  oprf_evaluate k alpha :=
    if bool_decide (length k = 32%nat ∧ length alpha = 32%nat)
    then Some (demo_xor k alpha) else None;
  equihash_solsize n k := 32%nat;
  equihash_verify n k seed solution := bool_decide (solution = demo_digest seed);
  a2b_base64 s := None;
  split_by_n b n := demo_chunks (length b) b n;
  session := unit;
  transcript := unit;
  noise_pubkey privkey := privkey;
  noise_initiator_session privkey pubkey := None;
  noise_responder_session privkey auth_keys msg := None;
  noise_initiator_session_complete s msg := None;
  noise_send_msg s msg := None;
  noise_read_msg s ct := None;
  dkg_start n t sk coins := Some (demo_digest coins, demo_digest sk, [], tt);
  transcript_update tr aux := tr;
  dkg_verify_commitments n t index c_hashes commitments pks shares tr := Some ([], tt);
  dkg_finish n shares index sk tr := Some (Z_to_byte index :: sk, [])
|}.

(** CREATE_DKG for the demo account, as share 1 of 0 peers, then the
    client's [pub|rules|sig] and an all-zero host id; and the store it
    leaves. *)
Definition demo_create_dkg_msg : bytes := [xf0; x01; x00; x00] ++ demo_id ++ demo_alpha.

Definition demo_create_dkg_world : world :=
  demo_world fs_empty
    [ (demo_pub ++ demo_rules) ++ demo_sign demo_pub (demo_pub ++ demo_rules);
      replicate 96 x00 ] 0.

Definition demo_created_dkg : outcome unit * world :=
  create_dkg (C := demo_consts) (cfg := demo_config_dkg) (P := demo_primitives_dkg)
    demo_create_dkg_msg demo_create_dkg_world.

(** A configuration whose authorized_keys file has a blank line. *)
Definition demo_config_blank_line : Config := {|
  rl_decay := 1800;
  rl_threshold := 1;
  rl_gracetime := 10;
  noisekey_file := Some (replicate 32 x0a);
  authorized_keys_file := Some [String "010"%char EmptyString]
|}.

(** Two peers that announce the same noise key. *)
Definition demo_twin_keys_world : world := demo_world fs_empty [replicate 64 x01] 0.

(** Enrolment with a host record whose length prefix arrives as a single
    byte. *)
Definition demo_short_prefix_world : world :=
  demo_world fs_empty
    [ [x00];
      demo_id ++ demo_alpha;
      (demo_pub ++ demo_rules) ++ demo_sign demo_pub (demo_pub ++ demo_rules);
      demo_host ++ replicate 64 x00;
      demo_host_pub;
      [x00] ] 0.

(** A complete CHALLENGE_VERIFY connection carrying CHANGE_DKG for the demo
    account: the client passes [auth] and then sends two bytes where
    [t | n | index | alpha] is expected. *)
Definition demo_change_dkg_req : bytes := [xfa] ++ demo_id ++ demo_alpha.

Definition demo_change_dkg_challenge : bytes :=
  demo_challenge10 ++
  crypto_generichash (Primitives := demo_primitives) demo_mac_key
    (demo_change_dkg_req ++ demo_challenge10).

Definition demo_short_params_world : world :=
  demo_world (demo_fs_rl 0 0 1000)
    [ [xa5];
      demo_change_dkg_challenge;
      [xfa];
      demo_id ++ demo_alpha;
      demo_digest (demo_change_dkg_challenge ++ demo_change_dkg_req);
      demo_sign demo_pub demo_nonce;
      [x01; x02] ] 1005.

(** * Running the monad *)

Lemma bind_run {A B} (m : M A) (f : A → M B) w :
  (m ≫= f) w =
  match m w with
  | (Ret a, w') => f a w'
  | (Exit, w') => (Exit, w')
  | (Raise e, w') => (Raise e, w')
  | (Hang, w') => (Hang, w')
  end.
Proof. reflexivity. Qed.

Lemma run_eq {A} (r : outcome A * world) o : r.1 = o → r = (o, r.2).
Proof. destruct r. by intros <-. Qed.

Lemma w_fs_set_fs fs w : w_fs (set_fs fs w) = fs.
Proof. reflexivity. Qed.

Lemma fail_run {A} w : @fail A w = (Exit, failed w).
Proof. reflexivity. Qed.

Lemma bind_fail {A B} (f : A → M B) w : (fail ≫= f) w = (Exit, failed w).
Proof. reflexivity. Qed.

Lemma bind_ret {A B} (a : A) (f : A → M B) w : (mret a ≫= f) w = f a w.
Proof. reflexivity. Qed.

Lemma bind_raise {A B} e (f : A → M B) w : (raise e ≫= f) w = (Raise e, w).
Proof. reflexivity. Qed.

Lemma bind_assoc {A B D} (m : M A) (f : A → M B) (g : B → M D) w :
  ((m ≫= f) ≫= g) w = (m ≫= (λ a, f a ≫= g)) w.
Proof. unfold mbind, M_bind. destruct (m w) as [[] ?]; reflexivity. Qed.

Lemma bind_when_true {B} (m : M unit) (f : unit → M B) w :
  (when true m ≫= f) w = (m ≫= f) w.
Proof. reflexivity. Qed.

Lemma bind_when_false {B} (m : M unit) (f : unit → M B) w :
  (when false m ≫= f) w = f tt w.
Proof. reflexivity. Qed.

Lemma bind_path_exists {B} p (f : bool → M B) w :
  (path_exists p ≫= f) w = f (dir_exists (w_fs w) p) w.
Proof. reflexivity. Qed.

Lemma bind_send {B} b (f : unit → M B) w :
  (send b ≫= f) w = f tt (set_out (w_out w ++ [b]) w).
Proof. reflexivity. Qed.

Lemma bind_timestamp {B} (f : Q → M B) w : (timestamp ≫= f) w = f (w_now w) w.
Proof. reflexivity. Qed.

Lemma bind_randombytes {B} n (f : bytes → M B) w :
  (randombytes n ≫= f) w =
  f ((λ i, w_entropy w (w_rpos w + i)%nat) <$> seq 0 n) (set_rpos (w_rpos w + n) w).
Proof. reflexivity. Qed.

Lemma bind_lib_Some {A B} e (a : A) (f : A → M B) w : (lib e (Some a) ≫= f) w = f a w.
Proof. reflexivity. Qed.

Lemma bind_lib_None {A B} e (f : A → M B) w : (lib e (@None A) ≫= f) w = (Raise e, w).
Proof. reflexivity. Qed.

Create Rewrite HintDb run.
#[global] Hint Rewrite @bind_fail @bind_ret @bind_raise @bind_when_true @bind_when_false
  @bind_path_exists @bind_send @bind_timestamp @bind_randombytes
  @bind_lib_Some @bind_lib_None @fail_run : run.

(** * The record store *)

Lemma load_blob_cases p f sz w :
  load_blob p f sz w = (Ret (fs_read (w_fs w) p f), w) ∨
  load_blob p f sz w = (Raise ValueError, w).
Proof.
  unfold load_blob. destruct (fs_read _ _ _); [|auto].
  destruct sz as [[|n]|]; auto. case_decide; auto.
Qed.

Lemma load_blob_Ret p f sz w v w' :
  load_blob p f sz w = (Ret v, w') →
  w' = w ∧ v = fs_read (w_fs w) p f ∧
  ∀ b, v = Some b → well_sized sz b.
Proof.
  unfold load_blob, well_sized. intros H.
  destruct (fs_read _ _ _) as [b|]; [|by simplify_eq].
  destruct sz as [[|n]|]; simplify_eq; try (split_and!; [done..|by intros ? [= <-]]).
  case_decide; simplify_eq. split_and!; [done..|]. intros ? [= <-]. lia.
Qed.

Lemma bind_load_blob {B} p f sz v (g : option bytes → M B) w :
  fs_read (w_fs w) p f = Some v → well_sized sz v →
  (load_blob p f sz ≫= g) w = g (Some v) w.
Proof.
  intros Hr Hs. rewrite bind_run. unfold load_blob. rewrite Hr.
  destruct sz as [[|n]|]; try done. cbn in Hs. case_decide; [lia|done].
Qed.

Lemma bind_save_blob {B} p f b (g : unit → M B) w :
  dir_exists (w_fs w) p = true →
  (save_blob p f b ≫= g) w = g tt (set_fs (fs_write (w_fs w) p f b) w).
Proof. intros H. rewrite bind_run. unfold save_blob. by rewrite H. Qed.

Lemma bind_os_unlink {B} p f (g : unit → M B) w :
  is_Some (fs_read (w_fs w) p f) →
  (os_unlink p f ≫= g) w = g tt (set_fs (fs_unlink (w_fs w) p f) w).
Proof. intros [v H]. rewrite bind_run. unfold os_unlink. by rewrite H. Qed.

Lemma fs_read_write fs p f b p' f' :
  fs_read (fs_write fs p f b) p' f' =
  if decide ((p, f) = (p', f')) then Some b else fs_read fs p' f'.
Proof. unfold fs_read, fs_write. cbn. apply lookup_insert. Qed.

Lemma fs_read_unlink fs p f p' f' :
  fs_read (fs_unlink fs p f) p' f' =
  if decide ((p, f) = (p', f')) then None else fs_read fs p' f'.
Proof. unfold fs_read, fs_unlink. cbn. apply lookup_delete. Qed.

Lemma fsys_eq fs1 fs2 :
  dirs fs1 = dirs fs2 → (∀ p f, fs_read fs1 p f = fs_read fs2 p f) → fs1 = fs2.
Proof.
  destruct fs1 as [d1 f1], fs2 as [d2 f2]. unfold fs_read. cbn. intros -> H.
  f_equal. apply map_eq. intros [p f]. apply H.
Qed.

Lemma dirs_write fs p f b : dirs (fs_write fs p f b) = dirs fs.
Proof. reflexivity. Qed.

Lemma dirs_unlink fs p f : dirs (fs_unlink fs p f) = dirs fs.
Proof. reflexivity. Qed.

Lemma fs_read_write_is_Some fs p f b p' f' :
  is_Some (fs_read fs p' f') → is_Some (fs_read (fs_write fs p f b) p' f').
Proof. rewrite fs_read_write. case_decide; eauto. Qed.

Lemma dir_exists_write fs p f b q : dir_exists (fs_write fs p f b) q = dir_exists fs q.
Proof. reflexivity. Qed.

Lemma dir_exists_unlink fs p f q : dir_exists (fs_unlink fs p f) q = dir_exists fs q.
Proof. reflexivity. Qed.

Lemma string_length_app (a b : string) :
  String.length (a +:+ b) = (String.length a + String.length b)%nat.
Proof.
  induction a as [|c a IH]; [reflexivity|].
  change (S (String.length (a +:+ b)) = S (String.length a + String.length b)).
  by rewrite IH.
Qed.

Lemma shadow_names_ne (new : string) :
  new ≠ "pub." +:+ new ∧ new ≠ "rules." +:+ new ∧ "pub." +:+ new ≠ "rules." +:+ new.
Proof.
  split_and!.
  - intros H%(f_equal String.length). rewrite string_length_app in H. cbn in H. lia.
  - intros H%(f_equal String.length). rewrite string_length_app in H. cbn in H. lia.
  - discriminate.
Qed.

Ltac unfold_M :=
  unfold when, lib, raise, try_except, send, recv, fail, close, os_exit, path_exists,
    os_mkdir, os_unlink, rmtree, save_blob, load_blob, randombytes, timestamp,
    mbind, M_bind, mret, M_ret in *.

Ltac load_step :=
  rewrite bind_run;
  match goal with
  | |- context [load_blob ?p ?f ?sz ?w] =>
      destruct (load_blob_cases p f sz w) as [-> | ->]; [| cbn; auto];
      let v := fresh "v" in
      let E := fresh "E" in
      destruct (fs_read (w_fs w) p f) as [v|] eqn:E; [| cbn; auto]
  end.

Ltac load_inv H v E S :=
  match type of H with
  | (load_blob ?p ?f ?sz ≫= _) ?w = _ =>
      let L := fresh "L" in
      rewrite bind_run in H;
      destruct (load_blob p f sz w) as [[?| |?|] ?] eqn:L; try discriminate H;
      apply load_blob_Ret in L as (-> & -> & S);
      destruct (fs_read (w_fs w) p f) as [v|] eqn:E;
      [specialize (S _ eq_refl) | rewrite fail_run in H; discriminate H]
  end.

Section Account.
Context {C : Consts} {cfg : Config} {P : Primitives}.

(** [auth] only talks: the record store is as before, whatever happens. *)
Lemma auth_fs id alpha w : w_fs (auth id alpha w).2 = w_fs w.
Proof.
  unfold auth. unfold_M. cbn.
  repeat (case_match; simplify_eq/=; try reflexivity).
Qed.

Lemma auth_outcome id alpha w :
  (auth id alpha w).1 = Ret tt ∨ (auth id alpha w).1 = Exit ∨
  (auth id alpha w).1 = Raise ValueError.
Proof.
  unfold auth. unfold_M. cbn.
  repeat (case_match; simplify_eq/=; auto).
Qed.

Lemma auth_Ret_fs id alpha w w1 : auth id alpha w = (Ret tt, w1) → w_fs w1 = w_fs w.
Proof. intros H. pose proof (auth_fs id alpha w) as Hf. by rewrite H in Hf. Qed.

(** Enough for [commit_undo] to go through: a request without trailing
    bytes, an existing account that passes [auth], and the six blobs
    present with the sizes [load_blob] is asked to check. *)
Lemma commit_undo_run new old msg w w1 nk nr np ck cr cp :
  drop 32 (drop 32 (drop 1 msg)) = [] →
  dir_exists (w_fs w) (req_id msg) = true →
  auth (req_id msg) (req_alpha msg) w = (Ret tt, w1) →
  fs_read (w_fs w) (req_id msg) ("rules." +:+ new) = Some nr → well_sized (Some RULE_SIZE) nr →
  fs_read (w_fs w) (req_id msg) "rules" = Some cr → well_sized (Some RULE_SIZE) cr →
  fs_read (w_fs w) (req_id msg) ("pub." +:+ new) = Some np → length np = 32%nat →
  fs_read (w_fs w) (req_id msg) "pub" = Some cp → length cp = 32%nat →
  fs_read (w_fs w) (req_id msg) new = Some nk → length nk = 33%nat →
  fs_read (w_fs w) (req_id msg) "key" = Some ck → length ck = 33%nat →
  commit_undo new old msg w =
    (Ret tt, set_out (w_out w1 ++ [ok_marker])
               (set_fs (rotated (w_fs w) (req_id msg) new old nk nr np ck cr cp) w1)).
Proof.
  intros Htr Hdir Hauth Hnr Snr Hcr Scr Hnp Snp Hcp Scp Hnk Snk Hck Sck.
  pose proof (auth_Ret_fs _ _ _ _ Hauth) as Hfs.
  destruct (shadow_names_ne new) as (N1 & N2 & N3).
  unfold commit_undo, pop. fold (req_id msg) (req_alpha msg).
  rewrite Htr. rewrite bool_decide_eq_false_2 by auto.
  rewrite bind_when_false, bind_path_exists, Hdir. cbn [negb].
  rewrite bind_when_false, bind_run, Hauth.
  rewrite <- Hfs in *.
  rewrite (bind_load_blob _ _ _ nr) by done.
  rewrite (bind_load_blob _ _ _ cr) by done.
  rewrite (bind_load_blob _ _ _ np) by done.
  rewrite (bind_load_blob _ _ _ cp) by done.
  rewrite (bind_load_blob _ _ _ nk) by done.
  rewrite (bind_load_blob _ _ _ ck) by done.
  do 6 (rewrite bind_save_blob by done; cbn [w_fs set_fs]; rewrite ?dir_exists_write).
  rewrite bind_os_unlink
    by (cbn [w_fs set_fs]; do 6 apply fs_read_write_is_Some; eauto).
  rewrite bind_os_unlink.
  2:{ cbn [w_fs set_fs]. rewrite fs_read_unlink. rewrite decide_False by congruence.
      do 6 apply fs_read_write_is_Some; eauto. }
  rewrite bind_os_unlink.
  2:{ cbn [w_fs set_fs]. rewrite !fs_read_unlink. rewrite !decide_False by congruence.
      do 6 apply fs_read_write_is_Some; eauto. }
  reflexivity.
Qed.

(** Conversely a [commit_undo] that returns has met all of that. *)
Lemma commit_undo_Ret new old msg w w' :
  commit_undo new old msg w = (Ret tt, w') →
  ∃ w1 nk nr np ck cr cp,
    drop 32 (drop 32 (drop 1 msg)) = [] ∧
    dir_exists (w_fs w) (req_id msg) = true ∧
    auth (req_id msg) (req_alpha msg) w = (Ret tt, w1) ∧
    (fs_read (w_fs w) (req_id msg) ("rules." +:+ new) = Some nr ∧ well_sized (Some RULE_SIZE) nr) ∧
    (fs_read (w_fs w) (req_id msg) "rules" = Some cr ∧ well_sized (Some RULE_SIZE) cr) ∧
    (fs_read (w_fs w) (req_id msg) ("pub." +:+ new) = Some np ∧ length np = 32%nat) ∧
    (fs_read (w_fs w) (req_id msg) "pub" = Some cp ∧ length cp = 32%nat) ∧
    (fs_read (w_fs w) (req_id msg) new = Some nk ∧ length nk = 33%nat) ∧
    (fs_read (w_fs w) (req_id msg) "key" = Some ck ∧ length ck = 33%nat) ∧
    w' = set_out (w_out w1 ++ [ok_marker])
           (set_fs (rotated (w_fs w) (req_id msg) new old nk nr np ck cr cp) w1).
Proof.
  intros H. pose proof H as H0.
  unfold commit_undo, pop in H. fold (req_id msg) (req_alpha msg) in H.
  case_bool_decide as Htr; [rewrite bind_when_true, bind_fail in H; discriminate H|].
  rewrite bind_when_false, bind_path_exists in H.
  destruct (dir_exists (w_fs w) (req_id msg)) eqn:Hdir; cbn [negb] in H;
    [|rewrite bind_when_true, bind_fail in H; discriminate H].
  rewrite bind_when_false, bind_run in H.
  destruct (auth (req_id msg) (req_alpha msg) w) as [[[]| |?|] w1] eqn:Hauth;
    try discriminate H.
  pose proof (auth_Ret_fs _ _ _ _ Hauth) as Hfs.
  load_inv H nr Hnr Snr. load_inv H cr Hcr Scr. load_inv H np Hnp Snp.
  load_inv H cp Hcp Scp. load_inv H nk Hnk Snk. load_inv H ck Hck Sck.
  rewrite Hfs in *.
  exists w1, nk, nr, np, ck, cr, cp. split_and!; try done.
  erewrite commit_undo_run in H0 by done. by simplify_eq.
Qed.

End Account.

Ltac fs_lookup :=
  cbn [w_fs set_fs set_out set_open set_in set_rpos];
  unfold rotated;
  repeat (rewrite fs_read_unlink || rewrite fs_read_write);
  repeat (case_decide; simplify_eq; try done).

(** COMMIT followed by UNDO on the store: everything is back, and the
    .old files are gone. *)
Lemma rotated_undo fs id nk nr np ck cr cp :
  fs_read fs id "rules.new" = Some nr →
  fs_read fs id "rules" = Some cr →
  fs_read fs id "pub.new" = Some np →
  fs_read fs id "pub" = Some cp →
  fs_read fs id "new" = Some nk →
  fs_read fs id "key" = Some ck →
  rotated (rotated fs id "new" "old" nk nr np ck cr cp) id "old" "new" ck cr cp nk nr np =
  fs_without fs id ["old"; "rules.old"; "pub.old"].
Proof.
  intros Hnr Hcr Hnp Hcp Hnk Hck.
  unfold rotated, fs_without. cbn [foldr].
  change ("rules." +:+ "new") with "rules.new".
  change ("pub." +:+ "new") with "pub.new".
  change ("rules." +:+ "old") with "rules.old".
  change ("pub." +:+ "old") with "pub.old".
  apply fsys_eq.
  - by rewrite ?dirs_unlink, ?dirs_write.
  - intros p f.
    repeat (rewrite fs_read_unlink || rewrite fs_read_write).
    repeat (case_decide; simplify_eq; try done).
Qed.

Section Rotation.
Context {C : Consts} {cfg : Config} {P : Primitives}.

(** C5. A successful COMMIT ([commit_undo] with new = "new", old = "old",
    as [handler] calls it) on an account whose live triple and shadow triple
    are present: afterwards the live triple is the prior shadow triple, the
    .old triple is the prior live triple, and the shadow files are gone.
    (That the six blobs are well-sized follows from the success.) *)
Theorem commit_promotes_shadow msg w w' key rules pub nkey nrules npub :
  fs_read (w_fs w) (req_id msg) "key" = Some key →
  fs_read (w_fs w) (req_id msg) "rules" = Some rules →
  fs_read (w_fs w) (req_id msg) "pub" = Some pub →
  fs_read (w_fs w) (req_id msg) "new" = Some nkey →
  fs_read (w_fs w) (req_id msg) "rules.new" = Some nrules →
  fs_read (w_fs w) (req_id msg) "pub.new" = Some npub →
  commit_undo "new" "old" msg w = (Ret tt, w') →
  (fs_read (w_fs w') (req_id msg) "key" = Some nkey ∧
   fs_read (w_fs w') (req_id msg) "rules" = Some nrules ∧
   fs_read (w_fs w') (req_id msg) "pub" = Some npub) ∧
  (fs_read (w_fs w') (req_id msg) "old" = Some key ∧
   fs_read (w_fs w') (req_id msg) "rules.old" = Some rules ∧
   fs_read (w_fs w') (req_id msg) "pub.old" = Some pub) ∧
  (fs_read (w_fs w') (req_id msg) "new" = None ∧
   fs_read (w_fs w') (req_id msg) "rules.new" = None ∧
   fs_read (w_fs w') (req_id msg) "pub.new" = None) ∧
  (length nkey = 33%nat ∧ length npub = 32%nat ∧ well_sized (Some RULE_SIZE) nrules).
Proof.
  intros Hk Hr Hp Hnk Hnr Hnp H.
  apply commit_undo_Ret in H
    as (w1 & nk & nr & np & ck & cr & cp & _ & _ & _ & [? ?] & [? ?] & [? ?] & [? ?] & [? ?] & [? ?] & ->).
  change ("rules." +:+ "new") with "rules.new" in *.
  change ("pub." +:+ "new") with "pub.new" in *.
  simplify_eq.
  split_and!; try done; fs_lookup.
Qed.

(** C10. [commit_undo] (COMMIT with new = "new", UNDO with new = "old")
    loads its six blobs before it writes: when any of them is absent the
    operation ends, through [fail] or through the [ValueError] of an earlier
    size check, and the record store is what it was. *)
Theorem commit_undo_error_atomic new old msg w f :
  f ∈ six_blobs new →
  fs_read (w_fs w) (req_id msg) f = None →
  w_fs (commit_undo new old msg w).2 = w_fs w ∧
  ((commit_undo new old msg w).1 = Exit ∨
   (commit_undo new old msg w).1 = Raise ValueError).
Proof.
  intros Hf Hnone. unfold commit_undo, pop. fold (req_id msg) (req_alpha msg).
  case_bool_decide; autorewrite with run; [cbn; auto|].
  destruct (dir_exists (w_fs w) (req_id msg)) eqn:Hdir; cbn [negb];
    autorewrite with run; [|cbn; auto].
  rewrite bind_run.
  pose proof (auth_fs (req_id msg) (req_alpha msg) w) as Hfs.
  pose proof (auth_outcome (req_id msg) (req_alpha msg) w) as Ho.
  destruct (auth (req_id msg) (req_alpha msg) w) as [o w1]. cbn in Hfs, Ho.
  rewrite <- Hfs in *. clear Hfs.
  destruct Ho as [-> | [-> | ->]]; [|auto..].
  unfold six_blobs in Hf.
  repeat (apply elem_of_cons in Hf as [-> | Hf]); [ .. | by apply elem_of_nil in Hf].
  all: repeat (load_step; try congruence).
Qed.

(** C3 (as the code has it). UNDO right after a successful COMMIT, on the
    store the commit left and passing [auth], goes through; it puts the live
    triple and the staged triple new / rules.new / pub.new back to what they
    were before the commit and removes the .old triple.  The store is the
    pre-commit store without its .old files: equal to it when there were
    none, and with the shadow files present again. *)
Theorem undo_after_commit msg msg' w w1 w2 w2' :
  commit_undo "new" "old" msg w = (Ret tt, w1) →
  w_fs w2 = w_fs w1 →
  req_id msg' = req_id msg →
  drop 32 (drop 32 (drop 1 msg')) = [] →
  auth (req_id msg') (req_alpha msg') w2 = (Ret tt, w2') →
  ∃ w3,
    commit_undo "old" "new" msg' w2 = (Ret tt, w3) ∧
    w_fs w3 = fs_without (w_fs w) (req_id msg) ["old"; "rules.old"; "pub.old"] ∧
    (∀ f, f ∈ ["new"; "rules.new"; "pub.new"] →
          is_Some (fs_read (w_fs w3) (req_id msg) f)) ∧
    (fs_without (w_fs w) (req_id msg) ["old"; "rules.old"; "pub.old"] = w_fs w →
     w_fs w3 = w_fs w).
Proof.
  intros Hc Hfs Hid Htr Hauth.
  apply commit_undo_Ret in Hc
    as (wa & nk & nr & np & ck & cr & cp & _ & Hdir & _ &
        [Hnr Snr] & [Hcr Scr] & [Hnp Snp] & [Hcp Scp] & [Hnk Snk] & [Hck Sck] & ->).
  change ("rules." +:+ "new") with "rules.new" in *.
  change ("pub." +:+ "new") with "pub.new" in *.
  cbn [w_fs set_fs set_out] in Hfs.
  rewrite <- Hid in *.
  eexists. split.
  { eapply (commit_undo_run "old" "new" msg' w2 w2' ck cr cp nk nr np);
      rewrite ?Hfs; try done; try (by fs_lookup). }
  cbn [w_fs set_fs set_out]. rewrite Hfs.
  pose proof (rotated_undo _ _ _ _ _ _ _ _ Hnr Hcr Hnp Hcp Hnk Hck) as Heq.
  split_and!.
  - exact Heq.
  - intros f Hf. rewrite Heq. unfold fs_without. cbn [foldr].
    rewrite !fs_read_unlink.
    repeat (apply elem_of_cons in Hf as [-> | Hf]); [ .. | by apply elem_of_nil in Hf];
      repeat (case_decide; simplify_eq; try done); eauto.
  - intros E. rewrite Heq. exact E.
Qed.

End Rotation.

Lemma commit_promotes_shadow_witness :
  demo_committed = (Ret tt, demo_committed.2) ∧
  fs_read (w_fs demo_committed.2) (Some demo_id) "key" = Some demo_key' ∧
  fs_read (w_fs demo_committed.2) (Some demo_id) "old" = Some demo_key ∧
  fs_read (w_fs demo_committed.2) (Some demo_id) "new" = None.
Proof.
  assert (H : demo_committed = (Ret tt, demo_committed.2))
    by (apply run_eq; vm_compute; reflexivity).
  split; [exact H|].
  pose proof (commit_promotes_shadow (C := demo_consts) (P := demo_primitives)
    demo_commit_msg demo_commit_world demo_committed.2
    demo_key demo_rules demo_pub demo_key' demo_rules' demo_pub'
    eq_refl eq_refl eq_refl eq_refl eq_refl eq_refl H) as (L & O & S & _).
  split_and!; [apply L | apply O | apply S].
Defined.

Lemma undo_after_commit_witness :
  ∃ w3,
    commit_undo (C := demo_consts) (P := demo_primitives) "old" "new"
      demo_undo_msg (set_fs (w_fs demo_committed.2) demo_undo_conn) = (Ret tt, w3) ∧
    w_fs w3 =
      fs_without (w_fs demo_commit_world) (req_id demo_commit_msg)
        ["old"; "rules.old"; "pub.old"].
Proof.
  destruct (undo_after_commit (C := demo_consts) (P := demo_primitives)
    demo_commit_msg demo_undo_msg demo_commit_world demo_committed.2
    (set_fs (w_fs demo_committed.2) demo_undo_conn)
    (auth (P := demo_primitives) (req_id demo_undo_msg) (req_alpha demo_undo_msg)
       (set_fs (w_fs demo_committed.2) demo_undo_conn)).2)
    as (w3 & H3 & Hfs & _).
  - apply (run_eq demo_committed). vm_compute. reflexivity.
  - apply w_fs_set_fs.
  - vm_compute. reflexivity.
  - vm_compute. reflexivity.
  - apply run_eq. vm_compute. reflexivity.
  - exists w3. split; [exact H3 | exact Hfs].
Defined.

(** C3, as stated, fails: on the demo account (which carries the .old
    triple of an earlier commit) COMMIT and then UNDO both succeed, the
    store is not the pre-commit store (the .old files are lost), and the
    shadow file [new] is present. *)
Lemma undo_after_commit_counterexample :
  demo_committed.1 = Ret tt ∧
  demo_undone.1 = Ret tt ∧
  w_fs demo_undone.2 ≠ w_fs demo_commit_world ∧
  fs_read (w_fs demo_undone.2) (Some demo_id) "new" = Some demo_key'.
Proof.
  split_and!.
  - vm_compute. reflexivity.
  - vm_compute. reflexivity.
  - intros E. apply (f_equal (λ fs, fs_read fs (Some demo_id) "old")) in E.
    vm_compute in E. discriminate E.
  - vm_compute. reflexivity.
Qed.

Lemma commit_undo_error_atomic_witness :
  w_fs (commit_undo (C := demo_consts) (P := demo_primitives) "new" "old"
          demo_commit_msg demo_live_world).2 = w_fs demo_live_world ∧
  ((commit_undo (C := demo_consts) (P := demo_primitives) "new" "old"
          demo_commit_msg demo_live_world).1 = Exit ∨
   (commit_undo (C := demo_consts) (P := demo_primitives) "new" "old"
          demo_commit_msg demo_live_world).1 = Raise ValueError).
Proof.
  apply (commit_undo_error_atomic (C := demo_consts) (P := demo_primitives)
           "new" "old" demo_commit_msg demo_live_world "rules.new").
  - unfold six_blobs. apply list_elem_of_here.
  - vm_compute. reflexivity.
Defined.

(** * The rate limiter *)

Lemma bind_recv_chunk {B} n c rest (f : bytes → M B) w :
  w_in w = c :: rest → (length c ≤ n)%nat →
  (recv n ≫= f) w = f c (set_in rest w).
Proof.
  intros Hin Hlen. rewrite bind_run. unfold recv. rewrite Hin.
  rewrite take_ge, drop_ge by lia. reflexivity.
Qed.

Lemma try_except_Ret {A} (m h : M A) c a w w' :
  m w = (Ret a, w') → try_except m c h w = (Ret a, w').
Proof. unfold try_except. by intros ->. Qed.

Lemma struct_pack_ok n v :
  0 ≤ v < 256 ^ Z.of_nat n → struct_pack n v = Some (le_bytes n v).
Proof.
  intros [H0 H1]. unfold struct_pack.
  destruct (Z.leb_spec 0 v); [|lia]. destruct (Z.ltb_spec v (256 ^ Z.of_nat n)); [done|lia].
Qed.

Lemma struct_unpack_ok n b : length b = n → struct_unpack n b = Some (le_value b).
Proof. intros H. unfold struct_unpack. by rewrite decide_True. Qed.

Lemma byte_to_Z_range b : 0 ≤ byte_to_Z b < 256.
Proof. unfold byte_to_Z. pose proof (Byte.to_N_bounded b). lia. Qed.

Lemma le_value_range b : 0 ≤ le_value b < 256 ^ Z.of_nat (length b).
Proof.
  induction b as [|x b IH]; [cbn; lia|].
  cbn [le_value length]. rewrite Nat2Z.inj_succ, Z.pow_succ_r by lia.
  pose proof (byte_to_Z_range x). lia.
Qed.

Lemma Qgtb_true a b : Qgtb a b = true ↔ (b < a)%Q.
Proof.
  unfold Qgtb. rewrite negb_true_iff, <- not_true_iff_false, Qle_bool_iff.
  split; [apply Qnot_le_lt | apply Qlt_not_le].
Qed.

Lemma Qgtb_false a b : Qgtb a b = false ↔ (a <= b)%Q.
Proof. unfold Qgtb. by rewrite negb_false_iff, Qle_bool_iff. Qed.

Lemma Difficulties_bytes :
  Forall (λ d, 0 ≤ d_n d < 256 ∧ 0 ≤ d_k d < 256) Difficulties.
Proof. unfold Difficulties. repeat constructor; cbn; lia. Qed.

Lemma difficulty_at_Some level d :
  0 ≤ level → difficulty_at level = Some d →
  level < 13 ∧ 0 ≤ d_n d < 256 ∧ 0 ≤ d_k d < 256.
Proof.
  intros H0 H. unfold difficulty_at in H. split.
  - apply lookup_lt_Some in H. change (length Difficulties) with 13%nat in H. lia.
  - exact (proj1 (Forall_lookup _ _) Difficulties_bytes _ _ H).
Qed.

Lemma difficulty_at_is_Some level :
  0 ≤ level < 13 → is_Some (difficulty_at level).
Proof.
  intros H. unfold difficulty_at. apply lookup_lt_is_Some.
  change (length Difficulties) with 13%nat. lia.
Qed.

Section RateLimit.
Context {C : Consts} {cfg : Config} {P : Primitives}.

(** One CHALLENGE_CREATE for an id with a stored rate-limit context and
    the MAC key in place, from the request to the reply. *)
Lemma create_challenge_run w req rest diff key level count ts level' count' d :
  w_in w = req :: rest →
  wf_request req →
  fs_read (w_fs w) (req_id req) "difficulty" = Some diff →
  length diff = 9%nat →
  dir_exists (w_fs w) (req_id req) = true →
  difficulty_of diff = (level, count, ts) →
  next_difficulty (w_now w) level count ts = Some (level', count') →
  0 ≤ level' →
  difficulty_at level' = Some d →
  0 ≤ count' < 2 ^ 32 →
  0 ≤ int_of_Q (w_now w) < 2 ^ 32 →
  fs_read (w_fs w) None "key" = Some key →
  length key = 32%nat →
  create_challenge w =
    (Ret tt,
     set_out (w_out w ++ [challenge_of d (w_now w) ++
                          crypto_generichash key (req ++ challenge_of d (w_now w))])
       (set_fs (fs_write (w_fs w) (req_id req) "difficulty"
                  (rl_ctx_of level' count' (int_of_Q (w_now w))))
          (set_in rest w))).
Proof.
  intros Hin Hreq Hdiff Hlen Hdir Hof Hnext Hl0 Hd Hc Hnow Hkey Hklen.
  unfold difficulty_of in Hof. injection Hof as Hlv Hcn Hts.
  destruct (difficulty_at_Some _ _ Hl0 Hd) as (Hl13 & Hn & Hk).
  unfold create_challenge.
  rewrite (bind_recv_chunk 65 req rest) by (try done; unfold wf_request in Hreq; case_bool_decide; lia).
  rewrite bind_run.
  assert (Hframe : ∀ w0,
    (if bool_decide (take 1 req = READ)
     then when (bool_decide (length req ≠ 33%nat)) fail
     else when (bool_decide (length req ≠ 65%nat)) fail) w0 = (Ret tt, w0)).
  { intros w0. unfold wf_request in Hreq. case_bool_decide;
      rewrite bool_decide_eq_false_2 by lia; reflexivity. }
  rewrite Hframe. rewrite bind_timestamp.
  fold (req_id req).
  rewrite (bind_load_blob _ _ _ diff) by (cbn; done).
  destruct diff as [|b0 diff']; [discriminate Hlen|].
  cbn beta iota.
  rewrite !struct_unpack_ok
    by (rewrite ?length_take, ?length_drop; cbn [length] in *; lia).
  rewrite bind_assoc, bind_lib_Some. cbn beta.
  rewrite bind_assoc, bind_lib_Some. cbn beta.
  rewrite bind_assoc, bind_lib_Some. cbn beta.
  rewrite Hlv, Hcn, Hts.
  cbn [w_now set_in]. rewrite Hnext.
  rewrite bind_assoc, (bind_lib_Some ZeroDivisionError (level', count')). cbn beta iota.
  rewrite bind_assoc, Hd, bind_lib_Some, bind_ret. cbn beta iota.
  change (2 ^ 32) with 4294967296 in *.
  rewrite (struct_pack_ok 1 level') by (cbn; lia).
  rewrite (struct_pack_ok 4 count') by (cbn; lia).
  rewrite (struct_pack_ok 4 (int_of_Q (w_now w))) by (cbn; lia).
  rewrite (struct_pack_ok 8 (int_of_Q (w_now w))) by (cbn; lia).
  do 3 (rewrite bind_lib_Some; cbn beta).
  rewrite bind_run.
  erewrite try_except_Ret; last first.
  { unfold save_blob. cbn [w_fs set_in]. rewrite Hdir. reflexivity. }
  unfold bytes_of_ints. cbn [forallb].
  destruct (Z.leb_spec 0 (d_n d)); [|lia]. destruct (Z.ltb_spec (d_n d) 256); [|lia].
  destruct (Z.leb_spec 0 (d_k d)); [|lia]. destruct (Z.ltb_spec (d_k d) 256); [|lia].
  cbn [andb]. rewrite bind_lib_Some. cbn beta.
  rewrite bind_lib_Some. cbn beta.
  rewrite (bind_load_blob _ _ _ key).
  2:{ cbn [w_fs set_fs set_in]. rewrite fs_read_write. by rewrite decide_False. }
  2:{ done. }
  destruct key as [|k0 key']; [discriminate Hklen|].
  rewrite bind_ret. reflexivity.
Qed.

(** The three branches of the rate-limit update. *)
Lemma next_difficulty_clamp now level count ts :
  13 ≤ level → next_difficulty now level count ts = Some (12, 0).
Proof.
  intros H. unfold next_difficulty. change (Z.of_nat (length Difficulties)) with 13.
  by rewrite bool_decide_eq_true_2.
Qed.

Lemma next_difficulty_decay now level count ts :
  rl_decay ≠ 0 → 0 < level < 13 →
  (inject_Z rl_decay < now - inject_Z ts)%Q →
  next_difficulty now level count ts =
    Some (Z.max 0 (level - Qfloor ((now - inject_Z ts) / inject_Z rl_decay)), 0).
Proof.
  intros Hd [H0 H13] Hlt. unfold next_difficulty.
  change (Z.of_nat (length Difficulties)) with 13.
  rewrite bool_decide_eq_false_2 by lia.
  assert (Qgtb (now - inject_Z rl_decay) (inject_Z ts) = true) as ->
    by (apply Qgtb_true; lra).
  rewrite (bool_decide_eq_true_2 (0 < level)) by done. cbn [andb].
  rewrite bool_decide_eq_false_2 by done.
  case_bool_decide; f_equal; f_equal; lia.
Qed.

Lemma next_difficulty_escalate now level count ts :
  level < 13 →
  ¬ ((inject_Z rl_decay < now - inject_Z ts)%Q ∧ 0 < level) →
  next_difficulty now level count ts =
    Some (if bool_decide (rl_threshold ≤ count ∧ level < 12)
          then (level + 1, 0) else (level, count + 1)).
Proof.
  intros H13 Hno. unfold next_difficulty.
  change (Z.of_nat (length Difficulties)) with 13.
  rewrite bool_decide_eq_false_2 by lia.
  destruct (Qgtb _ _ && bool_decide (0 < level)) eqn:E.
  { apply andb_true_iff in E as [E1 E2]. apply Qgtb_true in E1.
    apply bool_decide_eq_true in E2. exfalso. apply Hno. split; [lra|done]. }
  change (13 - 1) with 12.
  destruct (bool_decide (rl_threshold ≤ count)) eqn:E1,
           (bool_decide (level < 12)) eqn:E2; cbn [andb];
    repeat case_bool_decide; try done; try lia; naive_solver.
Qed.

(** Enough silence brings the level down to 0. *)
Lemma periods_ge now level ts :
  0 < rl_decay →
  (inject_Z (rl_decay * level) <= now - inject_Z ts)%Q →
  level ≤ Qfloor ((now - inject_Z ts) / inject_Z rl_decay).
Proof.
  intros Hd H.
  rewrite <- (Qfloor_Z level). apply Qfloor_resp_le.
  apply Qle_shift_div_l.
  - change 0%Q with (inject_Z 0). rewrite <- Zlt_Qlt. done.
  - rewrite <- inject_Z_mult. by rewrite Z.mul_comm.
Qed.

Lemma difficulty_of_range diff level count ts :
  difficulty_of diff = (level, count, ts) → 0 ≤ level ∧ 0 ≤ count ∧ 0 ≤ ts.
Proof.
  unfold difficulty_of. intros [= <- <- <-].
  split_and!; apply le_value_range.
Qed.

(** C6 (as the code has it). For an id whose stored rate-limit context has a
    level in 1..L-1 and time stamp ts, a CHALLENGE_CREATE arriving when
    now - ts > rl_decay (strictly) uses and persists the level lowered by
    floor((now - ts) / rl_decay), saturating at 0, with count 0; when
    moreover now - ts >= rl_decay * level the level used and persisted is 0.
    (The clock fits the u32 field and the MAC key is in place.) *)
Theorem challenge_decay w req rest diff key level count ts :
  0 < rl_decay →
  w_in w = req :: rest →
  wf_request req →
  fs_read (w_fs w) (req_id req) "difficulty" = Some diff →
  length diff = 9%nat →
  dir_exists (w_fs w) (req_id req) = true →
  difficulty_of diff = (level, count, ts) →
  0 < level < 13 →
  (inject_Z rl_decay < w_now w - inject_Z ts)%Q →
  0 ≤ int_of_Q (w_now w) < 2 ^ 32 →
  fs_read (w_fs w) None "key" = Some key →
  length key = 32%nat →
  ∃ level' d,
    level' = Z.max 0 (level - Qfloor ((w_now w - inject_Z ts) / inject_Z rl_decay)) ∧
    difficulty_at level' = Some d ∧
    create_challenge w =
      (Ret tt,
       set_out (w_out w ++ [challenge_of d (w_now w) ++
                            crypto_generichash key (req ++ challenge_of d (w_now w))])
         (set_fs (fs_write (w_fs w) (req_id req) "difficulty"
                    (rl_ctx_of level' 0 (int_of_Q (w_now w))))
            (set_in rest w))) ∧
    ((inject_Z (rl_decay * level) <= w_now w - inject_Z ts)%Q → level' = 0).
Proof.
  intros Hdecay Hin Hreq Hdiff Hlen Hdir Hof Hlevel Hlt Hnow Hkey Hklen.
  set (level' := Z.max 0 (level - Qfloor ((w_now w - inject_Z ts) / inject_Z rl_decay))).
  assert (0 ≤ level' < 13) as Hl'.
  { assert (0 ≤ Qfloor ((w_now w - inject_Z ts) / inject_Z rl_decay)); [|lia].
    apply (periods_ge _ 0 ts Hdecay). rewrite Z.mul_0_r. change (inject_Z 0) with 0%Q.
    assert (0 < inject_Z rl_decay)%Q
      by (change 0%Q with (inject_Z 0); by rewrite <- Zlt_Qlt).
    lra. }
  destruct (difficulty_at_is_Some level' Hl') as [d Hd].
  exists level', d. split_and!; [done|done| |].
  - eapply create_challenge_run; try done; try lia.
    apply next_difficulty_decay; [lia|done|done].
  - intros Hsil. pose proof (periods_ge _ _ _ Hdecay Hsil). lia.
Qed.

(** C7 (as the code has it). For an id whose stored rate-limit context has
    a level within the ladder (level <= L-1 = 12) and for which the decay
    case does not apply: if count >= rl_threshold and level < L-1 the level
    persisted is level + 1 with count 0, otherwise the level is unchanged
    and count + 1 is persisted (so at level L-1 only count grows); the level
    persisted is at most L-1.  A stored level above L-1 is instead replaced
    by L-1 with count 0.  (count + 1 fits the u32 field, the clock too, and
    the MAC key is in place.) *)
Theorem challenge_escalation w req rest diff key level count ts :
  w_in w = req :: rest →
  wf_request req →
  fs_read (w_fs w) (req_id req) "difficulty" = Some diff →
  length diff = 9%nat →
  dir_exists (w_fs w) (req_id req) = true →
  difficulty_of diff = (level, count, ts) →
  0 ≤ int_of_Q (w_now w) < 2 ^ 32 →
  fs_read (w_fs w) None "key" = Some key →
  length key = 32%nat →
  (level < 13 →
   ¬ ((inject_Z rl_decay < w_now w - inject_Z ts)%Q ∧ 0 < level) →
   count + 1 < 2 ^ 32 →
   ∃ level' count' d,
     (level', count') =
       (if bool_decide (rl_threshold ≤ count ∧ level < 12)
        then (level + 1, 0) else (level, count + 1)) ∧
     level' ≤ 12 ∧
     difficulty_at level' = Some d ∧
     create_challenge w =
       (Ret tt,
        set_out (w_out w ++ [challenge_of d (w_now w) ++
                             crypto_generichash key (req ++ challenge_of d (w_now w))])
          (set_fs (fs_write (w_fs w) (req_id req) "difficulty"
                     (rl_ctx_of level' count' (int_of_Q (w_now w))))
             (set_in rest w)))) ∧
  (13 ≤ level →
   ∃ d,
     difficulty_at 12 = Some d ∧
     create_challenge w =
       (Ret tt,
        set_out (w_out w ++ [challenge_of d (w_now w) ++
                             crypto_generichash key (req ++ challenge_of d (w_now w))])
          (set_fs (fs_write (w_fs w) (req_id req) "difficulty"
                     (rl_ctx_of 12 0 (int_of_Q (w_now w))))
             (set_in rest w)))).
Proof.
  intros Hin Hreq Hdiff Hlen Hdir Hof Hnow Hkey Hklen.
  destruct (difficulty_of_range _ _ _ _ Hof) as (Hl0 & Hc0 & _).
  split.
  - intros H13 Hno Hcount.
    pose proof (next_difficulty_escalate (w_now w) level count ts H13 Hno) as Hnext.
    destruct (bool_decide (rl_threshold ≤ count ∧ level < 12)) eqn:E.
    + apply bool_decide_eq_true in E as [_ E].
      destruct (difficulty_at_is_Some (level + 1)) as [d Hd]; [lia|].
      exists (level + 1), 0, d. split_and!; [done|lia|done|].
      eapply create_challenge_run; try done; lia.
    + destruct (difficulty_at_is_Some level) as [d Hd]; [lia|].
      exists level, (count + 1), d. split_and!; [done|lia|done|].
      eapply create_challenge_run; try done; lia.
  - intros H13.
    destruct (difficulty_at_is_Some 12) as [d Hd]; [lia|].
    exists d. split; [done|].
    eapply create_challenge_run; try done; try lia.
    by apply next_difficulty_clamp.
Qed.

End RateLimit.

(** Three rungs up, three decay periods of silence: back to level 0. *)
Lemma challenge_decay_witness :
  fs_read (w_fs (create_challenge (C := demo_consts) (cfg := demo_config)
                   (P := demo_primitives) (demo_rl_world 3 0 1000 6400)).2)
    (Some demo_id) "difficulty" = Some (rl_ctx_of 0 0 6400).
Proof.
  destruct (challenge_decay (C := demo_consts) (cfg := demo_config) (P := demo_primitives)
              (demo_rl_world 3 0 1000 6400) demo_get_req [] (rl_ctx_of 3 0 1000)
              demo_mac_key 3 0 1000)
    as (level' & d & Hl & Hd & Hrun & Hzero).
  - reflexivity.
  - vm_compute. reflexivity.
  - vm_compute. reflexivity.
  - vm_compute. reflexivity.
  - vm_compute. reflexivity.
  - vm_compute. reflexivity.
  - vm_compute. reflexivity.
  - lia.
  - vm_compute. reflexivity.
  - split; vm_compute; [discriminate | reflexivity].
  - vm_compute. reflexivity.
  - vm_compute. reflexivity.
  - rewrite Hrun. cbn [snd w_fs set_out set_fs].
    rewrite fs_read_write, decide_True by (vm_compute; reflexivity).
    rewrite Hzero by (vm_compute; discriminate).
    vm_compute. reflexivity.
Defined.

(** C6, as stated, fails at two inputs.  At level 1, exactly rl_decay
    seconds after ts (so "at least rl_decay * level seconds"), the strict
    comparison of the code does not take the decay branch: the level
    persisted is 1, with count 1.  And a stored level above the ladder
    (200) is clamped to 12, however long the silence. *)
Lemma challenge_decay_counterexample :
  ((inject_Z (rl_decay (Config := demo_config) * 1) <= 2800 - inject_Z 1000)%Q ∧
   fs_read (w_fs (create_challenge (C := demo_consts) (cfg := demo_config)
                    (P := demo_primitives) (demo_rl_world 1 0 1000 2800)).2)
     (Some demo_id) "difficulty" = Some (rl_ctx_of 1 1 2800)) ∧
  ((inject_Z (rl_decay (Config := demo_config) * 200) <= 400000 - inject_Z 1000)%Q ∧
   fs_read (w_fs (create_challenge (C := demo_consts) (cfg := demo_config)
                    (P := demo_primitives) (demo_rl_world 200 0 1000 400000)).2)
     (Some demo_id) "difficulty" = Some (rl_ctx_of 12 0 400000)).
Proof.
  split_and!.
  - vm_compute. discriminate.
  - vm_compute. reflexivity.
  - vm_compute. discriminate.
  - vm_compute. reflexivity.
Qed.

Lemma challenge_escalation_witness :
  fs_read (w_fs (create_challenge (C := demo_consts) (cfg := demo_config)
                   (P := demo_primitives) (demo_rl_world 2 1 1000 1010)).2)
    (Some demo_id) "difficulty" = Some (rl_ctx_of 3 0 1010) ∧
  fs_read (w_fs (create_challenge (C := demo_consts) (cfg := demo_config)
                   (P := demo_primitives) (demo_rl_world 13 5 1000 1010)).2)
    (Some demo_id) "difficulty" = Some (rl_ctx_of 12 0 1010).
Proof.
  split.
  - destruct (challenge_escalation (C := demo_consts) (cfg := demo_config)
                (P := demo_primitives)
                (demo_rl_world 2 1 1000 1010) demo_get_req [] (rl_ctx_of 2 1 1000)
                demo_mac_key 2 1 1000) as [Hesc _].
    + vm_compute. reflexivity.
    + vm_compute. reflexivity.
    + vm_compute. reflexivity.
    + vm_compute. reflexivity.
    + vm_compute. reflexivity.
    + vm_compute. reflexivity.
    + split; vm_compute; [discriminate | reflexivity].
    + vm_compute. reflexivity.
    + vm_compute. reflexivity.
    + destruct Hesc as (level' & count' & d & Hlc & _ & _ & Hrun).
      * lia.
      * intros [Hq _]. vm_compute in Hq. discriminate Hq.
      * vm_compute. reflexivity.
      * rewrite Hrun. cbn [snd w_fs set_out set_fs].
        rewrite fs_read_write, decide_True by (vm_compute; reflexivity).
        vm_compute in Hlc. injection Hlc as -> ->.
        vm_compute. reflexivity.
  - destruct (challenge_escalation (C := demo_consts) (cfg := demo_config)
                (P := demo_primitives)
                (demo_rl_world 13 5 1000 1010) demo_get_req [] (rl_ctx_of 13 5 1000)
                demo_mac_key 13 5 1000) as [_ Hclamp].
    + vm_compute. reflexivity.
    + vm_compute. reflexivity.
    + vm_compute. reflexivity.
    + vm_compute. reflexivity.
    + vm_compute. reflexivity.
    + vm_compute. reflexivity.
    + split; vm_compute; [discriminate | reflexivity].
    + vm_compute. reflexivity.
    + vm_compute. reflexivity.
    + destruct Hclamp as (d & _ & Hrun); [lia|].
      rewrite Hrun. cbn [snd w_fs set_out set_fs].
      rewrite fs_read_write, decide_True by (vm_compute; reflexivity).
      vm_compute. reflexivity.
Defined.

(** C7, as stated, fails for a stored level above the ladder: with level
    13 and count 5 stored and no decay due (now = ts), the claim has count
    go to 6; the code persists level 12 with count 0. *)
Lemma challenge_escalation_counterexample :
  fs_read (demo_fs_rl 13 5 1000) (Some demo_id) "difficulty" = Some (rl_ctx_of 13 5 1000) ∧
  difficulty_of (rl_ctx_of 13 5 1000) = (13, 5, 1000) ∧
  ¬ (inject_Z (rl_decay (Config := demo_config)) < 1000 - inject_Z 1000)%Q ∧
  fs_read (w_fs (create_challenge (C := demo_consts) (cfg := demo_config)
                   (P := demo_primitives) (demo_rl_world 13 5 1000 1000)).2)
    (Some demo_id) "difficulty" = Some (rl_ctx_of 12 0 1000) ∧
  rl_ctx_of 12 0 1000 ≠ rl_ctx_of 13 6 1000.
Proof.
  split_and!.
  - vm_compute. reflexivity.
  - vm_compute. reflexivity.
  - intros H. vm_compute in H. discriminate H.
  - vm_compute. reflexivity.
  - vm_compute. discriminate.
Qed.

(** * Verifying a challenge *)

Section Verify.
Context {C : Consts} {cfg : Config} {P : Primitives}.

(** CHALLENGE_VERIFY on a connection that delivers the 42-byte challenge
    [n|k|ts[8]|sig[32]], the request and a solution of the full size, with
    the MAC key in place: the MAC check, the look-up of (n, k), the age
    check, the Equihash check, then the operation. *)
Lemma verify_challenge_steps w nb kb ts8 sig op payload solution rest key :
  length ts8 = 8%nat →
  length sig = 32%nat →
  length op = 1%nat →
  length payload = (if bool_decide (op = READ) then 32 else 64)%nat →
  length solution = equihash_solsize (byte_to_Z nb) (byte_to_Z kb) →
  w_in w = (nb :: kb :: ts8 ++ sig) :: op :: payload :: solution :: rest →
  fs_read (w_fs w) None "key" = Some key →
  length key = 32%nat →
  verify_challenge w =
    if bool_decide
         (xor_sum (crypto_generichash key ((op ++ payload) ++ nb :: kb :: ts8)) sig ≠ 0)
    then (Exit, failed (set_in (solution :: rest) w))
    else match RL_Timeouts !! (byte_to_Z nb, byte_to_Z kb) with
         | None => (Raise KeyError, set_in (solution :: rest) w)
         | Some timeout =>
             if Qgtb (w_now w - inject_Z (timeout + rl_gracetime))
                  (inject_Z (le_value ts8))
             then (Exit, failed (set_in (solution :: rest) w))
             else if equihash_verify (byte_to_Z nb) (byte_to_Z kb)
                       ((nb :: kb :: ts8 ++ sig) ++ op ++ payload) solution
                  then handler (op ++ payload) (set_in rest w)
                  else (Exit, failed (set_in rest w))
         end.
Proof.
  intros Hts Hsig Hop Hpay Hsol Hin Hkey Hklen.
  unfold verify_challenge.
  rewrite (bind_recv_chunk _ _ _ _ _ Hin) by (cbn [length]; rewrite length_app; lia).
  rewrite bool_decide_eq_false_2 by (cbn [length]; rewrite length_app; lia).
  rewrite bind_when_false.
  unfold pop. cbn [take drop head]. rewrite bind_lib_Some. cbn beta.
  rewrite bind_lib_Some. cbn beta.
  rewrite !drop_0.
  rewrite (take_app_length' ts8 sig 8) by lia.
  rewrite struct_unpack_ok by done. rewrite bind_lib_Some. cbn beta.
  rewrite (bind_recv_chunk 1 op (payload :: solution :: rest)) by (try done; lia).
  rewrite (take_ge op) by lia.
  assert (Hpayload : ∀ B (f : bytes → M B) w0,
    w_in w0 = payload :: solution :: rest →
    ((if bool_decide (op = READ)
      then recv 32 ≫= λ payload0, when (bool_decide (length payload0 ≠ 32%nat)) fail
                                   ≫= λ _, mret payload0
      else recv 64 ≫= λ payload0, when (bool_decide (length payload0 ≠ 64%nat)) fail
                                   ≫= λ _, mret payload0) ≫= f) w0 =
    f payload (set_in (solution :: rest) w0)).
  { intros B f w0 Hin0. case_bool_decide.
    - rewrite bind_assoc, (bind_recv_chunk _ _ _ _ _ Hin0) by lia.
      rewrite bool_decide_eq_false_2 by lia. reflexivity.
    - rewrite bind_assoc, (bind_recv_chunk _ _ _ _ _ Hin0) by lia.
      rewrite bool_decide_eq_false_2 by lia. reflexivity. }
  rewrite Hpayload by reflexivity. clear Hpayload.
  rewrite (bind_load_blob _ _ _ key) by done.
  destruct key as [|k0 key']; [discriminate Hklen|].
  rewrite (drop_app_length' ts8 sig 8) by lia.
  rewrite (take_ge sig) by lia.
  destruct (bool_decide (xor_sum _ _ ≠ 0)).
  { rewrite bind_when_true, bind_fail. reflexivity. }
  rewrite bind_when_false, bind_timestamp.
  destruct (RL_Timeouts !! _) as [timeout|]; [|reflexivity].
  rewrite bind_lib_Some.
  cbn [w_now set_in].
  destruct (Qgtb _ _).
  { rewrite bind_when_true, bind_fail. reflexivity. }
  rewrite bind_when_false.
  rewrite (bind_recv_chunk _ solution rest) by (try done; lia).
  rewrite bool_decide_eq_false_2 by lia. rewrite bind_when_false.
  destruct (equihash_verify _ _ _ _); cbn [negb].
  - rewrite bind_when_false. reflexivity.
  - rewrite bind_when_true, bind_fail. reflexivity.
Qed.

Lemma verify_challenge_run w nb kb ts8 sig op payload solution rest key timeout :
  length ts8 = 8%nat →
  length sig = 32%nat →
  length op = 1%nat →
  length payload = (if bool_decide (op = READ) then 32 else 64)%nat →
  length solution = equihash_solsize (byte_to_Z nb) (byte_to_Z kb) →
  w_in w = (nb :: kb :: ts8 ++ sig) :: op :: payload :: solution :: rest →
  fs_read (w_fs w) None "key" = Some key →
  length key = 32%nat →
  xor_sum (crypto_generichash key ((op ++ payload) ++ nb :: kb :: ts8)) sig = 0 →
  RL_Timeouts !! (byte_to_Z nb, byte_to_Z kb) = Some timeout →
  verify_challenge w =
    if Qgtb (w_now w - inject_Z (timeout + rl_gracetime)) (inject_Z (le_value ts8))
    then (Exit, failed (set_in (solution :: rest) w))
    else if equihash_verify (byte_to_Z nb) (byte_to_Z kb)
              ((nb :: kb :: ts8 ++ sig) ++ op ++ payload) solution
         then handler (op ++ payload) (set_in rest w)
         else (Exit, failed (set_in rest w)).
Proof.
  intros Hts Hsig Hop Hpay Hsol Hin Hkey Hklen Hmac Htime.
  rewrite (verify_challenge_steps w nb kb ts8 sig op payload solution rest key) by done.
  rewrite bool_decide_eq_false_2 by (intros H; apply H; exact Hmac).
  by rewrite Htime.
Qed.



End Verify.

Ltac demo_verify_hyps :=
  first [ vm_compute; reflexivity | split; vm_compute; [discriminate | reflexivity] ].




(** * CREATE followed by GET *)

Lemma bind_Ret_inv {A B} (m : M A) (f : A → M B) w b w' :
  (m ≫= f) w = (Ret b, w') → ∃ a w1, m w = (Ret a, w1) ∧ f a w1 = (Ret b, w').
Proof.
  rewrite bind_run. destruct (m w) as [[a| |e|] w1]; try discriminate. eauto.
Qed.

Lemma when_fail_Ret b w a w' : when b fail w = (Ret a, w') → b = false ∧ w' = w.
Proof. destruct b; [discriminate|]. by intros [= _ <-]. Qed.

Lemma save_blob_Ret p f b w a w' :
  save_blob p f b w = (Ret a, w') →
  dir_exists (w_fs w) p = true ∧ w' = set_fs (fs_write (w_fs w) p f b) w.
Proof. unfold save_blob. destruct (dir_exists _ _); [|discriminate]. by intros [= _ <-]. Qed.

Section RoundTrip.
Context {C : Consts} {cfg : Config} {P : Primitives}.

(** What a CREATE that returns has left for the account: the 32 bytes
    drawn by [randombytes] as [key]. *)
Lemma create_Ret_key msg w w' :
  create msg w = (Ret tt, w') →
  ∃ k, fs_read (w_fs w') (req_id msg) "key" = Some k ∧ length k = 32%nat.
Proof.
  intros H. unfold create, pop in H. fold (req_id msg) in H.
  apply bind_Ret_inv in H as (? & w1 & H1 & H). apply when_fail_Ret in H1 as [_ ->].
  rewrite bind_path_exists in H.
  apply bind_Ret_inv in H as (? & w1 & H1 & H). apply when_fail_Ret in H1 as [_ ->].
  rewrite bind_randombytes in H.
  set (k := (λ i, w_entropy w (w_rpos w + i)%nat) <$> seq 0 32) in H.
  apply bind_Ret_inv in H as (beta & w1 & _ & H).
  rewrite bind_send in H.
  apply bind_Ret_inv in H as (msg2 & w2 & _ & H).
  apply bind_Ret_inv in H as (? & w3 & H3 & H). apply when_fail_Ret in H3 as [_ ->].
  apply bind_Ret_inv in H as (signed & w3 & _ & H).
  apply bind_Ret_inv in H as (? & w4 & _ & H).
  rewrite bind_path_exists in H.
  apply bind_Ret_inv in H as (? & w5 & _ & H).
  apply bind_Ret_inv in H as (? & w6 & _ & H).
  apply bind_Ret_inv in H as (? & w7 & H7 & H). apply save_blob_Ret in H7 as [_ ->].
  apply bind_Ret_inv in H as (? & w8 & H8 & H). apply save_blob_Ret in H8 as [_ ->].
  apply bind_Ret_inv in H as (? & w9 & H9 & H). apply save_blob_Ret in H9 as [_ ->].
  unfold send in H. injection H as <-.
  exists k. split.
  - cbn [w_fs set_fs set_out]. rewrite !fs_read_write.
    repeat (case_decide; simplify_eq; try done).
  - unfold k. by rewrite length_fmap, length_seq.
Qed.

(** C1, on the code: after a CREATE that returned, GET for the same account
    never replies.  The key CREATE stored has 32 bytes, [get] asks
    [load_blob] for 33, and the [ValueError] of the size check ends the
    worker with nothing sent and the store as it was. *)
Theorem create_then_get_raises msg w w' msg' w2 :
  create msg w = (Ret tt, w') →
  w_fs w2 = w_fs w' →
  req_id msg' = req_id msg →
  drop 32 (drop 32 (drop 1 msg')) = [] →
  get msg' w2 = (Raise ValueError, w2).
Proof.
  intros Hc Hfs Hid Htr.
  destruct (create_Ret_key _ _ _ Hc) as (k & Hk & Hlen).
  unfold get, pop. fold (req_id msg'). rewrite Htr, Hid.
  rewrite bool_decide_eq_false_2 by auto. rewrite bind_when_false.
  rewrite bind_run. unfold load_blob. rewrite Hfs, Hk.
  rewrite decide_True by lia. reflexivity.
Qed.

End RoundTrip.

Lemma create_then_get_raises_witness :
  demo_created.1 = Ret tt ∧
  get (C := demo_consts) (P := demo_primitives) demo_get_req
    (set_fs (w_fs demo_created.2) demo_get_conn) =
  (Raise ValueError, set_fs (w_fs demo_created.2) demo_get_conn).
Proof.
  assert (H : demo_created = (Ret tt, demo_created.2))
    by (apply run_eq; vm_compute; reflexivity).
  split; [by rewrite H|].
  apply (create_then_get_raises (C := demo_consts) (P := demo_primitives)
           demo_create_msg demo_create_world demo_created.2 demo_get_req).
  - exact H.
  - apply w_fs_set_fs.
  - vm_compute. reflexivity.
  - vm_compute. reflexivity.
Defined.

(** * The fail marker *)

Lemma sent_fail_failed {A} w : sent_fail (@Exit A, failed w).
Proof.
  unfold sent_fail, failed. cbn. split_and!; [done| |done].
  by rewrite last_snoc.
Qed.

Lemma exits_never {A} (m : M A) : (∀ w, (m w).1 ≠ Exit) → exits_by_fail m.
Proof. intros H w E. by destruct (H w). Qed.

Lemma exits_fail {A} : exits_by_fail (@fail A).
Proof. intros w _. apply sent_fail_failed. Qed.

Lemma exits_bind {A B} (m : M A) (f : A → M B) :
  exits_by_fail m → (∀ a, exits_by_fail (f a)) → exits_by_fail (m ≫= f).
Proof.
  intros Hm Hf w. rewrite bind_run. specialize (Hm w).
  destruct (m w) as [[a| |e|] w1]; cbn in *; [apply Hf| |done|done].
  intros _. destruct (Hm eq_refl) as (_ & ? & ?). by split_and!.
Qed.

Lemma exits_try {A} (m h : M A) c :
  exits_by_fail m → exits_by_fail h → exits_by_fail (try_except m c h).
Proof.
  intros Hm Hh w. unfold try_except. specialize (Hm w).
  destruct (m w) as [[a| |e|] w1]; cbn in *; [done|done| |done].
  destruct (c e); [apply Hh|done].
Qed.

Lemma exits_when b (m : M unit) : exits_by_fail m → exits_by_fail (when b m).
Proof. destruct b; [done|]. intros _. by apply exits_never. Qed.

Lemma exits_ret {A} (a : A) : exits_by_fail (mret a).
Proof. by apply exits_never. Qed.

Lemma exits_raise {A} e : exits_by_fail (@raise A e).
Proof. by apply exits_never. Qed.

Lemma exits_lib {A} e (o : option A) : exits_by_fail (lib e o).
Proof. apply exits_never. by destruct o. Qed.

Lemma exits_send b : exits_by_fail (send b).
Proof. by apply exits_never. Qed.

Lemma exits_recv n : exits_by_fail (recv n).
Proof. apply exits_never. intros w. unfold recv. by destruct (w_in w). Qed.

Lemma exits_randombytes n : exits_by_fail (randombytes n).
Proof. by apply exits_never. Qed.

Lemma exits_timestamp : exits_by_fail timestamp.
Proof. by apply exits_never. Qed.

Lemma exits_path_exists p : exits_by_fail (path_exists p).
Proof. by apply exits_never. Qed.

Lemma exits_os_mkdir p : exits_by_fail (os_mkdir p).
Proof.
  apply exits_never. intros w. unfold os_mkdir.
  destruct (dir_exists _ p); [done|]. destruct p; [|done]. by destruct (dir_exists _ _).
Qed.

Lemma exits_os_unlink p f : exits_by_fail (os_unlink p f).
Proof. apply exits_never. intros w. unfold os_unlink. by destruct (fs_read _ _ _). Qed.

Lemma exits_rmtree p : exits_by_fail (rmtree p).
Proof. apply exits_never. intros w. unfold rmtree. by destruct (dir_exists _ _). Qed.

Lemma exits_save_blob p f b : exits_by_fail (save_blob p f b).
Proof. apply exits_never. intros w. unfold save_blob. by destruct (dir_exists _ _). Qed.

Lemma exits_load_blob p f sz : exits_by_fail (load_blob p f sz).
Proof.
  apply exits_never. intros w.
  destruct (load_blob_cases p f sz w) as [-> | ->]; done.
Qed.

Lemma exits_read_pkt_loop fuel size res : exits_by_fail (read_pkt_loop fuel size res).
Proof.
  revert res. induction fuel as [|fuel IH]; intros res; cbn [read_pkt_loop].
  - case_decide; [by apply exits_never | apply exits_ret].
  - case_decide; [|apply exits_ret].
    intros w. destruct (w_in w) eqn:E; [done|].
    apply (exits_bind (recv _) _ (exits_recv _) (λ c, IH (res ++ c))).
Qed.

Lemma exits_read_pkt size : exits_by_fail (read_pkt size).
Proof. intros w. apply exits_read_pkt_loop. Qed.

Create HintDb exits discriminated.
#[global] Hint Resolve exits_fail exits_ret exits_raise exits_lib exits_send exits_recv
  exits_randombytes exits_timestamp exits_path_exists exits_os_mkdir exits_os_unlink
  exits_rmtree exits_save_blob exits_load_blob exits_read_pkt : exits.

Ltac exits_step :=
  match goal with
  | |- exits_by_fail (_ ≫= _) => apply exits_bind; [|intros ?]
  | |- exits_by_fail (try_except _ _ _) => apply exits_try
  | |- exits_by_fail (when _ _) => apply exits_when
  | |- exits_by_fail (match ?x with _ => _ end) => destruct x
  | |- exits_by_fail _ => solve [auto with exits]
  end.

Ltac exits := repeat (cbn beta iota zeta; exits_step).

Section Marker.
Context {C : Consts} {cfg : Config} {P : Primitives}.

Lemma exits_verify_blob msg pk : exits_by_fail (verify_blob msg pk).
Proof. unfold verify_blob. exits. Qed.

Lemma exits_pop_int msg : exits_by_fail (pop_int msg).
Proof. unfold pop_int, pop. exits. Qed.

Lemma exits_load_authkeys_lines lines : exits_by_fail (load_authkeys_lines lines).
Proof.
  induction lines as [|line lines IH]; cbn [load_authkeys_lines]; [exits|].
  apply exits_bind; [exits|]. intros [b64key name].
  apply exits_bind; [exits|]. intros key.
  apply exits_bind; [exact IH|]. intros res. exits.
Qed.

Lemma exits_load_authkeys : exits_by_fail load_authkeys.
Proof. unfold load_authkeys. apply exits_bind; [exits|]. apply exits_load_authkeys_lines. Qed.

Lemma exits_setup_noise_sessions n privkey auth_keys :
  exits_by_fail (setup_noise_sessions n privkey auth_keys).
Proof. unfold setup_noise_sessions. exits. Qed.

Lemma exits_dkg n t index aux : exits_by_fail (dkg n t index aux).
Proof.
  pose proof exits_load_authkeys. pose proof exits_setup_noise_sessions.
  unfold dkg. exits.
Qed.

Lemma exits_update_blob : exits_by_fail update_blob.
Proof. pose proof exits_verify_blob. unfold update_blob. exits. Qed.

Lemma exits_auth id alpha : exits_by_fail (auth id alpha).
Proof. unfold auth. exits. Qed.

Lemma exits_create msg : exits_by_fail (create msg).
Proof.
  pose proof exits_verify_blob. pose proof exits_update_blob.
  unfold create, pop. exits.
Qed.

Lemma exits_create_dkg msg : exits_by_fail (create_dkg msg).
Proof.
  pose proof exits_verify_blob. pose proof exits_update_blob.
  pose proof exits_pop_int. pose proof exits_dkg.
  unfold create_dkg, pop. exits.
Qed.

Lemma exits_get msg : exits_by_fail (get msg).
Proof. unfold get, pop. exits. Qed.

Lemma exits_change msg : exits_by_fail (change msg).
Proof.
  pose proof exits_verify_blob. pose proof exits_auth.
  unfold change, pop. exits.
Qed.

Lemma exits_change_dkg msg : exits_by_fail (change_dkg msg).
Proof.
  pose proof exits_verify_blob. pose proof exits_auth.
  pose proof exits_pop_int. pose proof exits_dkg.
  unfold change_dkg, pop. exits.
Qed.

Lemma exits_delete msg : exits_by_fail (delete msg).
Proof.
  pose proof exits_update_blob. pose proof exits_auth.
  unfold delete, pop. exits.
Qed.

Lemma exits_commit_undo new old msg : exits_by_fail (commit_undo new old msg).
Proof. pose proof exits_auth. unfold commit_undo, pop. exits. Qed.

Lemma exits_read msg : exits_by_fail (read msg).
Proof. pose proof exits_auth. unfold read, pop. exits. Qed.

Lemma exits_create_challenge : exits_by_fail create_challenge.
Proof. unfold create_challenge. exits. Qed.

End Marker.

Section ErrorKinds.
Context {C : Consts} {cfg : Config} {P : Primitives}.

(** GET, case by case. *)
Lemma get_trailing msg w :
  drop 32 (drop 32 (drop 1 msg)) ≠ [] → get msg w = (Exit, failed w).
Proof.
  intros H. unfold get, pop. rewrite bool_decide_eq_true_2 by done.
  by rewrite bind_when_true, bind_fail.
Qed.

Lemma get_unknown msg w :
  drop 32 (drop 32 (drop 1 msg)) = [] →
  fs_read (w_fs w) (req_id msg) "key" = None →
  get msg w = (Exit, failed w).
Proof.
  intros Htr Hk. unfold get, pop. fold (req_id msg).
  rewrite Htr, bool_decide_eq_false_2 by auto. rewrite bind_when_false.
  rewrite bind_run. unfold load_blob. rewrite Hk. reflexivity.
Qed.

Lemma get_corrupt msg w k :
  drop 32 (drop 32 (drop 1 msg)) = [] →
  fs_read (w_fs w) (req_id msg) "key" = Some k →
  length k ≠ 33%nat →
  get msg w = (Raise ValueError, w).
Proof.
  intros Htr Hk Hlen. unfold get, pop. fold (req_id msg).
  rewrite Htr, bool_decide_eq_false_2 by auto. rewrite bind_when_false.
  rewrite bind_run. unfold load_blob. rewrite Hk.
  by rewrite decide_True.
Qed.

Lemma get_steps msg w k rules :
  drop 32 (drop 32 (drop 1 msg)) = [] →
  fs_read (w_fs w) (req_id msg) "key" = Some k →
  length k = 33%nat →
  fs_read (w_fs w) (req_id msg) "rules" = Some rules →
  well_sized (Some RULE_SIZE) rules →
  get msg w =
    match oprf_evaluate (drop 1 k) (req_alpha msg) with
    | Some beta => (Ret tt, set_out (w_out w ++ [take 1 k ++ beta ++ rules]) w)
    | None => (Exit, failed w)
    end.
Proof.
  intros Htr Hk Hlen Hr Hrs. unfold get, pop. fold (req_id msg) (req_alpha msg).
  rewrite Htr, bool_decide_eq_false_2 by auto. rewrite bind_when_false.
  rewrite (bind_load_blob _ _ _ k) by done.
  rewrite (bind_load_blob _ _ _ rules) by done.
  rewrite bind_run. unfold try_except.
  destruct (oprf_evaluate _ _); reflexivity.
Qed.

End ErrorKinds.

(** * The invariant of the record store *)

Lemma dir_exists_mkdir fs p q :
  dir_exists (fs_mkdir fs p) q = bool_decide (q = p) || dir_exists fs q.
Proof.
  unfold dir_exists, fs_mkdir. cbn [dirs].
  apply eq_true_iff_eq. rewrite orb_true_iff, !bool_decide_eq_true.
  rewrite elem_of_union, elem_of_singleton. done.
Qed.

Lemma fs_read_mkdir fs p q f : fs_read (fs_mkdir fs p) q f = fs_read fs q f.
Proof. reflexivity. Qed.

Lemma dir_exists_rmtree fs p q :
  dir_exists (fs_rmtree fs p) q = negb (bool_decide (q = p)) && dir_exists fs q.
Proof.
  unfold dir_exists, fs_rmtree. cbn [dirs].
  apply eq_true_iff_eq.
  rewrite andb_true_iff, negb_true_iff, bool_decide_eq_false, !bool_decide_eq_true.
  rewrite elem_of_difference, elem_of_singleton. tauto.
Qed.

Lemma fs_read_rmtree fs p q f :
  fs_read (fs_rmtree fs p) q f = if decide (q = p) then None else fs_read fs q f.
Proof.
  unfold fs_read, fs_rmtree. cbn [files].
  destruct (files fs !! (q, f)) as [b|] eqn:E.
  - case_decide as Hq.
    + apply map_lookup_filter_None. right. intros b' Hb'. cbn. by intros [].
    + apply map_lookup_filter_Some. split; [done|]. cbn. done.
  - case_decide; apply map_lookup_filter_None; left; done.
Qed.

Lemma store_inv_empty {C : Consts} : store_inv fs_empty.
Proof.
  unfold store_inv, fs_empty, fs_read, dir_exists. cbn.
  split_and!; intros *; rewrite ?lookup_empty; try (intros [? [=]]); try done.
Qed.

Ltac inv_simpl :=
  repeat first
    [ rewrite fs_read_write in * | rewrite fs_read_unlink in *
    | rewrite fs_read_mkdir in * | rewrite fs_read_rmtree in *
    | rewrite dir_exists_write in * | rewrite dir_exists_unlink in *
    | rewrite dir_exists_mkdir in * | rewrite dir_exists_rmtree in * ].

Section StoreInv.
Context {C : Consts}.

(** A write that is not one of an account's [key], [pub], [rules]. *)
Lemma store_inv_write fs p f b :
  store_inv fs → dir_exists fs p = true →
  (p = None ∨ (f ≠ "key" ∧ f ≠ "pub" ∧ f ≠ "rules")) →
  store_inv (fs_write fs p f b).
Proof.
  intros (I1 & I2 & I3 & I4) Hdir Hf. split_and!.
  - intros q g. rewrite fs_read_write, dir_exists_write.
    case_decide; simplify_eq; [done|apply I1].
  - intros id. rewrite !dir_exists_write. apply I2.
  - intros id. rewrite dir_exists_write. intros Hd.
    apply fs_read_write_is_Some, I3, Hd.
  - intros id. rewrite !fs_read_write.
    repeat case_decide; simplify_eq; try (by destruct Hf as [?|(?&?&?)]); apply I4.
Qed.

Lemma store_inv_mkdir_root fs : store_inv fs → store_inv (fs_mkdir fs None).
Proof.
  intros (I1 & I2 & I3 & I4). split_and!.
  - intros q g. rewrite fs_read_mkdir, dir_exists_mkdir. intros Hx%I1. rewrite Hx.
    apply orb_true_r.
  - intros id. rewrite !dir_exists_mkdir. intros _. by rewrite bool_decide_eq_true_2.
  - intros id. rewrite dir_exists_mkdir, fs_read_mkdir.
    rewrite bool_decide_eq_false_2 by done. apply I3.
  - intros id. rewrite !fs_read_mkdir. apply I4.
Qed.

(** A new directory that gets its [pub] at once: a host record. *)
Lemma store_inv_new_dir fs id pk :
  store_inv fs → dir_exists fs (Some id) = false → dir_exists fs None = true →
  store_inv (fs_write (fs_mkdir fs (Some id)) (Some id) "pub" pk).
Proof.
  intros (I1 & I2 & I3 & I4) Hno Hroot.
  assert (Hfiles : ∀ f, fs_read fs (Some id) f = None).
  { intros f. destruct (fs_read fs (Some id) f) eqn:E; [|done].
    assert (dir_exists fs (Some id) = true) by (apply (I1 _ f); by rewrite E). congruence. }
  split_and!.
  - intros q g. rewrite fs_read_write, fs_read_mkdir, dir_exists_write, dir_exists_mkdir.
    case_decide; simplify_eq; [by rewrite bool_decide_eq_true_2|].
    intros Hx%I1. rewrite Hx. apply orb_true_r.
  - intros id'. rewrite !dir_exists_write, !dir_exists_mkdir. intros _.
    rewrite Hroot. apply orb_true_r.
  - intros id'. rewrite dir_exists_write, dir_exists_mkdir, fs_read_write, fs_read_mkdir.
    case_decide; simplify_eq; [eauto|].
    rewrite bool_decide_eq_false_2 by congruence. apply I3.
  - intros id'. rewrite !fs_read_write, !fs_read_mkdir.
    repeat case_decide; simplify_eq.
    + rewrite Hfiles. by intros [? [=]].
    + apply I4.
Qed.

(** A new account: its directory with [key], [pub] and [rules]. *)
Lemma store_inv_new_account fs id k pk rules :
  store_inv fs → dir_exists fs (Some id) = false → dir_exists fs None = true →
  length pk = 32%nat → well_sized (Some RULE_SIZE) rules →
  store_inv
    (fs_write (fs_write (fs_write (fs_mkdir fs (Some id)) (Some id) "key" k)
                 (Some id) "pub" pk) (Some id) "rules" rules).
Proof.
  intros (I1 & I2 & I3 & I4) Hno Hroot Hpk Hr.
  split_and!.
  - intros q g. rewrite !fs_read_write, fs_read_mkdir, !dir_exists_write, dir_exists_mkdir.
    repeat case_decide; simplify_eq; try (by rewrite bool_decide_eq_true_2).
    intros Hx%I1. rewrite Hx. apply orb_true_r.
  - intros id'. rewrite !dir_exists_write, !dir_exists_mkdir. intros _.
    rewrite Hroot. apply orb_true_r.
  - intros id'. rewrite !dir_exists_write, dir_exists_mkdir, !fs_read_write, fs_read_mkdir.
    repeat case_decide; simplify_eq; eauto.
    rewrite bool_decide_eq_false_2 by congruence. apply I3.
  - intros id'. rewrite !fs_read_write, !fs_read_mkdir.
    repeat case_decide; simplify_eq; try (by intros _; split; eauto). apply I4.
Qed.

(** The rotation of COMMIT and of UNDO. *)
Lemma dir_exists_rotated fs id new old nk nr np ck cr cp q :
  dir_exists (rotated fs id new old nk nr np ck cr cp) q = dir_exists fs q.
Proof. reflexivity. Qed.

Lemma fs_read_rotated_other fs id new old nk nr np ck cr cp q f :
  q ≠ id → fs_read (rotated fs id new old nk nr np ck cr cp) q f = fs_read fs q f.
Proof.
  intros Hq. unfold rotated. rewrite !fs_read_unlink, !fs_read_write.
  repeat (rewrite decide_False by congruence). done.
Qed.

Lemma fs_read_rotated_live fs id new old nk nr np ck cr cp :
  (new = "new" ∧ old = "old") ∨ (new = "old" ∧ old = "new") →
  fs_read (rotated fs id new old nk nr np ck cr cp) id "key" = Some nk ∧
  fs_read (rotated fs id new old nk nr np ck cr cp) id "rules" = Some nr ∧
  fs_read (rotated fs id new old nk nr np ck cr cp) id "pub" = Some np.
Proof.
  intros [[-> ->] | [-> ->]]; unfold rotated.
  all: change ("rules." +:+ "new") with "rules.new";
       change ("pub." +:+ "new") with "pub.new";
       change ("rules." +:+ "old") with "rules.old";
       change ("pub." +:+ "old") with "pub.old".
  all: split_and!; rewrite !fs_read_unlink, !fs_read_write;
       repeat (case_decide; simplify_eq; try done).
Qed.

Lemma store_inv_rotated fs id new old nk nr np ck cr cp :
  (new = "new" ∧ old = "old") ∨ (new = "old" ∧ old = "new") →
  store_inv fs → dir_exists fs (Some id) = true →
  length np = 32%nat → well_sized (Some RULE_SIZE) nr →
  store_inv (rotated fs (Some id) new old nk nr np ck cr cp).
Proof.
  intros Hnames (I1 & I2 & I3 & I4) Hdir Hnp Hnr.
  destruct (fs_read_rotated_live fs (Some id) new old nk nr np ck cr cp Hnames)
    as (Hk & Hr & Hp).
  split_and!.
  - intros q g. rewrite dir_exists_rotated.
    destruct (decide (q = Some id)) as [->|Hq]; [done|].
    rewrite fs_read_rotated_other by done. apply I1.
  - intros id'. rewrite !dir_exists_rotated. apply I2.
  - intros id'. rewrite dir_exists_rotated.
    destruct (decide (Some id' = Some id)) as [[= ->]|Hq]; [rewrite Hp; eauto|].
    rewrite fs_read_rotated_other by done. apply I3.
  - intros id'.
    destruct (decide (Some id' = Some id)) as [[= ->]|Hq].
    + intros _. rewrite Hp, Hr. split; eauto.
    + rewrite !fs_read_rotated_other by done. apply I4.
Qed.

Lemma store_inv_rmtree fs id : store_inv fs → store_inv (fs_rmtree fs (Some id)).
Proof.
  intros (I1 & I2 & I3 & I4). split_and!.
  - intros q g. rewrite fs_read_rmtree, dir_exists_rmtree.
    case_decide; [by intros [? [=]]|].
    intros Hx%I1. rewrite Hx. by rewrite bool_decide_eq_false_2.
  - intros id'. rewrite !dir_exists_rmtree.
    intros [_ H]%andb_true_iff. rewrite (I2 _ H). by rewrite bool_decide_eq_false_2.
  - intros id'. rewrite dir_exists_rmtree, fs_read_rmtree.
    intros [Hne H]%andb_true_iff. apply negb_true_iff, bool_decide_eq_false in Hne.
    rewrite decide_False by done. by apply I3.
  - intros id'. rewrite !fs_read_rmtree. case_decide; [by intros [? [=]]|]. apply I4.
Qed.

End StoreInv.

(** ** Computations that leave the store alone *)

Lemma fs_const_bind {A B} (m : M A) (f : A → M B) :
  fs_const m → (∀ a, fs_const (f a)) → fs_const (m ≫= f).
Proof.
  intros Hm Hf w. rewrite bind_run. specialize (Hm w).
  destruct (m w) as [[a| |e|] w1]; cbn in *; try done.
  by rewrite Hf.
Qed.

Lemma fs_const_try {A} (m h : M A) c :
  fs_const m → fs_const h → fs_const (try_except m c h).
Proof.
  intros Hm Hh w. unfold try_except. specialize (Hm w).
  destruct (m w) as [[a| |e|] w1]; cbn in *; try done.
  destruct (c e); [by rewrite Hh|done].
Qed.

Lemma fs_const_when b (m : M unit) : fs_const m → fs_const (when b m).
Proof. by destruct b. Qed.

Lemma fs_const_ret {A} (a : A) : fs_const (mret a).
Proof. done. Qed.

Lemma fs_const_raise {A} e : fs_const (@raise A e).
Proof. done. Qed.

Lemma fs_const_lib {A} e (o : option A) : fs_const (lib e o).
Proof. by destruct o. Qed.

Lemma fs_const_send b : fs_const (send b).
Proof. done. Qed.

Lemma fs_const_recv n : fs_const (recv n).
Proof. intros w. unfold recv. by destruct (w_in w). Qed.

Lemma fs_const_fail {A} : fs_const (@fail A).
Proof. done. Qed.

Lemma fs_const_close : fs_const close.
Proof. done. Qed.

Lemma fs_const_os_exit {A} : fs_const (@os_exit A).
Proof. done. Qed.

Lemma fs_const_randombytes n : fs_const (randombytes n).
Proof. done. Qed.

Lemma fs_const_timestamp : fs_const timestamp.
Proof. done. Qed.

Lemma fs_const_path_exists p : fs_const (path_exists p).
Proof. done. Qed.

Lemma fs_const_load_blob p f sz : fs_const (load_blob p f sz).
Proof. intros w. by destruct (load_blob_cases p f sz w) as [-> | ->]. Qed.

Lemma fs_const_read_pkt_loop fuel size res : fs_const (read_pkt_loop fuel size res).
Proof.
  revert res. induction fuel as [|fuel IH]; intros res; cbn [read_pkt_loop].
  - by case_decide.
  - case_decide; [|done].
    intros w. destruct (w_in w) eqn:E; [done|].
    apply (fs_const_bind (recv _) _ (fs_const_recv _) (λ c, IH (res ++ c))).
Qed.

Lemma fs_const_read_pkt size : fs_const (read_pkt size).
Proof. intros w. apply fs_const_read_pkt_loop. Qed.

Create HintDb fsconst discriminated.
#[global] Hint Resolve fs_const_ret fs_const_raise fs_const_lib fs_const_send
  fs_const_recv fs_const_fail fs_const_close fs_const_os_exit fs_const_randombytes
  fs_const_timestamp fs_const_path_exists fs_const_load_blob fs_const_read_pkt : fsconst.

Ltac fs_const_step :=
  match goal with
  | |- fs_const (_ ≫= _) => apply fs_const_bind; [|intros ?]
  | |- fs_const (try_except _ _ _) => apply fs_const_try
  | |- fs_const (when _ _) => apply fs_const_when
  | |- fs_const (match ?x with _ => _ end) => destruct x
  | |- fs_const _ => solve [auto with fsconst]
  end.

Ltac fs_const_tac := repeat (cbn beta iota zeta; fs_const_step).

Section Talk.
Context {C : Consts} {cfg : Config} {P : Primitives}.

Lemma fs_const_verify_blob msg pk : fs_const (verify_blob msg pk).
Proof. unfold verify_blob. fs_const_tac. Qed.

Lemma fs_const_pop_int msg : fs_const (pop_int msg).
Proof. unfold pop_int, pop. fs_const_tac. Qed.

Lemma fs_const_load_authkeys_lines lines : fs_const (load_authkeys_lines lines).
Proof.
  induction lines as [|line lines IH]; cbn [load_authkeys_lines]; [fs_const_tac|].
  apply fs_const_bind; [fs_const_tac|]. intros [b64key name].
  apply fs_const_bind; [fs_const_tac|]. intros key.
  apply fs_const_bind; [exact IH|]. intros res. fs_const_tac.
Qed.

Lemma fs_const_load_authkeys : fs_const load_authkeys.
Proof.
  unfold load_authkeys. apply fs_const_bind; [fs_const_tac|].
  apply fs_const_load_authkeys_lines.
Qed.

Lemma fs_const_setup_noise_sessions n privkey auth_keys :
  fs_const (setup_noise_sessions n privkey auth_keys).
Proof. unfold setup_noise_sessions. fs_const_tac. Qed.

Lemma fs_const_dkg n t index aux : fs_const (dkg n t index aux).
Proof.
  pose proof fs_const_load_authkeys. pose proof fs_const_setup_noise_sessions.
  unfold dkg. fs_const_tac.
Qed.

Lemma fs_const_auth id alpha : fs_const (auth id alpha).
Proof. intros w. apply auth_fs. Qed.

Lemma fs_const_get msg : fs_const (get msg).
Proof. unfold get, pop. fs_const_tac. Qed.

Lemma fs_const_read msg : fs_const (read msg).
Proof. pose proof fs_const_auth. unfold read, pop. fs_const_tac. Qed.

End Talk.

#[global] Hint Resolve fs_const_verify_blob fs_const_pop_int fs_const_dkg fs_const_auth
  fs_const_get fs_const_read : fsconst.

(** ** The rules of [wp] *)

Section Wp.
Context {C : Consts}.

Lemma wp_bind {A B} (m : M A) (f : A → M B) Q fs :
  wp m (λ a fs', wp (f a) Q fs') fs → wp (m ≫= f) Q fs.
Proof.
  intros Hm w Hw. rewrite bind_run. specialize (Hm w Hw).
  destruct (m w) as [[a| |e|] w1]; try done. by apply Hm.
Qed.

Lemma wp_conseq {A} (m : M A) (Q Q' : A → fsys → Prop) fs :
  wp m Q fs → (∀ a fs', Q a fs' → Q' a fs') → wp m Q' fs.
Proof.
  intros Hm HQ w Hw. specialize (Hm w Hw).
  destruct (m w) as [[a| |e|] w1]; try done. by apply HQ.
Qed.

Lemma wp_const {A} (m : M A) Q fs :
  fs_const m → store_inv fs → (∀ a, Q a fs) → wp m Q fs.
Proof.
  intros Hm Hinv HQ w Hw. specialize (Hm w).
  destruct (m w) as [[a| |e|] w1]; cbn in Hm; rewrite Hm, Hw; auto.
Qed.

(** A step that only talks, in front of the rest. *)
Lemma wp_talk {A B} (m : M A) (f : A → M B) Q fs :
  fs_const m → store_inv fs → (∀ a, wp (f a) Q fs) → wp (m ≫= f) Q fs.
Proof. intros Hm Hinv Hf. apply wp_bind. by apply wp_const. Qed.

Lemma wp_ret {A} (a : A) (Q : A → fsys → Prop) fs : Q a fs → wp (mret a) Q fs.
Proof. intros HQ w <-. exact HQ. Qed.

Lemma wp_fail {A} (Q : A → fsys → Prop) fs : store_inv fs → wp fail Q fs.
Proof. intros Hinv w <-. exact Hinv. Qed.

Lemma wp_raise {A} e (Q : A → fsys → Prop) fs : store_inv fs → wp (raise e) Q fs.
Proof. intros Hinv w <-. exact Hinv. Qed.

Lemma wp_when_fail {B} b (f : unit → M B) Q fs :
  store_inv fs → (b = false → wp (f tt) Q fs) → wp (when b fail ≫= f) Q fs.
Proof.
  intros Hinv Hf. destruct b.
  - intros w <-. rewrite bind_when_true, bind_fail. exact Hinv.
  - intros w Hw. rewrite bind_when_false. by apply Hf.
Qed.

Lemma wp_path_exists {B} p (f : bool → M B) Q fs :
  wp (f (dir_exists fs p)) Q fs → wp (path_exists p ≫= f) Q fs.
Proof. intros Hf w Hw. rewrite bind_path_exists, Hw. by apply Hf. Qed.

Lemma wp_load_blob {B} p g sz (f : option bytes → M B) Q fs :
  store_inv fs →
  ((∀ b, fs_read fs p g = Some b → well_sized sz b) → wp (f (fs_read fs p g)) Q fs) →
  wp (load_blob p g sz ≫= f) Q fs.
Proof.
  intros Hinv Hf w Hw. rewrite bind_run.
  destruct (load_blob p g sz w) as [[v| |e|] w1] eqn:E.
  - apply load_blob_Ret in E as (E1 & E2 & Hs). rewrite E1, E2, Hw in *.
    apply Hf; [|done]. intros b Hb. by apply Hs.
  - destruct (load_blob_cases p g sz w) as [E'|E']; rewrite E' in E; simplify_eq.
  - destruct (load_blob_cases p g sz w) as [E'|E']; rewrite E' in E; simplify_eq.
    done.
  - destruct (load_blob_cases p g sz w) as [E'|E']; rewrite E' in E; simplify_eq.
Qed.

Lemma wp_save_blob_end p g b (Q : unit → fsys → Prop) fs :
  dir_exists fs p = true → Q tt (fs_write fs p g b) → wp (save_blob p g b) Q fs.
Proof.
  intros Hdir HQ w Hw. unfold save_blob. rewrite Hw, Hdir. done.
Qed.

Lemma wp_save_blob {B} p g b (f : unit → M B) Q fs :
  dir_exists fs p = true → wp (f tt) Q (fs_write fs p g b) →
  wp (save_blob p g b ≫= f) Q fs.
Proof. intros Hdir Hf. apply wp_bind. by apply wp_save_blob_end. Qed.

Lemma wp_os_mkdir {B} p (f : unit → M B) Q fs :
  store_inv fs →
  (dir_exists fs p = false → (p = None ∨ dir_exists fs None = true) →
   wp (f tt) Q (fs_mkdir fs p)) →
  wp (os_mkdir p ≫= f) Q fs.
Proof.
  intros Hinv Hf w Hw. rewrite bind_run. unfold os_mkdir. rewrite Hw.
  destruct (dir_exists fs p) eqn:Hp; [by rewrite Hw|].
  destruct p as [id|].
  - destruct (dir_exists fs None) eqn:Hr; [|by rewrite Hw].
    apply Hf; auto.
  - apply Hf; auto.
Qed.

Lemma wp_os_unlink {B} p g (f : unit → M B) Q fs :
  is_Some (fs_read fs p g) → wp (f tt) Q (fs_unlink fs p g) →
  wp (os_unlink p g ≫= f) Q fs.
Proof.
  intros [v Hv] Hf w Hw. rewrite bind_run. unfold os_unlink. rewrite Hw, Hv.
  by apply Hf.
Qed.

Lemma wp_rmtree {B} p (f : unit → M B) Q fs :
  store_inv fs → wp (f tt) Q (fs_rmtree fs p) → wp (rmtree p ≫= f) Q fs.
Proof.
  intros Hinv Hf w Hw. rewrite bind_run. unfold rmtree. rewrite Hw.
  destruct (dir_exists fs p); [by apply Hf|by rewrite Hw].
Qed.

Lemma wp_keeps_inv {A} (m : M A) :
  (∀ fs, store_inv fs → wp m (λ _ fs', store_inv fs') fs) → keeps_inv m.
Proof.
  intros H w Hinv. specialize (H _ Hinv w eq_refl).
  by destruct (m w) as [[a| |e|] w1].
Qed.

Lemma keeps_inv_wp {A} (m : M A) fs :
  keeps_inv m → store_inv fs → wp m (λ _ fs', store_inv fs') fs.
Proof.
  intros H Hinv w Hw. specialize (H w). rewrite Hw in H. specialize (H Hinv).
  by destruct (m w) as [[a| |e|] w1].
Qed.

Lemma fs_const_keeps_inv {A} (m : M A) : fs_const m → keeps_inv m.
Proof. intros H w Hinv. by rewrite H. Qed.

End Wp.

(** A step that only talks. *)
Ltac wp_talk_step :=
  apply wp_talk; [solve [fs_const_tac] | assumption | intros ?].

Section WpMore.
Context {C : Consts}.

Lemma wp_when_false {B} (m : M unit) (f : unit → M B) Q fs :
  wp (f tt) Q fs → wp (when false m ≫= f) Q fs.
Proof. intros Hf w Hw. rewrite bind_when_false. by apply Hf. Qed.

Lemma wp_when_true {B} (m : M unit) (f : unit → M B) Q fs :
  wp (m ≫= f) Q fs → wp (when true m ≫= f) Q fs.
Proof. intros Hf w Hw. rewrite bind_when_true. by apply Hf. Qed.

(** Making sure a directory is there: [if not os.path.exists(p): os.mkdir(p)]. *)
Lemma wp_ensure_dir {B} p (f : unit → M B) Q fs :
  (p = None ∨ dir_exists fs None = true) →
  (dir_exists fs p = true → wp (f tt) Q fs) →
  (dir_exists fs p = false → wp (f tt) Q (fs_mkdir fs p)) →
  wp (path_exists p ≫= λ ex, when (negb ex) (os_mkdir p) ≫= f) Q fs.
Proof.
  intros Hroot Hyes Hno. apply wp_path_exists.
  destruct (dir_exists fs p) eqn:Hp; cbn [negb].
  - apply wp_when_false. by apply Hyes.
  - apply wp_when_true. intros w Hw. rewrite bind_run. unfold os_mkdir.
    rewrite Hw, Hp. destruct p as [id|].
    + destruct Hroot as [|Hr]; [done|]. rewrite Hr. by apply Hno.
    + by apply Hno.
Qed.

End WpMore.

Ltac wp_step :=
  lazymatch goal with
  | |- wp (mret _) _ _ => apply wp_ret
  | |- wp fail _ _ => apply wp_fail; assumption
  | |- wp (raise _) _ _ => apply wp_raise; assumption
  | |- wp (when _ fail ≫= _) _ _ => apply wp_when_fail; [assumption | intros ?]
  | |- wp (load_blob _ _ _ ≫= _) _ _ => apply wp_load_blob; [assumption | intros ?]
  | |- wp (path_exists _ ≫= _) _ _ => apply wp_path_exists
  | |- wp ((_ ≫= _) ≫= _) _ _ => apply wp_bind
  | |- wp (?m ≫= _) _ _ =>
      lazymatch m with
      | match _ with _ => _ end => apply wp_bind
      | _ => apply wp_talk; [solve [fs_const_tac] | assumption | intros ?]
      end
  | |- wp (match ?x with _ => _ end) _ _ => destruct x eqn:?
  end; cbn beta iota zeta.

Ltac wp_talk_end := apply wp_const; [solve [fs_const_tac] | assumption | intros ?].

(** ** Every operation keeps the invariant *)

Section Keeps.
Context {C : Consts} {cfg : Config} {P : Primitives}.

Lemma wp_update_blob fs :
  store_inv fs → wp update_blob (λ _ fs', store_inv fs') fs.
Proof.
  intros Hinv. unfold update_blob.
  do 2 wp_step.
  destruct (bool_decide (sum_bytes _ = 0)); [by apply wp_ret|].
  set (id := take 32 a) in *.
  wp_step. wp_step.
  destruct (fs_read fs (Some id) "pub") as [pk|] eqn:Hpub.
  - (* the record exists: its blob is replaced *)
    assert (dir_exists fs (Some id) = true) as Hdir.
    { destruct Hinv as (I1 & _). apply (I1 _ "pub"). by rewrite Hpub. }
    wp_step. wp_step.
    destruct (fs_read fs (Some id) "blob") as [blob|]; [|by apply wp_fail].
    wp_step. wp_step. wp_step.
    do 4 wp_step.
    wp_talk_end.
    apply wp_save_blob_end; [done|].
    apply store_inv_write; auto.
  - (* enrolment *)
    do 3 wp_step. do 7 wp_step.
    assert (∀ (a0 a4 : bytes) fs0, store_inv fs0 → dir_exists fs0 (Some id) = false →
                   dir_exists fs0 None = true →
      wp (path_exists (Some id) ≫= λ ex, when (negb ex) (os_mkdir (Some id))
            ≫= λ _, save_blob (Some id) "pub" a0 ≫= λ _, mret (drop 32 a4))
         (λ a5 fs', wp (save_blob (Some id) "blob" a5) (λ _ fs'', store_inv fs'') fs')
         fs0) as Hrest.
    { intros pk' blob' fs0 Hinv0 Hno Hroot.
      apply wp_ensure_dir; [by right|congruence|]. intros _.
      apply wp_save_blob.
      { by rewrite dir_exists_mkdir, bool_decide_eq_true_2. }
      apply wp_ret. apply wp_save_blob_end.
      { by rewrite dir_exists_write, dir_exists_mkdir, bool_decide_eq_true_2. }
      apply store_inv_write.
      - by apply store_inv_new_dir.
      - by rewrite dir_exists_write, dir_exists_mkdir, bool_decide_eq_true_2.
      - right. split_and!; discriminate. }
    apply wp_ensure_dir; [by left| |].
    + intros Hroot. by apply Hrest.
    + intros Hroot. apply Hrest.
      * by apply store_inv_mkdir_root.
      * rewrite dir_exists_mkdir. by rewrite bool_decide_eq_false_2.
      * by rewrite dir_exists_mkdir, bool_decide_eq_true_2.
Qed.

(** A signed message that passes [verify_blob] is returned without its
    signature. *)
Lemma wp_verified {B} msg pk (f : bytes → M B) Q fs :
  store_inv fs → wp (f (but_last_n 64 msg)) Q fs →
  wp (try_except (verify_blob msg pk) (is_exn ValueError) fail ≫= f) Q fs.
Proof.
  intros Hinv Hf w Hw. rewrite bind_run. unfold try_except, verify_blob.
  destruct (crypto_sign_verify_detached _ _ _).
  - by apply Hf.
  - unfold raise, is_exn. rewrite bool_decide_eq_true_2 by done.
    subst fs. exact Hinv.
Qed.

Lemma wp_save_blob_try {B} p g b (f : unit → M B) Q fs :
  store_inv fs → (dir_exists fs p = true → wp (f tt) Q (fs_write fs p g b)) →
  wp (save_blob p g b ≫= f) Q fs.
Proof.
  intros Hinv Hf w Hw. rewrite bind_run. unfold save_blob. rewrite Hw.
  destruct (dir_exists fs p) eqn:Hp; [by apply Hf|by rewrite Hw].
Qed.

Lemma wp_try_save {B} p g b (h : M unit) (f : unit → M B) Q fs :
  store_inv fs → fs_const h →
  (dir_exists fs p = true → wp (f tt) Q (fs_write fs p g b)) →
  (dir_exists fs p = false → wp (f tt) Q fs) →
  wp (try_except (save_blob p g b) (is_exn FileNotFoundError) h ≫= f) Q fs.
Proof.
  intros Hinv Hh Hyes Hno. destruct (dir_exists fs p) eqn:Hp.
  - intros w Hw. rewrite bind_run. unfold try_except, save_blob. rewrite Hw, Hp.
    by apply Hyes.
  - intros w Hw. pose proof (wp_talk h f Q fs Hh Hinv (λ u, match u with tt => Hno eq_refl end) w Hw) as H.
    rewrite bind_run in H |- *. unfold try_except, save_blob, is_exn.
    rewrite Hw, Hp, bool_decide_eq_true_2 by done. exact H.
Qed.

(** The last steps of [create] and [create_dkg]: the directory of the
    record is made and the three live blobs are written. *)
Lemma wp_new_account id k pk rules fs :
  store_inv fs → length pk = 32%nat → well_sized (Some RULE_SIZE) rules →
  wp (ex ← path_exists None;
      when (negb ex) (os_mkdir None);;
      os_mkdir (Some id);;
      save_blob (Some id) "key" k;;
      save_blob (Some id) "pub" pk;;
      save_blob (Some id) "rules" rules;;
      send ok_marker)
     (λ _ fs', store_inv fs') fs.
Proof.
  intros Hinv Hpk Hrules.
  assert (∀ fs0, store_inv fs0 → dir_exists fs0 None = true →
    wp (os_mkdir (Some id);;
        save_blob (Some id) "key" k;;
        save_blob (Some id) "pub" pk;;
        save_blob (Some id) "rules" rules;;
        send ok_marker)
       (λ _ fs', store_inv fs') fs0) as Hrest.
  { intros fs0 Hinv0 Hroot. apply wp_os_mkdir; [done|]. intros Hno _.
    assert (dir_exists (fs_mkdir fs0 (Some id)) (Some id) = true) as Hdir.
    { by rewrite dir_exists_mkdir, bool_decide_eq_true_2. }
    do 3 (apply wp_save_blob; [exact Hdir|]).
    pose proof (store_inv_new_account fs0 id k pk rules Hinv0 Hno Hroot Hpk Hrules).
    by apply wp_const; [fs_const_tac|..]. }
  apply wp_ensure_dir; [by left| |].
  - intros Hroot. by apply Hrest.
  - intros Hroot. apply Hrest.
    + by apply store_inv_mkdir_root.
    + by rewrite dir_exists_mkdir, bool_decide_eq_true_2.
Qed.

Lemma signed_record_sizes (msg : bytes) :
  length msg = (32 + RULE_SIZE + 64)%nat →
  length (take 32 msg) = 32%nat ∧
  well_sized (Some RULE_SIZE) (drop 32 (but_last_n 64 msg)).
Proof.
  intros Hlen. split.
  - rewrite length_take. lia.
  - unfold well_sized, but_last_n. destruct RULE_SIZE eqn:E; [done|].
    rewrite length_drop, length_take. lia.
Qed.

Lemma length_checked (n m : nat) : bool_decide (n ≠ m) = false → n = m.
Proof. intros H%bool_decide_eq_false. by apply dec_stable. Qed.

(** What is left of [create] and [create_dkg] once the signed record is in. *)
Lemma wp_register id k (msg : bytes) fs :
  store_inv fs →
  wp (when (bool_decide (length msg ≠ (32 + RULE_SIZE + 64)%nat)) fail;;
      let pk := take 32 msg in
      msg ← try_except (verify_blob msg pk) (is_exn ValueError) fail;
      let rules := drop 32 msg in
      update_blob;;
      ex ← path_exists None;
      when (negb ex) (os_mkdir None);;
      os_mkdir (Some id);;
      save_blob (Some id) "key" k;;
      save_blob (Some id) "pub" pk;;
      save_blob (Some id) "rules" rules;;
      send ok_marker)
     (λ _ fs', store_inv fs') fs.
Proof.
  intros Hinv. wp_step. apply length_checked, signed_record_sizes in H as [Hpk Hrules].
  apply wp_verified; [done|].
  apply wp_bind. eapply wp_conseq; [by apply wp_update_blob|].
  intros ? fs' Hinv'. cbn beta. by apply wp_new_account.
Qed.

Lemma wp_create msg fs :
  store_inv fs → wp (create msg) (λ _ fs', store_inv fs') fs.
Proof.
  intros Hinv. unfold create, pop. do 7 wp_step. by apply wp_register.
Qed.

Lemma wp_create_dkg msg fs :
  store_inv fs → wp (create_dkg msg) (λ _ fs', store_inv fs') fs.
Proof.
  intros Hinv. unfold create_dkg, pop. do 14 wp_step. by apply wp_register.
Qed.

(** The last steps of [change] and [change_dkg]: the staged triple is
    written next to the live one. *)
Lemma wp_stage id k (blob : bytes) fs :
  store_inv fs → dir_exists fs (Some id) = true →
  wp (when (bool_decide (length blob ≠ (32 + RULE_SIZE + 64)%nat)) fail;;
      let pk := take 32 blob in
      signed ← try_except (verify_blob blob pk) (is_exn ValueError) fail;
      let rules := drop 32 signed in
      save_blob (Some id) "new" k;;
      save_blob (Some id) "rules.new" rules;;
      save_blob (Some id) "pub.new" pk;;
      send ok_marker)
     (λ _ fs', store_inv fs') fs.
Proof.
  intros Hinv Hdir. wp_step. apply wp_verified; [done|]. cbn zeta.
  do 3 (apply wp_save_blob; [exact Hdir|]).
  assert (store_inv
    (fs_write (fs_write (fs_write fs (Some id) "new" k) (Some id) "rules.new"
                 (drop 32 (but_last_n 64 blob))) (Some id) "pub.new" (take 32 blob))).
  { repeat (apply store_inv_write; [|exact Hdir|right; split_and!; discriminate]).
    done. }
  by apply wp_const; [fs_const_tac|..].
Qed.

Lemma wp_change msg fs :
  store_inv fs → wp (change msg) (λ _ fs', store_inv fs') fs.
Proof.
  intros Hinv. unfold change, pop. do 3 wp_step.
  apply negb_false_iff in H0. do 7 wp_step. by apply wp_stage.
Qed.

Lemma wp_change_dkg msg fs :
  store_inv fs → wp (change_dkg msg) (λ _ fs', store_inv fs') fs.
Proof.
  intros Hinv. unfold change_dkg, pop. do 3 wp_step.
  apply negb_false_iff in H0. do 13 wp_step. by apply wp_stage.
Qed.

Lemma wp_delete msg fs :
  store_inv fs → wp (delete msg) (λ _ fs', store_inv fs') fs.
Proof.
  intros Hinv. unfold delete, pop. do 4 wp_step.
  apply wp_bind. eapply wp_conseq; [by apply wp_update_blob|].
  intros ? fs' Hinv'. cbn beta.
  apply wp_rmtree; [done|].
  pose proof (store_inv_rmtree fs' (take 32 (drop 1 msg)) Hinv').
  by apply wp_const; [fs_const_tac|..].
Qed.

Lemma wp_commit_undo new old msg fs :
  (new = "new" ∧ old = "old") ∨ (new = "old" ∧ old = "new") →
  store_inv fs → wp (commit_undo new old msg) (λ _ fs', store_inv fs') fs.
Proof.
  intros Hno Hinv. unfold commit_undo, pop. do 3 wp_step.
  apply negb_false_iff in H0. wp_step.
  do 6 (wp_step; wp_step; [|by apply wp_fail]).
  pose proof (store_inv_rotated fs (take 32 (drop 1 msg)) new old l3 l l1 l4 l0 l2
                Hno Hinv H0 (H3 _ eq_refl) (H1 _ eq_refl)) as Hrot.
  do 6 (apply wp_save_blob; [exact H0|]).
  unfold rotated in Hrot.
  destruct Hno as [[-> ->]|[-> ->]];
    change ("rules." +:+ "new") with "rules.new" in *;
    change ("pub." +:+ "new") with "pub.new" in *;
    change ("rules." +:+ "old") with "rules.old" in *;
    change ("pub." +:+ "old") with "pub.old" in *.
  all: do 3 (apply wp_os_unlink;
    [repeat (rewrite fs_read_unlink || rewrite fs_read_write);
     repeat case_decide; simplify_eq; eauto|]).
  all: by apply wp_const; [fs_const_tac|..].
Qed.


(** The end of [create_challenge]: the MAC key of the server is loaded,
    or made and stored in the data directory, and the challenge is sent. *)
Lemma wp_sign_challenge (resp : bytes → bytes) fs :
  store_inv fs →
  wp (key ← load_blob None "key" (Some 32%nat);
      key ←
        match key with
        | None | Some [] =>
            key ← randombytes 32;
            save_blob None "key" key;;
            mret key
        | Some key => mret key
        end;
      send (resp key))
     (λ _ fs', store_inv fs') fs.
Proof.
  intros Hinv. wp_step.
  assert (wp (key ← randombytes 32; save_blob None "key" key;; mret key)
            (λ key fs', wp (send (resp key)) (λ _ fs'', store_inv fs'') fs') fs) as Hnew.
  { wp_step. apply wp_save_blob_try; [done|]. intros Hroot. apply wp_ret.
    pose proof (store_inv_write fs None "key" a Hinv Hroot (or_introl eq_refl)).
    by apply wp_const; [fs_const_tac|..]. }
  apply wp_bind.
  destruct (fs_read fs None "key") as [[|b key]|]; [exact Hnew| |exact Hnew].
  apply wp_ret. by apply wp_const; [fs_const_tac|..].
Qed.

Lemma wp_create_challenge fs :
  store_inv fs → wp create_challenge (λ _ fs', store_inv fs') fs.
Proof.
  intros Hinv. unfold create_challenge. wp_step.
  apply wp_talk; [fs_const_tac|done|intros _].
  wp_step. wp_step.
  apply wp_talk; [fs_const_tac|done|intros [[[n k] level] count]].
  do 3 wp_step.
  apply wp_try_save; [done|fs_const_tac|intros Hdir|intros _].
  - pose proof (store_inv_write fs _ "difficulty" (a1 ++ a2 ++ a3) Hinv Hdir) as Hw.
    assert (store_inv (fs_write fs (Some (take 32 (drop 1 a))) "difficulty" (a1 ++ a2 ++ a3)))
      as Hinv' by (apply Hw; right; split_and!; discriminate).
    do 2 wp_step.
    by apply (wp_sign_challenge (λ key, (a4 ++ a5) ++ crypto_generichash key (a ++ a4 ++ a5))).
  - do 2 wp_step.
    by apply (wp_sign_challenge (λ key, (a4 ++ a5) ++ crypto_generichash key (a ++ a4 ++ a5))).
Qed.

Lemma wp_then_talk {A B} (m : M A) (f : A → M B) (Q : B → fsys → Prop) fs :
  wp m (λ _ fs', store_inv fs') fs → (∀ a, fs_const (f a)) →
  (∀ b fs', store_inv fs' → Q b fs') → wp (m ≫= f) Q fs.
Proof.
  intros Hm Hf HQ. apply wp_bind. eapply wp_conseq; [exact Hm|].
  intros a fs' Hinv'. cbn beta. apply wp_const; auto.
Qed.

Lemma wp_handler data fs :
  store_inv fs → wp (handler data) (λ _ fs', store_inv fs') fs.
Proof.
  intros Hinv. unfold handler.
  apply wp_then_talk; [|intros; fs_const_tac|done].
  repeat case_bool_decide.
  - by apply wp_const; [apply fs_const_get|..].
  - by apply wp_change.
  - by apply wp_change_dkg.
  - by apply wp_delete.
  - apply wp_commit_undo; auto.
  - apply wp_commit_undo; auto.
  - by apply wp_const; [apply fs_const_read|..].
  - by apply wp_ret.
Qed.

Lemma wp_verify_challenge fs :
  store_inv fs → wp verify_challenge (λ _ fs', store_inv fs') fs.
Proof.
  intros Hinv. unfold verify_challenge, pop.
  repeat wp_step. all: by apply wp_handler.
Qed.

Lemma wp_ratelimit fs :
  store_inv fs → wp ratelimit (λ _ fs', store_inv fs') fs.
Proof.
  intros Hinv. unfold ratelimit. wp_step.
  repeat case_bool_decide.
  - wp_step. by apply wp_create.
  - wp_step. by apply wp_create_dkg.
  - by apply wp_create_challenge.
  - by apply wp_verify_challenge.
  - by apply wp_ret.
Qed.

Lemma keeps_inv_worker : keeps_inv worker.
Proof.
  intros w Hinv. pose proof (wp_ratelimit _ Hinv w eq_refl) as H.
  unfold worker. by destruct (ratelimit w) as [[[]| |e|] w1].
Qed.

Lemma keeps_inv_server_op (m : M unit) : server_op m → keeps_inv m.
Proof.
  destruct 1; try (apply wp_keeps_inv; intros fs Hinv).
  - by apply wp_create.
  - by apply wp_create_dkg.
  - by apply wp_change.
  - by apply wp_change_dkg.
  - apply wp_commit_undo; auto.
  - apply wp_commit_undo; auto.
  - by apply wp_delete.
  - by apply wp_update_blob.
  - by apply wp_const; [apply fs_const_get|..].
  - by apply wp_const; [apply fs_const_read|..].
  - by apply wp_create_challenge.
  - by apply wp_verify_challenge.
  - by apply wp_handler.
  - by apply wp_ratelimit.
  - by apply keeps_inv_wp; [apply keeps_inv_worker|].
Qed.

(** C2 (as the code has it). Every store the server reaches from an empty
    data directory satisfies [store_inv], and every operation of the server
    keeps it, however the operation ends: a file lies in a directory that
    exists; a record directory lies in the data directory and holds [pub];
    a record with [key] holds a 32-byte [pub] and well-sized [rules].  The
    equivalence of directory and complete, 33/32/RULE_SIZE-sized triple is
    not part of it: a host record enrolled by [update_blob] holds [pub] and
    [blob] only, and [create] stores a 32-byte [key]. *)
Theorem store_inv_reachable fs :
  reachable fs →
  store_inv fs ∧
  ∀ (m : M unit) w, server_op m → w_fs w = fs → store_inv (w_fs (m w).2).
Proof.
  intros Hreach.
  assert (store_inv fs) as Hinv.
  { induction Hreach as [|w _ IH]; [apply store_inv_empty|by apply keeps_inv_worker]. }
  split; [done|]. intros m w Hm <-. by apply keeps_inv_server_op.
Qed.

End Keeps.

(** The enrolment run of the demo instance: the store it leaves is
    reachable, so it has the invariant and every operation keeps it. *)
Lemma store_inv_reachable_witness :
  reachable (C := demo_consts) (cfg := demo_config) (P := demo_primitives)
    (w_fs demo_enrolled.2) ∧
  store_inv (C := demo_consts) (w_fs demo_enrolled.2) ∧
  ∀ (m : M unit) w,
    server_op (C := demo_consts) (cfg := demo_config) (P := demo_primitives) m →
    w_fs w = w_fs demo_enrolled.2 → store_inv (C := demo_consts) (w_fs (m w).2).
Proof.
  assert (reachable (C := demo_consts) (cfg := demo_config) (P := demo_primitives)
            (w_fs demo_enrolled.2)) as Hreach.
  { unfold demo_enrolled. apply reach_worker. apply reach_empty. }
  split; [exact Hreach|].
  apply (store_inv_reachable (C := demo_consts) (cfg := demo_config)
           (P := demo_primitives) (w_fs demo_enrolled.2)).
  exact Hreach.
Defined.

(** C2 as the specification words it does not hold of the code: after a
    CREATE with the enrolment of a host record on an empty store, the
    directory of the host record exists and holds [pub] but no [key], and the
    [key] of the account has 32 bytes, not 33.  Neither directory goes with
    a complete 33/32/RULE_SIZE triple. *)
Lemma store_equivalence_counterexample :
  reachable (C := demo_consts) (cfg := demo_config) (P := demo_primitives)
    (w_fs demo_enrolled.2) ∧
  dir_exists (w_fs demo_enrolled.2) (Some demo_host) = true ∧
  is_Some (fs_read (w_fs demo_enrolled.2) (Some demo_host) "pub") ∧
  fs_read (w_fs demo_enrolled.2) (Some demo_host) "key" = None ∧
  ¬ account_complete (C := demo_consts) (w_fs demo_enrolled.2) demo_host ∧
  dir_exists (w_fs demo_enrolled.2) (Some demo_id) = true ∧
  (length <$> fs_read (w_fs demo_enrolled.2) (Some demo_id) "key") = Some 32%nat ∧
  ¬ account_complete (C := demo_consts) (w_fs demo_enrolled.2) demo_id.
Proof.
  assert (fs_read (w_fs demo_enrolled.2) (Some demo_host) "key" = None) as Hhost
    by (vm_compute; reflexivity).
  assert ((length <$> fs_read (w_fs demo_enrolled.2) (Some demo_id) "key") = Some 32%nat)
    as Hkey by (vm_compute; reflexivity).
  split_and!.
  - unfold demo_enrolled. apply reach_worker. apply reach_empty.
  - vm_compute. reflexivity.
  - vm_compute. eauto.
  - exact Hhost.
  - intros (k & pk & r & Hk & _). congruence.
  - vm_compute. reflexivity.
  - exact Hkey.
  - intros (k & pk & r & Hk & Hlen & _). rewrite Hk in Hkey. cbn in Hkey.
    injection Hkey as Hkey. lia.
Qed.

(** * The checks of every operation *)

Lemma bind_recv {B} n (f : bytes → M B) w :
  (recv n ≫= f) w = f (next_bytes n w) (recv n w).2.
Proof.
  rewrite bind_run. unfold recv, next_bytes.
  destruct (w_in w); [|done]. cbn. by rewrite take_nil.
Qed.

Lemma recv_world n w :
  w_fs (recv n w).2 = w_fs w ∧ w_out (recv n w).2 = w_out w ∧
  w_open (recv n w).2 = w_open w ∧
  w_entropy (recv n w).2 = w_entropy w ∧ w_rpos (recv n w).2 = w_rpos w.
Proof. unfold recv. by destruct (w_in w). Qed.

Lemma bind_try_lib {A B} e (o : option A) (f : A → M B) w :
  (try_except (lib e o) any_exn fail ≫= f) w =
  match o with Some a => f a w | None => (Exit, failed w) end.
Proof. rewrite bind_run. by destruct o. Qed.

(** The run has reached a check that fails. *)
Ltac failed_here :=
  rewrite ?bind_when_true, ?bind_fail; apply sent_fail_failed.

Section ErrorSites.
Context {C : Consts} {cfg : Config} {P : Primitives}.

Lemma bind_verified {B} msg pk (f : bytes → M B) w :
  (try_except (verify_blob msg pk) (is_exn ValueError) fail ≫= f) w =
  if crypto_sign_verify_detached (last_n 64 msg) (but_last_n 64 msg) pk
  then f (but_last_n 64 msg) w else (Exit, failed w).
Proof.
  rewrite bind_run. unfold try_except, verify_blob.
  destruct (crypto_sign_verify_detached _ _ _); [done|].
  unfold raise, is_exn. by rewrite bool_decide_eq_true_2.
Qed.

(** CREATE *)
Lemma create_rejects msg w :
  let signed := next_bytes (32 + RULE_SIZE + 64) w in
  length msg ≠ 65%nat ∨
  dir_exists (w_fs w) (req_id msg) = true ∨
  oprf_evaluate (fresh_bytes 32 w) (req_alpha msg) = None ∨
  length signed ≠ (32 + RULE_SIZE + 64)%nat ∨
  crypto_sign_verify_detached (last_n 64 signed) (but_last_n 64 signed)
    (take 32 signed) = false →
  sent_fail (create msg w).
Proof.
  intros signed H. unfold create, pop. fold (req_id msg) (req_alpha msg).
  case_bool_decide as Hlen; [failed_here|].
  rewrite bind_when_false, bind_path_exists.
  destruct (dir_exists (w_fs w) (req_id msg)) eqn:Hdir; [failed_here|].
  rewrite bind_when_false, bind_randombytes. fold (fresh_bytes 32 w).
  rewrite bind_try_lib.
  destruct (oprf_evaluate (fresh_bytes 32 w) (req_alpha msg)) as [beta|] eqn:Hev;
    [|apply sent_fail_failed].
  rewrite bind_send, bind_recv.
  change (next_bytes (32 + RULE_SIZE + 64) (set_out _ _)) with signed.
  case_bool_decide as Hslen; [failed_here|].
  rewrite bind_when_false. cbn zeta. rewrite bind_verified.
  destruct (crypto_sign_verify_detached _ _ _) eqn:Hsig; [|apply sent_fail_failed].
  by destruct H as [?|[?|[?|[?|?]]]].
Qed.

Lemma bind_pop_int {B} x msg (f : nat * bytes → M B) w :
  (pop_int (x :: msg) ≫= f) w = f (N.to_nat (Byte.to_N x), msg) w.
Proof. reflexivity. Qed.

(** CREATE_DKG; the request is [op | index | t | n | id[32] | alpha[32]]. *)
Lemma create_dkg_rejects msg w :
  length msg ≠ 68%nat ∨
  dir_exists (w_fs w) (Some (take 32 (drop 4 msg))) = true →
  sent_fail (create_dkg msg w).
Proof.
  intros H. unfold create_dkg, pop.
  case_bool_decide as Hlen; [failed_here|].
  rewrite bind_when_false.
  destruct msg as [|op [|index [|t [|n msg]]]]; try done.
  cbn [take drop]. rewrite !bind_pop_int.
  rewrite bind_path_exists.
  change (drop 4 (op :: index :: t :: n :: msg)) with msg in H.
  destruct H as [?|H]; [done|]. rewrite H. failed_here.
Qed.

Lemma create_dkg_rejects_record op index t n id alpha w xi w2 :
  let msg := op :: index :: t :: n :: id ++ alpha in
  let signed := next_bytes (32 + RULE_SIZE + 64) w2 in
  length id = 32%nat → length alpha = 32%nat →
  dir_exists (w_fs w) (Some id) = false →
  dkg (N.to_nat (Byte.to_N n)) (N.to_nat (Byte.to_N t)) (N.to_nat (Byte.to_N index))
    (op :: alpha) w = (Ret xi, w2) →
  oprf_evaluate (drop 1 xi) alpha = None ∨
  xi ≠ [] ∧
  (length signed ≠ (32 + RULE_SIZE + 64)%nat ∨
   crypto_sign_verify_detached (last_n 64 signed) (but_last_n 64 signed)
     (take 32 signed) = false) →
  sent_fail (create_dkg msg w).
Proof.
  intros msg signed Hid Halpha Hdir Hdkg H. unfold create_dkg, pop, msg.
  rewrite bool_decide_eq_false_2
    by (intros E; apply E; cbn [length]; rewrite length_app; lia).
  rewrite bind_when_false.
  cbn [take drop app]. rewrite !bind_pop_int.
  rewrite (take_app_length' id alpha 32), (drop_app_length' id alpha 32) by done.
  rewrite (take_ge alpha) by lia.
  rewrite bind_path_exists, Hdir, bind_when_false.
  rewrite bind_run. cbn [app]. rewrite Hdkg.
  rewrite bind_try_lib.
  destruct (oprf_evaluate (drop 1 xi) alpha) as [beta|] eqn:Hev; [|apply sent_fail_failed].
  destruct H as [?|[Hxi H]]; [done|].
  destruct xi as [|xi0 xi]; [done|]. cbn [head]. rewrite bind_lib_Some.
  rewrite bind_send, bind_recv.
  change (next_bytes (32 + RULE_SIZE + 64) (set_out _ _)) with signed.
  case_bool_decide as Hslen; [failed_here|].
  rewrite bind_when_false. cbn zeta. rewrite bind_verified.
  destruct (crypto_sign_verify_detached _ _ _) eqn:Hsig; [|apply sent_fail_failed].
  by destruct H.
Qed.

(** GET *)
Lemma get_rejects msg w :
  drop 32 (drop 32 (drop 1 msg)) ≠ [] ∨
  fs_read (w_fs w) (req_id msg) "key" = None →
  sent_fail (get msg w).
Proof.
  intros H. destruct (decide (drop 32 (drop 32 (drop 1 msg)) = [])) as [Htr|Htr].
  - destruct H as [?|H]; [done|]. rewrite get_unknown by done. apply sent_fail_failed.
  - rewrite get_trailing by done. apply sent_fail_failed.
Qed.

Lemma get_rejects_record msg w k :
  drop 32 (drop 32 (drop 1 msg)) = [] →
  fs_read (w_fs w) (req_id msg) "key" = Some k → length k = 33%nat →
  fs_read (w_fs w) (req_id msg) "rules" = None ∨
  (∃ rules, fs_read (w_fs w) (req_id msg) "rules" = Some rules ∧
            well_sized (Some RULE_SIZE) rules ∧
            oprf_evaluate (drop 1 k) (req_alpha msg) = None) →
  sent_fail (get msg w).
Proof.
  intros Htr Hk Hlen [H|(rules & Hr & Hrs & Hev)].
  - unfold get, pop. fold (req_id msg) (req_alpha msg).
    rewrite Htr, bool_decide_eq_false_2 by auto. rewrite bind_when_false.
    rewrite (bind_load_blob _ _ _ k) by done.
    rewrite bind_run. unfold load_blob. rewrite H. apply sent_fail_failed.
  - rewrite (get_steps msg w k rules) by done. rewrite Hev. apply sent_fail_failed.
Qed.

(** [auth] *)
Lemma auth_rejects id alpha w :
  fs_read (w_fs w) id "pub" = None → sent_fail (auth id alpha w).
Proof.
  intros H. unfold auth. rewrite bind_run. unfold load_blob. rewrite H.
  apply sent_fail_failed.
Qed.

Lemma auth_rejects_client id alpha w pk :
  fs_read (w_fs w) id "pub" = Some pk → length pk = 32%nat →
  (∃ k, fs_read (w_fs w) id "key" = Some k ∧
        (k = [] ∨ oprf_evaluate (drop 1 k) alpha = None)) ∨
  crypto_sign_verify_detached (next_bytes 64 w) (fresh_bytes 32 w) pk = false →
  sent_fail (auth id alpha w).
Proof.
  intros Hpk Hlen H. unfold auth. rewrite (bind_load_blob _ _ _ pk) by done.
  rewrite bind_randombytes. fold (fresh_bytes 32 w). rewrite bind_run.
  unfold load_blob at 1. cbn [w_fs set_rpos].
  assert (∀ beta,
    crypto_sign_verify_detached (next_bytes 64 w) (fresh_bytes 32 w) pk = false →
    sent_fail ((send (beta ++ fresh_bytes 32 w);;
                sig ← recv 64;
                if crypto_sign_verify_detached sig (fresh_bytes 32 w) pk
                then send auth_marker else fail)
                 (set_rpos (w_rpos w + 32) w))) as Hsig.
  { intros beta Hs. rewrite bind_send, bind_recv.
    change (next_bytes 64 (set_out _ _)) with (next_bytes 64 w).
    rewrite Hs. apply sent_fail_failed. }
  destruct (fs_read (w_fs w) id "key") as [k|] eqn:Hkey.
  - rewrite bind_run. unfold try_except. rewrite bind_run.
    destruct k as [|k0 k]; [apply sent_fail_failed|]. cbn [head lib mret M_ret].
    rewrite bind_run.
    destruct (oprf_evaluate (drop 1 (k0 :: k)) alpha) as [e|] eqn:Hev;
      [|apply sent_fail_failed].
    cbn [lib mret M_ret]. apply Hsig.
    destruct H as [(k' & [= <-] & [?|?])|?]; congruence.
  - rewrite bind_ret. apply Hsig. by destruct H as [(k' & ? & _)|?].
Qed.

(** The framing of the requests [op | id[32] | alpha[32]] and the look-up
    of the account: CHANGE, CHANGE_DKG, DELETE, COMMIT and UNDO. *)
Lemma change_rejects msg w :
  drop 32 (drop 32 (drop 1 msg)) ≠ [] ∨ dir_exists (w_fs w) (req_id msg) = false →
  sent_fail (change msg w).
Proof.
  intros H. unfold change, pop. fold (req_id msg).
  case_bool_decide as Htr; [failed_here|]. rewrite bind_when_false, bind_path_exists.
  destruct H as [?|H]; [done|]. rewrite H. failed_here.
Qed.

Lemma change_dkg_rejects msg w :
  drop 32 (drop 32 (drop 1 msg)) ≠ [] ∨ dir_exists (w_fs w) (req_id msg) = false →
  sent_fail (change_dkg msg w).
Proof.
  intros H. unfold change_dkg, pop. fold (req_id msg).
  case_bool_decide as Htr; [failed_here|]. rewrite bind_when_false, bind_path_exists.
  destruct H as [?|H]; [done|]. rewrite H. failed_here.
Qed.

Lemma delete_rejects msg w :
  drop 32 (drop 32 (drop 1 msg)) ≠ [] ∨ dir_exists (w_fs w) (req_id msg) = false →
  sent_fail (delete msg w).
Proof.
  intros H. unfold delete, pop. fold (req_id msg).
  case_bool_decide as Htr; [failed_here|]. rewrite bind_when_false, bind_path_exists.
  destruct H as [?|H]; [done|]. rewrite H. failed_here.
Qed.

Lemma commit_undo_rejects new old msg w :
  drop 32 (drop 32 (drop 1 msg)) ≠ [] ∨ dir_exists (w_fs w) (req_id msg) = false →
  sent_fail (commit_undo new old msg w).
Proof.
  intros H. unfold commit_undo, pop. fold (req_id msg).
  case_bool_decide as Htr; [failed_here|]. rewrite bind_when_false, bind_path_exists.
  destruct H as [?|H]; [done|]. rewrite H. failed_here.
Qed.

(** CHANGE after [auth]: the new blinded element, its evaluation, the
    signed record. *)
Lemma change_rejects_client msg w w1 :
  let alpha := next_bytes 32 w1 in
  let blob := next_bytes (32 + RULE_SIZE + 64) (recv 32 w1).2 in
  drop 32 (drop 32 (drop 1 msg)) = [] →
  dir_exists (w_fs w) (req_id msg) = true →
  auth (req_id msg) (req_alpha msg) w = (Ret tt, w1) →
  length alpha ≠ 32%nat ∨
  oprf_evaluate (fresh_bytes 32 w1) alpha = None ∨
  length blob ≠ (32 + RULE_SIZE + 64)%nat ∨
  crypto_sign_verify_detached (last_n 64 blob) (but_last_n 64 blob) (take 32 blob) = false →
  sent_fail (change msg w).
Proof.
  intros alpha blob Htr Hdir Hauth H. unfold change, pop.
  fold (req_id msg) (req_alpha msg).
  rewrite Htr, bool_decide_eq_false_2 by auto.
  rewrite bind_when_false, bind_path_exists, Hdir. cbn [negb].
  rewrite bind_when_false, bind_run, Hauth, bind_recv. fold alpha.
  case_bool_decide as Hlen; [failed_here|].
  rewrite bind_when_false, bind_randombytes.
  destruct (recv_world 32 w1) as (_ & _ & _ & Hent & Hrpos).
  rewrite Hent, Hrpos. fold (fresh_bytes 32 w1).
  rewrite bind_try_lib.
  destruct (oprf_evaluate (fresh_bytes 32 w1) alpha) as [beta|] eqn:Hev;
    [|apply sent_fail_failed].
  rewrite bind_send, bind_recv.
  change (next_bytes (32 + RULE_SIZE + 64) (set_out _ _)) with blob.
  case_bool_decide as Hblen; [failed_here|].
  rewrite bind_when_false. cbn zeta. rewrite bind_verified.
  destruct (crypto_sign_verify_detached _ _ _) eqn:Hsig; [|apply sent_fail_failed].
  by destruct H as [?|[?|[?|?]]].
Qed.

(** CHANGE_DKG after [auth] and the DKG. *)
Lemma change_dkg_rejects_client msg w w1 t n index alpha xi w3 :
  let blob := next_bytes (32 + RULE_SIZE + 64) w3 in
  drop 32 (drop 32 (drop 1 msg)) = [] →
  dir_exists (w_fs w) (req_id msg) = true →
  auth (req_id msg) (req_alpha msg) w = (Ret tt, w1) →
  next_bytes 35 w1 = t :: n :: index :: alpha →
  dkg (N.to_nat (Byte.to_N n)) (N.to_nat (Byte.to_N t)) (N.to_nat (Byte.to_N index))
    (take 1 msg ++ req_alpha msg) (recv 35 w1).2 = (Ret xi, w3) →
  oprf_evaluate (drop 1 xi) alpha = None ∨
  xi ≠ [] ∧
  (length blob ≠ (32 + RULE_SIZE + 64)%nat ∨
   crypto_sign_verify_detached (last_n 64 blob) (but_last_n 64 blob) (take 32 blob) = false) →
  sent_fail (change_dkg msg w).
Proof.
  intros blob Htr Hdir Hauth Hparams Hdkg H. unfold change_dkg, pop.
  fold (req_id msg) (req_alpha msg).
  rewrite Htr, bool_decide_eq_false_2 by auto.
  rewrite bind_when_false, bind_path_exists, Hdir. cbn [negb].
  rewrite bind_when_false, bind_run, Hauth, bind_recv, Hparams.
  rewrite !bind_pop_int. rewrite bind_run, Hdkg.
  rewrite bind_try_lib.
  destruct (oprf_evaluate (drop 1 xi) alpha) as [beta|] eqn:Hev; [|apply sent_fail_failed].
  destruct H as [?|[Hxi H]]; [done|].
  destruct xi as [|xi0 xi]; [done|]. cbn [head]. rewrite bind_lib_Some.
  rewrite bind_send, bind_recv.
  change (next_bytes (32 + RULE_SIZE + 64) (set_out _ _)) with blob.
  case_bool_decide as Hblen; [failed_here|].
  rewrite bind_when_false. cbn zeta. rewrite bind_verified.
  destruct (crypto_sign_verify_detached _ _ _) eqn:Hsig; [|apply sent_fail_failed].
  by destruct H.
Qed.

(** COMMIT and UNDO after [auth]: one of the six blobs is not there (and
    none of those on file has a size [load_blob] refuses). *)
Lemma commit_undo_rejects_missing new old msg w w1 :
  drop 32 (drop 32 (drop 1 msg)) = [] →
  dir_exists (w_fs w) (req_id msg) = true →
  auth (req_id msg) (req_alpha msg) w = (Ret tt, w1) →
  (∀ b, fs_read (w_fs w) (req_id msg) ("rules." +:+ new) = Some b →
        well_sized (Some RULE_SIZE) b) →
  (∀ b, fs_read (w_fs w) (req_id msg) "rules" = Some b → well_sized (Some RULE_SIZE) b) →
  (∀ b, fs_read (w_fs w) (req_id msg) ("pub." +:+ new) = Some b → length b = 32%nat) →
  (∀ b, fs_read (w_fs w) (req_id msg) "pub" = Some b → length b = 32%nat) →
  (∀ b, fs_read (w_fs w) (req_id msg) new = Some b → length b = 33%nat) →
  (∃ f, f ∈ six_blobs new ∧ fs_read (w_fs w) (req_id msg) f = None) →
  sent_fail (commit_undo new old msg w).
Proof.
  intros Htr Hdir Hauth Snr Scr Snp Scp Snk (f & Hf & Hnone).
  pose proof (auth_Ret_fs _ _ _ _ Hauth) as Hfs.
  unfold commit_undo, pop. fold (req_id msg) (req_alpha msg).
  rewrite Htr, bool_decide_eq_false_2 by auto.
  rewrite bind_when_false, bind_path_exists, Hdir. cbn [negb].
  rewrite bind_when_false, bind_run, Hauth.
  rewrite <- Hfs in *.
  assert (∀ B g sz (k : option bytes → M B),
    fs_read (w_fs w1) (req_id msg) g = None →
    (load_blob (req_id msg) g sz ≫= k) w1 = k None w1) as Hmiss.
  { intros B g sz k Hg. rewrite bind_run. unfold load_blob. by rewrite Hg. }
  destruct (fs_read (w_fs w1) (req_id msg) ("rules." +:+ new)) as [nr|] eqn:Hnr;
    [|rewrite Hmiss by done; apply sent_fail_failed].
  rewrite (bind_load_blob _ _ _ nr) by auto.
  destruct (fs_read (w_fs w1) (req_id msg) "rules") as [cr|] eqn:Hcr;
    [|rewrite Hmiss by done; apply sent_fail_failed].
  rewrite (bind_load_blob _ _ _ cr) by auto.
  destruct (fs_read (w_fs w1) (req_id msg) ("pub." +:+ new)) as [np|] eqn:Hnp;
    [|rewrite Hmiss by done; apply sent_fail_failed].
  rewrite (bind_load_blob _ _ _ np) by (try done; by apply Snp).
  destruct (fs_read (w_fs w1) (req_id msg) "pub") as [cp|] eqn:Hcp;
    [|rewrite Hmiss by done; apply sent_fail_failed].
  rewrite (bind_load_blob _ _ _ cp) by (try done; by apply Scp).
  destruct (fs_read (w_fs w1) (req_id msg) new) as [nk|] eqn:Hnk;
    [|rewrite Hmiss by done; apply sent_fail_failed].
  rewrite (bind_load_blob _ _ _ nk) by (try done; by apply Snk).
  destruct (fs_read (w_fs w1) (req_id msg) "key") as [ck|] eqn:Hck;
    [|rewrite Hmiss by done; apply sent_fail_failed].
  exfalso. unfold six_blobs in Hf.
  repeat (apply elem_of_cons in Hf as [->|Hf]; [congruence|]).
  by apply elem_of_nil in Hf.
Qed.

(** [update_blob]: the signed host id and the host record it names. *)
Lemma update_blob_rejects w :
  let signed_id := next_bytes 96 w in
  let id := Some (take 32 signed_id) in
  length signed_id ≠ 96%nat ∨
  sum_bytes (take 32 signed_id) ≠ 0 ∧
  (fs_read (w_fs w) id "pub" = None ∧ dir_exists (w_fs w) id = true ∨
   ∃ pk, fs_read (w_fs w) id "pub" = Some pk ∧
         (crypto_sign_verify_detached (last_n 64 signed_id) (but_last_n 64 signed_id) pk
            = false ∨
          fs_read (w_fs w) id "blob" = None)) →
  sent_fail (update_blob w).
Proof.
  intros signed_id id H. unfold update_blob. rewrite bind_recv.
  change (32 + 64)%nat with 96%nat. fold signed_id.
  destruct (decide (length signed_id = 96%nat)) as [Hlen|Hlen];
    [|rewrite (bool_decide_eq_true_2 (length signed_id ≠ _)) by done; failed_here].
  rewrite (bool_decide_eq_false_2 (length signed_id ≠ _)) by auto.
  rewrite bind_when_false.
  destruct H as [?|[Hsum H]]; [done|].
  rewrite bool_decide_eq_false_2 by done. fold id.
  destruct (recv_world 96 w) as (Hfs & _).
  rewrite bind_run. unfold load_blob at 1. rewrite Hfs.
  destruct (fs_read (w_fs w) id "pub") as [pk|] eqn:Hpk.
  - destruct H as [[? _]|(pk' & [= <-] & H)]; [done|].
    rewrite bind_run, bind_run. unfold try_except at 1, verify_blob at 1.
    destruct (crypto_sign_verify_detached _ _ pk) eqn:Hsig.
    + cbn [mret M_ret]. rewrite bind_run. unfold load_blob at 1. rewrite Hfs.
      destruct H as [?|H]; [done|]. rewrite H. apply sent_fail_failed.
    + unfold raise, is_exn. rewrite bool_decide_eq_true_2 by done. apply sent_fail_failed.
  - destruct H as [[_ Hdir]|(pk' & ? & _)]; [|done].
    rewrite bind_run, bind_path_exists, Hfs, Hdir. apply sent_fail_failed.
Qed.

(** [update_blob]: the signature of a host record that is new ... *)
Lemma update_blob_rejects_new w bsize sb w4 :
  let signed_id := next_bytes 96 w in
  let id := Some (take 32 signed_id) in
  let w1 := set_out (w_out (recv 96 w).2 ++ [["000"; "000"]%byte]) (recv 96 w).2 in
  let pk := next_bytes 32 w1 in
  let prefix := next_bytes 2 (recv 32 w1).2 in
  length signed_id = 96%nat →
  sum_bytes (take 32 signed_id) ≠ 0 →
  fs_read (w_fs w) id "pub" = None → dir_exists (w_fs w) id = false →
  struct_unpack_be 2 prefix = Some bsize →
  read_pkt (Z.to_nat bsize + 64) (recv 2 (recv 32 w1).2).2 = (Ret sb, w4) →
  crypto_sign_verify_detached (last_n 64 (pk ++ prefix ++ sb))
    (but_last_n 64 (pk ++ prefix ++ sb)) pk = false →
  sent_fail (update_blob w).
Proof.
  intros signed_id id w1 pk prefix Hlen Hsum Hpk Hdir Hsize Hread Hsig.
  unfold update_blob. rewrite bind_recv.
  change (32 + 64)%nat with 96%nat. fold signed_id.
  rewrite (bool_decide_eq_false_2 (length signed_id ≠ _)) by auto.
  rewrite bind_when_false.
  rewrite bool_decide_eq_false_2 by done. fold id.
  destruct (recv_world 96 w) as (Hfs & _).
  rewrite bind_run. unfold load_blob at 1. rewrite Hfs, Hpk.
  rewrite bind_run, bind_path_exists, Hfs, Hdir, bind_when_false.
  cbn [mret M_ret]. cbn beta iota zeta. rewrite bind_send. fold w1.
  rewrite bind_run, bind_recv. fold pk. rewrite bind_recv. fold prefix.
  rewrite Hsize, bind_lib_Some, bind_run, Hread, bind_verified, Hsig.
  apply sent_fail_failed.
Qed.

(** ... and of one that replaces a record on file. *)
Lemma update_blob_rejects_update w pk blob bsize sb w4 :
  let signed_id := next_bytes 96 w in
  let id := Some (take 32 signed_id) in
  let w1 := set_out (w_out (recv 96 w).2 ++ [blob]) (recv 96 w).2 in
  let prefix := next_bytes 2 w1 in
  length signed_id = 96%nat →
  sum_bytes (take 32 signed_id) ≠ 0 →
  fs_read (w_fs w) id "pub" = Some pk →
  crypto_sign_verify_detached (last_n 64 signed_id) (but_last_n 64 signed_id) pk = true →
  fs_read (w_fs w) id "blob" = Some blob →
  struct_unpack_be 2 prefix = Some bsize →
  read_pkt (Z.to_nat bsize + 64) (recv 2 w1).2 = (Ret sb, w4) →
  crypto_sign_verify_detached (last_n 64 (prefix ++ sb))
    (but_last_n 64 (prefix ++ sb)) pk = false →
  sent_fail (update_blob w).
Proof.
  intros signed_id id w1 prefix Hlen Hsum Hpk Hidsig Hblob Hsize Hread Hsig.
  unfold update_blob. rewrite bind_recv.
  change (32 + 64)%nat with 96%nat. fold signed_id.
  rewrite (bool_decide_eq_false_2 (length signed_id ≠ _)) by auto.
  rewrite bind_when_false.
  rewrite bool_decide_eq_false_2 by done. fold id.
  destruct (recv_world 96 w) as (Hfs & _).
  rewrite bind_run. unfold load_blob at 1. rewrite Hfs, Hpk.
  rewrite bind_run, bind_run. unfold try_except at 1, verify_blob at 1.
  rewrite Hidsig. cbn [mret M_ret].
  rewrite bind_run. unfold load_blob at 1. rewrite Hfs, Hblob.
  cbn [mret M_ret]. cbn beta iota zeta. rewrite bind_send. fold w1.
  rewrite bind_run, bind_recv. fold prefix.
  rewrite Hsize, bind_lib_Some, bind_run, Hread.
  assert (w_fs w4 = w_fs w) as Hfs4.
  { pose proof (fs_const_read_pkt (Z.to_nat bsize + 64) (recv 2 w1).2) as E.
    rewrite Hread in E. cbn [snd] in E. rewrite E.
    destruct (recv_world 2 w1) as (-> & _). done. }
  rewrite bind_run. unfold load_blob at 1. rewrite Hfs4, Hpk.
  unfold try_except, verify_blob. rewrite Hsig.
  unfold raise, is_exn. rewrite bool_decide_eq_true_2 by done. apply sent_fail_failed.
Qed.

(** CHALLENGE_CREATE: the request has 33 bytes for READ, 65 otherwise. *)
Lemma create_challenge_rejects w :
  ¬ wf_request (next_bytes 65 w) → sent_fail (create_challenge w).
Proof.
  intros H. unfold create_challenge. rewrite bind_recv. unfold wf_request in H.
  rewrite bind_run.
  destruct (bool_decide (take 1 (next_bytes 65 w) = READ));
    (rewrite bool_decide_eq_true_2 by done); apply sent_fail_failed.
Qed.

(** [dkg]: the noise key has 32 bytes. *)
Lemma dkg_rejects n t index aux w privkey :
  noisekey_file = Some privkey → length privkey ≠ 32%nat →
  sent_fail (dkg n t index aux w).
Proof.
  intros Hfile Hlen. unfold dkg. rewrite Hfile, bind_lib_Some.
  rewrite bool_decide_eq_true_2 by done. failed_here.
Qed.

(** CHALLENGE_VERIFY: the challenge [n | k | ts[8] | sig[32]] ... *)
Lemma verify_challenge_rejects w :
  length (next_bytes 42 w) ≠ 42%nat → sent_fail (verify_challenge w).
Proof.
  intros H. unfold verify_challenge. rewrite bind_recv.
  change (1 + 1 + 8 + 32)%nat with 42%nat.
  rewrite bool_decide_eq_true_2 by done. failed_here.
Qed.

(** ... the request and the MAC key ... *)
Lemma verify_challenge_parsed w nb kb ts8 sig :
  next_bytes 42 w = nb :: kb :: ts8 ++ sig →
  length ts8 = 8%nat → length sig = 32%nat →
  let op := next_bytes 1 (recv 42 w).2 in
  let size := if bool_decide (take 1 op = READ) then 32%nat else 64%nat in
  let payload := next_bytes size (recv 1 (recv 42 w).2).2 in
  let w3 := (recv size (recv 1 (recv 42 w).2).2).2 in
  verify_challenge w =
    if bool_decide (length payload ≠ size) then (Exit, failed w3) else
    (key ← load_blob None "key" (Some 32%nat);
     match key with
     | None | Some [] => fail
     | Some key =>
         let mac := crypto_generichash key ((op ++ payload) ++ nb :: kb :: ts8) in
         when (bool_decide (xor_sum mac sig ≠ 0)) fail;;
         now ← timestamp;
         timeout ← lib KeyError (RL_Timeouts !! (byte_to_Z nb, byte_to_Z kb));
         when (Qgtb (now - inject_Z (timeout + rl_gracetime)) (inject_Z (le_value ts8)))
           fail;;
         let solsize := equihash_solsize (byte_to_Z nb) (byte_to_Z kb) in
         solution ← recv solsize;
         when (bool_decide (length solution ≠ solsize)) fail;;
         let seed := (nb :: kb :: ts8 ++ sig) ++ op ++ payload in
         when (negb (equihash_verify (byte_to_Z nb) (byte_to_Z kb) seed solution)) fail;;
         handler (op ++ payload)
     end) w3.
Proof.
  intros Hc Hts Hsig op size payload w3.
  unfold verify_challenge. rewrite bind_recv.
  change (1 + 1 + 8 + 32)%nat with 42%nat. rewrite Hc.
  rewrite bool_decide_eq_false_2 by (cbn [length]; rewrite length_app; lia).
  rewrite bind_when_false.
  unfold pop. cbn [take drop head]. rewrite bind_lib_Some. cbn beta.
  rewrite bind_lib_Some. cbn beta.
  rewrite !drop_0.
  rewrite (take_app_length' ts8 sig 8) by lia.
  rewrite struct_unpack_ok by done. rewrite bind_lib_Some. cbn beta.
  rewrite (drop_app_length' ts8 sig 8) by lia.
  rewrite (take_ge sig) by lia.
  rewrite bind_recv. fold op.
  rewrite bind_run.
  unfold size, payload, w3, size.
  destruct (bool_decide (take 1 op = READ)).
  - rewrite bind_recv, bind_run.
    destruct (bool_decide (length _ ≠ 32%nat)); reflexivity.
  - rewrite bind_recv, bind_run.
    destruct (bool_decide (length _ ≠ 64%nat)); reflexivity.
Qed.

Lemma verify_challenge_rejects_request w nb kb ts8 sig :
  let op := next_bytes 1 (recv 42 w).2 in
  let size := if bool_decide (take 1 op = READ) then 32%nat else 64%nat in
  let payload := next_bytes size (recv 1 (recv 42 w).2).2 in
  next_bytes 42 w = nb :: kb :: ts8 ++ sig →
  length ts8 = 8%nat → length sig = 32%nat →
  length payload ≠ size ∨ fs_read (w_fs w) None "key" = None →
  sent_fail (verify_challenge w).
Proof.
  intros op size payload Hc Hts Hsig H.
  rewrite (verify_challenge_parsed w nb kb ts8 sig) by done.
  fold op size payload. case_bool_decide as Hlen; [apply sent_fail_failed|].
  destruct H as [?|H]; [done|].
  rewrite bind_run. unfold load_blob.
  destruct (recv_world size (recv 1 (recv 42 w).2).2) as (-> & _).
  destruct (recv_world 1 (recv 42 w).2) as (-> & _).
  destruct (recv_world 42 w) as (-> & _).
  rewrite H. apply sent_fail_failed.
Qed.

(** ... and the MAC, the age and the solution. *)
Lemma verify_challenge_rejects_challenge w nb kb ts8 sig key :
  let op := next_bytes 1 (recv 42 w).2 in
  let size := if bool_decide (take 1 op = READ) then 32%nat else 64%nat in
  let payload := next_bytes size (recv 1 (recv 42 w).2).2 in
  let solsize := equihash_solsize (byte_to_Z nb) (byte_to_Z kb) in
  let solution := next_bytes solsize (recv size (recv 1 (recv 42 w).2).2).2 in
  next_bytes 42 w = nb :: kb :: ts8 ++ sig →
  length ts8 = 8%nat → length sig = 32%nat →
  length payload = size →
  fs_read (w_fs w) None "key" = Some key → length key = 32%nat →
  xor_sum (crypto_generichash key ((op ++ payload) ++ nb :: kb :: ts8)) sig ≠ 0 ∨
  (∃ timeout,
     RL_Timeouts !! (byte_to_Z nb, byte_to_Z kb) = Some timeout ∧
     ((inject_Z (timeout + rl_gracetime) < w_now w - inject_Z (le_value ts8))%Q ∨
      length solution ≠ solsize ∨
      equihash_verify (byte_to_Z nb) (byte_to_Z kb)
        ((nb :: kb :: ts8 ++ sig) ++ op ++ payload) solution = false)) →
  sent_fail (verify_challenge w).
Proof.
  intros op size payload solsize solution Hc Hts Hsig Hplen Hkey Hklen H.
  rewrite (verify_challenge_parsed w nb kb ts8 sig) by done.
  fold op size payload. rewrite bool_decide_eq_false_2 by auto.
  set (w3 := (recv size _).2) in *.
  assert (w_fs w3 = w_fs w ∧ w_now w3 = w_now w) as [Hfs Hnow].
  { unfold w3, recv. by repeat (destruct (w_in _); cbn). }
  rewrite (bind_load_blob _ _ _ key) by (by rewrite ?Hfs).
  destruct key as [|k0 key']; [discriminate Hklen|].
  cbn zeta.
  case_bool_decide as Hmac; [failed_here|].
  destruct H as [?|(timeout & Htime & H)]; [done|].
  rewrite bind_when_false, bind_timestamp, Htime, bind_lib_Some, Hnow.
  destruct (Qgtb _ _) eqn:Hage; [failed_here|].
  rewrite bind_when_false, bind_recv. fold solsize solution.
  case_bool_decide as Hslen; [failed_here|].
  rewrite bind_when_false.
  destruct (equihash_verify _ _ _ _) eqn:Heq; cbn [negb]; [|failed_here].
  exfalso. destruct H as [Hlt|[?|?]]; try done.
  apply Qgtb_false in Hage. lra.
Qed.

(** ** Errors that are not checks

    What the code does not test surfaces as a Python exception; nothing
    catches it, [fail] is not called, and the worker ends in the [finally]
    clause of [main]. *)

(** A stored blob whose size is not the one [load_blob] is asked for. *)
Lemma load_blob_raises p f n v w :
  fs_read (w_fs w) p f = Some v → length v ≠ S n →
  load_blob p f (Some (S n)) w = (Raise ValueError, w).
Proof. intros Hv Hlen. unfold load_blob. rewrite Hv. by rewrite decide_True. Qed.

Lemma auth_corrupt id alpha w pk :
  fs_read (w_fs w) id "pub" = Some pk → length pk ≠ 32%nat →
  auth id alpha w = (Raise ValueError, w).
Proof.
  intros Hpk Hlen. unfold auth. rewrite bind_run.
  by rewrite (load_blob_raises _ _ 31 pk).
Qed.

(** A host-record length prefix of fewer than two bytes: [struct.unpack]
    raises.  The two zero bytes that announce a new record (or the record
    on file) are the last thing sent. *)
Lemma update_blob_short_prefix_new w :
  let signed_id := next_bytes 96 w in
  let id := Some (take 32 signed_id) in
  let w1 := set_out (w_out (recv 96 w).2 ++ [["000"; "000"]%byte]) (recv 96 w).2 in
  length signed_id = 96%nat →
  sum_bytes (take 32 signed_id) ≠ 0 →
  fs_read (w_fs w) id "pub" = None → dir_exists (w_fs w) id = false →
  length (next_bytes 2 (recv 32 w1).2) ≠ 2%nat →
  update_blob w = (Raise StructError, (recv 2 (recv 32 w1).2).2).
Proof.
  intros signed_id id w1 Hlen Hsum Hpk Hdir Hshort.
  unfold update_blob. rewrite bind_recv.
  change (32 + 64)%nat with 96%nat. fold signed_id.
  rewrite (bool_decide_eq_false_2 (length signed_id ≠ _)) by auto.
  rewrite bind_when_false.
  rewrite bool_decide_eq_false_2 by done. fold id.
  destruct (recv_world 96 w) as (Hfs & _).
  rewrite bind_run. unfold load_blob at 1. rewrite Hfs, Hpk.
  rewrite bind_run, bind_path_exists, Hfs, Hdir, bind_when_false.
  cbn [mret M_ret]. cbn beta iota zeta. rewrite bind_send. fold w1.
  rewrite bind_run, bind_recv, bind_recv.
  unfold struct_unpack_be. rewrite decide_False by done.
  by rewrite bind_lib_None.
Qed.

Lemma update_blob_short_prefix_update w pk blob :
  let signed_id := next_bytes 96 w in
  let id := Some (take 32 signed_id) in
  let w1 := set_out (w_out (recv 96 w).2 ++ [blob]) (recv 96 w).2 in
  length signed_id = 96%nat →
  sum_bytes (take 32 signed_id) ≠ 0 →
  fs_read (w_fs w) id "pub" = Some pk →
  crypto_sign_verify_detached (last_n 64 signed_id) (but_last_n 64 signed_id) pk = true →
  fs_read (w_fs w) id "blob" = Some blob →
  length (next_bytes 2 w1) ≠ 2%nat →
  update_blob w = (Raise StructError, (recv 2 w1).2).
Proof.
  intros signed_id id w1 Hlen Hsum Hpk Hidsig Hblob Hshort.
  unfold update_blob. rewrite bind_recv.
  change (32 + 64)%nat with 96%nat. fold signed_id.
  rewrite (bool_decide_eq_false_2 (length signed_id ≠ _)) by auto.
  rewrite bind_when_false.
  rewrite bool_decide_eq_false_2 by done. fold id.
  destruct (recv_world 96 w) as (Hfs & _).
  rewrite bind_run. unfold load_blob at 1. rewrite Hfs, Hpk.
  rewrite bind_run, bind_run. unfold try_except at 1, verify_blob at 1.
  rewrite Hidsig. cbn [mret M_ret].
  rewrite bind_run. unfold load_blob at 1. rewrite Hfs, Hblob.
  cbn [mret M_ret]. cbn beta iota zeta. rewrite bind_send. fold w1.
  rewrite bind_run, bind_recv.
  unfold struct_unpack_be. rewrite decide_False by done.
  by rewrite bind_lib_None.
Qed.

(** The parameters [t | n | index] of CHANGE_DKG, read with [x[0]] from a
    message of fewer than three bytes: [IndexError].  The marker of [auth]
    is the last thing sent. *)
Lemma auth_Ret_last id alpha w w1 :
  auth id alpha w = (Ret tt, w1) → last (w_out w1) = Some auth_marker.
Proof.
  unfold auth. rewrite bind_run. unfold load_blob at 1.
  destruct (fs_read (w_fs w) id "pub") as [pk|]; [|done].
  destruct (decide (length pk ≠ 32%nat)); [done|].
  rewrite bind_randombytes, bind_run. unfold load_blob at 1. cbn [w_fs set_rpos].
  assert (∀ beta w0,
    (send beta;;
     sig ← recv 64;
     if crypto_sign_verify_detached sig (fresh_bytes 32 w) pk
     then send auth_marker else fail) w0 = (Ret tt, w1) →
    last (w_out w1) = Some auth_marker) as Hrest.
  { intros beta w0. rewrite bind_send, bind_recv.
    destruct (crypto_sign_verify_detached _ _ _); [|done].
    intros [= <-]. cbn [w_out set_out]. by rewrite last_snoc. }
  destruct (fs_read (w_fs w) id "key") as [k|].
  - rewrite bind_run. unfold try_except. rewrite bind_run.
    destruct (head k) as [k0|]; cbn [lib mret M_ret raise any_exn]; [|done].
    rewrite bind_run.
    destruct (oprf_evaluate (drop 1 k) alpha) as [e|];
      cbn [lib mret M_ret raise any_exn]; [|done].
    apply Hrest.
  - rewrite bind_ret. apply Hrest.
Qed.

Lemma change_dkg_short_parameters msg w w1 :
  drop 32 (drop 32 (drop 1 msg)) = [] →
  dir_exists (w_fs w) (req_id msg) = true →
  auth (req_id msg) (req_alpha msg) w = (Ret tt, w1) →
  (length (next_bytes 35 w1) < 3)%nat →
  change_dkg msg w = (Raise IndexError, (recv 35 w1).2) ∧
  last (w_out (recv 35 w1).2) = Some auth_marker.
Proof.
  intros Htr Hdir Hauth Hshort. split.
  - unfold change_dkg, pop. fold (req_id msg) (req_alpha msg).
    rewrite Htr, bool_decide_eq_false_2 by auto.
    rewrite bind_when_false, bind_path_exists, Hdir. cbn [negb].
    rewrite bind_when_false, bind_run, Hauth, bind_recv.
    destruct (next_bytes 35 w1) as [|t [|n [|index alpha]]]; try (cbn in Hshort; lia).
    + reflexivity.
    + rewrite bind_pop_int. reflexivity.
    + rewrite !bind_pop_int. reflexivity.
  - destruct (recv_world 35 w1) as (_ & -> & _). by eapply auth_Ret_last.
Qed.

(** A file operation that fails. *)
Lemma save_blob_raises p f b w :
  dir_exists (w_fs w) p = false → save_blob p f b w = (Raise FileNotFoundError, w).
Proof. intros H. unfold save_blob. by rewrite H. Qed.

(** CHALLENGE_CREATE on a machine whose data directory does not exist:
    the first rate-limit context is not written (this one exception is
    caught), the MAC key cannot be written, and the challenge is not sent. *)
Lemma create_challenge_no_datadir w :
  let req := next_bytes 65 w in
  wf_request req →
  fs_read (w_fs w) (req_id req) "difficulty" = None →
  dir_exists (w_fs w) (req_id req) = false →
  fs_read (w_fs w) None "key" = None →
  dir_exists (w_fs w) None = false →
  0 ≤ int_of_Q (w_now w) < 2 ^ 32 →
  create_challenge w =
    (Raise FileNotFoundError, set_rpos (w_rpos (recv 65 w).2 + 32) (recv 65 w).2).
Proof.
  intros req Hreq Hdiff Hdir Hkey Hdata Hnow.
  unfold create_challenge. rewrite bind_recv. fold req.
  destruct (recv_world 65 w) as (Hfs & _).
  assert (w_now (recv 65 w).2 = w_now w) as Hclock.
  { unfold recv. by destruct (w_in w). }
  set (w1 := (recv 65 w).2) in *.
  rewrite bind_run.
  assert (Hframe : ∀ w0,
    (if bool_decide (take 1 req = READ)
     then when (bool_decide (length req ≠ 33%nat)) fail
     else when (bool_decide (length req ≠ 65%nat)) fail) w0 = (Ret tt, w0)).
  { intros w0. unfold wf_request in Hreq. case_bool_decide;
      rewrite bool_decide_eq_false_2 by lia; reflexivity. }
  rewrite Hframe. rewrite bind_timestamp. fold (req_id req).
  rewrite bind_run. unfold load_blob at 1. rewrite Hfs, Hdiff.
  cbn beta iota.
  change (difficulty_at 0) with (Some (Difficulty 60 4 1)).
  rewrite bind_assoc, bind_lib_Some, bind_ret. cbn beta iota.
  cbn [d_n d_k].
  change (2 ^ 32) with 4294967296 in *. rewrite Hclock.
  rewrite (struct_pack_ok 1 0) by (cbn; lia).
  rewrite (struct_pack_ok 4 0) by (cbn; lia).
  rewrite (struct_pack_ok 4 (int_of_Q (w_now w))) by (cbn; lia).
  rewrite (struct_pack_ok 8 (int_of_Q (w_now w))) by (cbn; lia).
  do 3 (rewrite bind_lib_Some; cbn beta).
  rewrite bind_run. unfold try_except, save_blob at 1. rewrite Hfs, Hdir.
  unfold is_exn at 1. rewrite bool_decide_eq_true_2 by done.
  cbn [mret M_ret].
  change (bytes_of_ints [60; 4]) with (Some [Z_to_byte 60; Z_to_byte 4]).
  rewrite bind_lib_Some. cbn beta. rewrite bind_lib_Some. cbn beta.
  rewrite bind_run. unfold load_blob at 1. rewrite Hfs, Hkey.
  rewrite bind_run, bind_randombytes, bind_run.
  unfold save_blob. cbn [w_fs set_rpos]. rewrite Hfs, Hdata. reflexivity.
Qed.

(** The worker after an exception: the [finally] clause closes the
    connection, and that is all. *)
Lemma worker_raises w e w' :
  ratelimit w = (Raise e, w') → worker w = (Raise e, set_open false w').
Proof. intros H. unfold worker. by rewrite H. Qed.

End ErrorSites.

(** * The fail marker *)

Section MarkerTheorem.
Context {C : Consts} {cfg : Config} {P : Primitives}.

(** C9 (as the code has it).  The marker 00 04 "fail" is what [fail] sends:
    after it the socket is closed and the process left.

    - Every way an operation leaves the process before its end is [fail].
    - [fail] is what the explicit checks of the code call.  Operation by
      operation, for every request, store and connection: the length of a
      CREATE or CREATE_DKG request, an account that exists already, a failed
      OPRF evaluation, the length and the signature of the signed record
      (CREATE, CREATE_DKG, CHANGE, CHANGE_DKG); trailing bytes and an unknown
      account (GET, CHANGE, CHANGE_DKG, DELETE, COMMIT, UNDO); a missing
      [rules] in GET; no [pub], a failed evaluation or a bad signature in
      [auth]; the length of the new blinded element in CHANGE; a blob
      missing among the six of COMMIT and UNDO; the length and the signature
      of the host id and the signature of the host record in [update_blob],
      and a host directory without [pub] or a [pub] without [blob]; the
      length of the request in CHALLENGE_CREATE; the lengths of challenge,
      request and solution, a missing MAC key, a bad MAC, a stale challenge
      and a bad solution in CHALLENGE_VERIFY; the length of the noise key in
      [dkg].  The later checks of an operation are stated for the runs that
      reach them.
    - What is not a check is not answered with the marker.  A stored blob
      whose size is not the one asked for makes [load_blob] raise
      [ValueError]; a host-record length prefix of fewer than two bytes
      makes [struct.unpack] raise; CHANGE_DKG parameters of fewer than three
      bytes raise [IndexError]; a missing data directory raises
      [FileNotFoundError].  Nothing catches these: the [finally] clause of
      the worker closes the connection, and the last thing sent, if any, is
      an ordinary protocol message. *)
Theorem fail_marker_on_errors :
  (* leaving the process *)
  ((∀ w, sent_fail (fail (A := unit) w)) ∧
   (∀ msg, exits_by_fail (create msg)) ∧
   (∀ msg, exits_by_fail (create_dkg msg)) ∧
   (∀ msg, exits_by_fail (get msg)) ∧
   (∀ msg, exits_by_fail (change msg)) ∧
   (∀ msg, exits_by_fail (change_dkg msg)) ∧
   (∀ msg, exits_by_fail (delete msg)) ∧
   (∀ new old msg, exits_by_fail (commit_undo new old msg)) ∧
   (∀ msg, exits_by_fail (read msg)) ∧
   (∀ id alpha, exits_by_fail (auth id alpha)) ∧
   (∀ n t index aux, exits_by_fail (dkg n t index aux)) ∧
   exits_by_fail update_blob ∧
   exits_by_fail create_challenge) ∧
  (* the checks *)
  ((* CREATE *)
   (∀ msg w,
      let signed := next_bytes (32 + RULE_SIZE + 64) w in
      length msg ≠ 65%nat ∨
      dir_exists (w_fs w) (req_id msg) = true ∨
      oprf_evaluate (fresh_bytes 32 w) (req_alpha msg) = None ∨
      length signed ≠ (32 + RULE_SIZE + 64)%nat ∨
      crypto_sign_verify_detached (last_n 64 signed) (but_last_n 64 signed)
        (take 32 signed) = false →
      sent_fail (create msg w)) ∧
   (* CREATE_DKG *)
   (∀ msg w,
      length msg ≠ 68%nat ∨
      dir_exists (w_fs w) (Some (take 32 (drop 4 msg))) = true →
      sent_fail (create_dkg msg w)) ∧
   (∀ op index t n id alpha w xi w2,
      let msg := op :: index :: t :: n :: id ++ alpha in
      let signed := next_bytes (32 + RULE_SIZE + 64) w2 in
      length id = 32%nat → length alpha = 32%nat →
      dir_exists (w_fs w) (Some id) = false →
      dkg (N.to_nat (Byte.to_N n)) (N.to_nat (Byte.to_N t))
        (N.to_nat (Byte.to_N index)) (op :: alpha) w = (Ret xi, w2) →
      oprf_evaluate (drop 1 xi) alpha = None ∨
      xi ≠ [] ∧
      (length signed ≠ (32 + RULE_SIZE + 64)%nat ∨
       crypto_sign_verify_detached (last_n 64 signed) (but_last_n 64 signed)
         (take 32 signed) = false) →
      sent_fail (create_dkg msg w)) ∧
   (* GET *)
   (∀ msg w,
      drop 32 (drop 32 (drop 1 msg)) ≠ [] ∨
      fs_read (w_fs w) (req_id msg) "key" = None →
      sent_fail (get msg w)) ∧
   (∀ msg w k,
      drop 32 (drop 32 (drop 1 msg)) = [] →
      fs_read (w_fs w) (req_id msg) "key" = Some k → length k = 33%nat →
      fs_read (w_fs w) (req_id msg) "rules" = None ∨
      (∃ rules, fs_read (w_fs w) (req_id msg) "rules" = Some rules ∧
                well_sized (Some RULE_SIZE) rules ∧
                oprf_evaluate (drop 1 k) (req_alpha msg) = None) →
      sent_fail (get msg w)) ∧
   (* auth *)
   (∀ id alpha w,
      fs_read (w_fs w) id "pub" = None → sent_fail (auth id alpha w)) ∧
   (∀ id alpha w pk,
      fs_read (w_fs w) id "pub" = Some pk → length pk = 32%nat →
      (∃ k, fs_read (w_fs w) id "key" = Some k ∧
            (k = [] ∨ oprf_evaluate (drop 1 k) alpha = None)) ∨
      crypto_sign_verify_detached (next_bytes 64 w) (fresh_bytes 32 w) pk = false →
      sent_fail (auth id alpha w)) ∧
   (* CHANGE, CHANGE_DKG, DELETE, COMMIT, UNDO: framing and account *)
   (∀ msg w,
      drop 32 (drop 32 (drop 1 msg)) ≠ [] ∨
      dir_exists (w_fs w) (req_id msg) = false →
      sent_fail (change msg w) ∧ sent_fail (change_dkg msg w) ∧
      sent_fail (delete msg w) ∧
      ∀ new old, sent_fail (commit_undo new old msg w)) ∧
   (* CHANGE after auth *)
   (∀ msg w w1,
      let alpha := next_bytes 32 w1 in
      let blob := next_bytes (32 + RULE_SIZE + 64) (recv 32 w1).2 in
      drop 32 (drop 32 (drop 1 msg)) = [] →
      dir_exists (w_fs w) (req_id msg) = true →
      auth (req_id msg) (req_alpha msg) w = (Ret tt, w1) →
      length alpha ≠ 32%nat ∨
      oprf_evaluate (fresh_bytes 32 w1) alpha = None ∨
      length blob ≠ (32 + RULE_SIZE + 64)%nat ∨
      crypto_sign_verify_detached (last_n 64 blob) (but_last_n 64 blob)
        (take 32 blob) = false →
      sent_fail (change msg w)) ∧
   (* CHANGE_DKG after auth and the DKG *)
   (∀ msg w w1 t n index alpha xi w3,
      let blob := next_bytes (32 + RULE_SIZE + 64) w3 in
      drop 32 (drop 32 (drop 1 msg)) = [] →
      dir_exists (w_fs w) (req_id msg) = true →
      auth (req_id msg) (req_alpha msg) w = (Ret tt, w1) →
      next_bytes 35 w1 = t :: n :: index :: alpha →
      dkg (N.to_nat (Byte.to_N n)) (N.to_nat (Byte.to_N t))
        (N.to_nat (Byte.to_N index)) (take 1 msg ++ req_alpha msg) (recv 35 w1).2
        = (Ret xi, w3) →
      oprf_evaluate (drop 1 xi) alpha = None ∨
      xi ≠ [] ∧
      (length blob ≠ (32 + RULE_SIZE + 64)%nat ∨
       crypto_sign_verify_detached (last_n 64 blob) (but_last_n 64 blob)
         (take 32 blob) = false) →
      sent_fail (change_dkg msg w)) ∧
   (* COMMIT and UNDO after auth: a missing blob *)
   (∀ new old msg w w1,
      drop 32 (drop 32 (drop 1 msg)) = [] →
      dir_exists (w_fs w) (req_id msg) = true →
      auth (req_id msg) (req_alpha msg) w = (Ret tt, w1) →
      (∀ b, fs_read (w_fs w) (req_id msg) ("rules." +:+ new) = Some b →
            well_sized (Some RULE_SIZE) b) →
      (∀ b, fs_read (w_fs w) (req_id msg) "rules" = Some b →
            well_sized (Some RULE_SIZE) b) →
      (∀ b, fs_read (w_fs w) (req_id msg) ("pub." +:+ new) = Some b →
            length b = 32%nat) →
      (∀ b, fs_read (w_fs w) (req_id msg) "pub" = Some b → length b = 32%nat) →
      (∀ b, fs_read (w_fs w) (req_id msg) new = Some b → length b = 33%nat) →
      (∃ f, f ∈ six_blobs new ∧ fs_read (w_fs w) (req_id msg) f = None) →
      sent_fail (commit_undo new old msg w)) ∧
   (* update_blob *)
   (∀ w,
      let signed_id := next_bytes 96 w in
      let id := Some (take 32 signed_id) in
      length signed_id ≠ 96%nat ∨
      sum_bytes (take 32 signed_id) ≠ 0 ∧
      (fs_read (w_fs w) id "pub" = None ∧ dir_exists (w_fs w) id = true ∨
       ∃ pk, fs_read (w_fs w) id "pub" = Some pk ∧
             (crypto_sign_verify_detached (last_n 64 signed_id)
                (but_last_n 64 signed_id) pk = false ∨
              fs_read (w_fs w) id "blob" = None)) →
      sent_fail (update_blob w)) ∧
   (∀ w bsize sb w4,
      let signed_id := next_bytes 96 w in
      let id := Some (take 32 signed_id) in
      let w1 := set_out (w_out (recv 96 w).2 ++ [["000"; "000"]%byte]) (recv 96 w).2 in
      let pk := next_bytes 32 w1 in
      let prefix := next_bytes 2 (recv 32 w1).2 in
      length signed_id = 96%nat →
      sum_bytes (take 32 signed_id) ≠ 0 →
      fs_read (w_fs w) id "pub" = None → dir_exists (w_fs w) id = false →
      struct_unpack_be 2 prefix = Some bsize →
      read_pkt (Z.to_nat bsize + 64) (recv 2 (recv 32 w1).2).2 = (Ret sb, w4) →
      crypto_sign_verify_detached (last_n 64 (pk ++ prefix ++ sb))
        (but_last_n 64 (pk ++ prefix ++ sb)) pk = false →
      sent_fail (update_blob w)) ∧
   (∀ w pk blob bsize sb w4,
      let signed_id := next_bytes 96 w in
      let id := Some (take 32 signed_id) in
      let w1 := set_out (w_out (recv 96 w).2 ++ [blob]) (recv 96 w).2 in
      let prefix := next_bytes 2 w1 in
      length signed_id = 96%nat →
      sum_bytes (take 32 signed_id) ≠ 0 →
      fs_read (w_fs w) id "pub" = Some pk →
      crypto_sign_verify_detached (last_n 64 signed_id) (but_last_n 64 signed_id) pk
        = true →
      fs_read (w_fs w) id "blob" = Some blob →
      struct_unpack_be 2 prefix = Some bsize →
      read_pkt (Z.to_nat bsize + 64) (recv 2 w1).2 = (Ret sb, w4) →
      crypto_sign_verify_detached (last_n 64 (prefix ++ sb))
        (but_last_n 64 (prefix ++ sb)) pk = false →
      sent_fail (update_blob w)) ∧
   (* CHALLENGE_CREATE *)
   (∀ w, ¬ wf_request (next_bytes 65 w) → sent_fail (create_challenge w)) ∧
   (* CHALLENGE_VERIFY *)
   (∀ w, length (next_bytes 42 w) ≠ 42%nat → sent_fail (verify_challenge w)) ∧
   (∀ w nb kb ts8 sig,
      let op := next_bytes 1 (recv 42 w).2 in
      let size := if bool_decide (take 1 op = READ) then 32%nat else 64%nat in
      let payload := next_bytes size (recv 1 (recv 42 w).2).2 in
      next_bytes 42 w = nb :: kb :: ts8 ++ sig →
      length ts8 = 8%nat → length sig = 32%nat →
      length payload ≠ size ∨ fs_read (w_fs w) None "key" = None →
      sent_fail (verify_challenge w)) ∧
   (∀ w nb kb ts8 sig key,
      let op := next_bytes 1 (recv 42 w).2 in
      let size := if bool_decide (take 1 op = READ) then 32%nat else 64%nat in
      let payload := next_bytes size (recv 1 (recv 42 w).2).2 in
      let solsize := equihash_solsize (byte_to_Z nb) (byte_to_Z kb) in
      let solution := next_bytes solsize (recv size (recv 1 (recv 42 w).2).2).2 in
      next_bytes 42 w = nb :: kb :: ts8 ++ sig →
      length ts8 = 8%nat → length sig = 32%nat →
      length payload = size →
      fs_read (w_fs w) None "key" = Some key → length key = 32%nat →
      xor_sum (crypto_generichash key ((op ++ payload) ++ nb :: kb :: ts8)) sig ≠ 0 ∨
      (∃ timeout,
         RL_Timeouts !! (byte_to_Z nb, byte_to_Z kb) = Some timeout ∧
         ((inject_Z (timeout + rl_gracetime) < w_now w - inject_Z (le_value ts8))%Q ∨
          length solution ≠ solsize ∨
          equihash_verify (byte_to_Z nb) (byte_to_Z kb)
            ((nb :: kb :: ts8 ++ sig) ++ op ++ payload) solution = false)) →
      sent_fail (verify_challenge w)) ∧
   (* dkg *)
   (∀ n t index aux w privkey,
      noisekey_file = Some privkey → length privkey ≠ 32%nat →
      sent_fail (dkg n t index aux w))) ∧
  (* errors that are not checks: an exception, no marker *)
  ((∀ p f n v w,
      fs_read (w_fs w) p f = Some v → length v ≠ S n →
      load_blob p f (Some (S n)) w = (Raise ValueError, w)) ∧
   (∀ msg w k,
      drop 32 (drop 32 (drop 1 msg)) = [] →
      fs_read (w_fs w) (req_id msg) "key" = Some k →
      length k ≠ 33%nat →
      get msg w = (Raise ValueError, w)) ∧
   (∀ id alpha w pk,
      fs_read (w_fs w) id "pub" = Some pk → length pk ≠ 32%nat →
      auth id alpha w = (Raise ValueError, w)) ∧
   (∀ w,
      let signed_id := next_bytes 96 w in
      let id := Some (take 32 signed_id) in
      let w1 := set_out (w_out (recv 96 w).2 ++ [["000"; "000"]%byte]) (recv 96 w).2 in
      length signed_id = 96%nat →
      sum_bytes (take 32 signed_id) ≠ 0 →
      fs_read (w_fs w) id "pub" = None → dir_exists (w_fs w) id = false →
      length (next_bytes 2 (recv 32 w1).2) ≠ 2%nat →
      update_blob w = (Raise StructError, (recv 2 (recv 32 w1).2).2)) ∧
   (∀ w pk blob,
      let signed_id := next_bytes 96 w in
      let id := Some (take 32 signed_id) in
      let w1 := set_out (w_out (recv 96 w).2 ++ [blob]) (recv 96 w).2 in
      length signed_id = 96%nat →
      sum_bytes (take 32 signed_id) ≠ 0 →
      fs_read (w_fs w) id "pub" = Some pk →
      crypto_sign_verify_detached (last_n 64 signed_id) (but_last_n 64 signed_id) pk
        = true →
      fs_read (w_fs w) id "blob" = Some blob →
      length (next_bytes 2 w1) ≠ 2%nat →
      update_blob w = (Raise StructError, (recv 2 w1).2)) ∧
   (∀ msg w w1,
      drop 32 (drop 32 (drop 1 msg)) = [] →
      dir_exists (w_fs w) (req_id msg) = true →
      auth (req_id msg) (req_alpha msg) w = (Ret tt, w1) →
      (length (next_bytes 35 w1) < 3)%nat →
      change_dkg msg w = (Raise IndexError, (recv 35 w1).2) ∧
      last (w_out (recv 35 w1).2) = Some auth_marker) ∧
   (∀ p f b w,
      dir_exists (w_fs w) p = false →
      save_blob p f b w = (Raise FileNotFoundError, w)) ∧
   (∀ w,
      let req := next_bytes 65 w in
      wf_request req →
      fs_read (w_fs w) (req_id req) "difficulty" = None →
      dir_exists (w_fs w) (req_id req) = false →
      fs_read (w_fs w) None "key" = None →
      dir_exists (w_fs w) None = false →
      0 ≤ int_of_Q (w_now w) < 2 ^ 32 →
      create_challenge w =
        (Raise FileNotFoundError,
         set_rpos (w_rpos (recv 65 w).2 + 32) (recv 65 w).2)) ∧
   (∀ w e w',
      ratelimit w = (Raise e, w') → worker w = (Raise e, set_open false w'))).
Proof.
  split_and!.
  - intros w. apply sent_fail_failed.
  - apply exits_create.
  - apply exits_create_dkg.
  - apply exits_get.
  - apply exits_change.
  - apply exits_change_dkg.
  - apply exits_delete.
  - apply exits_commit_undo.
  - apply exits_read.
  - apply exits_auth.
  - apply exits_dkg.
  - apply exits_update_blob.
  - apply exits_create_challenge.
  - apply create_rejects.
  - apply create_dkg_rejects.
  - apply create_dkg_rejects_record.
  - apply get_rejects.
  - apply get_rejects_record.
  - apply auth_rejects.
  - apply auth_rejects_client.
  - intros msg w H. split_and!.
    + by apply change_rejects.
    + by apply change_dkg_rejects.
    + by apply delete_rejects.
    + intros new old. by apply commit_undo_rejects.
  - apply change_rejects_client.
  - apply change_dkg_rejects_client.
  - apply commit_undo_rejects_missing.
  - apply update_blob_rejects.
  - apply update_blob_rejects_new.
  - apply update_blob_rejects_update.
  - apply create_challenge_rejects.
  - apply verify_challenge_rejects.
  - apply verify_challenge_rejects_request.
  - apply verify_challenge_rejects_challenge.
  - apply dkg_rejects.
  - apply load_blob_raises.
  - intros. by eapply get_corrupt.
  - apply auth_corrupt.
  - apply update_blob_short_prefix_new.
  - apply update_blob_short_prefix_update.
  - apply change_dkg_short_parameters.
  - apply save_blob_raises.
  - apply create_challenge_no_datadir.
  - apply worker_raises.
Qed.

End MarkerTheorem.

(** On the demo instance: CREATE with a request of the wrong length, GET
    for an account that does not exist, COMMIT with nothing staged. *)
Lemma fail_marker_on_errors_witness :
  sent_fail (create (C := demo_consts) (P := demo_primitives) [x00] demo_create_world) ∧
  sent_fail (get (C := demo_consts) (P := demo_primitives) demo_get_req demo_get_conn) ∧
  sent_fail (commit_undo (C := demo_consts) (P := demo_primitives) "new" "old"
               demo_commit_msg demo_live_world).
Proof.
  destruct (fail_marker_on_errors (C := demo_consts) (cfg := demo_config)
              (P := demo_primitives))
    as (_ & (Hcreate & _ & _ & Hget & _ & _ & _ & _ & _ & _ & Hshadow & _) & _).
  split_and!.
  - apply Hcreate. left. vm_compute. discriminate.
  - apply Hget. right. vm_compute. reflexivity.
  - apply (Hshadow "new" "old" demo_commit_msg demo_live_world
             (auth (P := demo_primitives) (req_id demo_commit_msg)
                (req_alpha demo_commit_msg) demo_live_world).2).
    + vm_compute. reflexivity.
    + vm_compute. reflexivity.
    + apply run_eq. vm_compute. reflexivity.
    + intros b. vm_compute. discriminate.
    + intros b. vm_compute. intros [= <-]. reflexivity.
    + intros b. vm_compute. discriminate.
    + intros b. vm_compute. intros [= <-]. reflexivity.
    + intros b. vm_compute. discriminate.
    + exists "rules.new". split; [|vm_compute; reflexivity].
      apply list_elem_of_here.
Defined.

(** C9, as stated, fails for storage corruption, for I/O failure and for
    wrong lengths that no check tests.  Four connections on the demo
    instance: CHALLENGE_VERIFY carrying GET for an account whose key file
    has 32 bytes; CHALLENGE_CREATE on a machine without data directory;
    CREATE whose host record announces its length with a single byte;
    CHALLENGE_VERIFY carrying CHANGE_DKG whose parameters are two bytes.
    The worker ends with an exception, the socket is closed by the
    [finally] clause, and the marker was not sent: nothing was, or the last
    message is the one the protocol sends at that point. *)
Lemma fail_marker_counterexample :
  (fs_read (w_fs demo_corrupt_world) (Some demo_id) "key" = Some (replicate 32 x07) ∧
   (worker (C := demo_consts) (cfg := demo_config) (P := demo_primitives)
      demo_corrupt_world).1 = Raise ValueError ∧
   w_out (worker (C := demo_consts) (cfg := demo_config) (P := demo_primitives)
            demo_corrupt_world).2 = [] ∧
   w_open (worker (C := demo_consts) (cfg := demo_config) (P := demo_primitives)
             demo_corrupt_world).2 = false) ∧
  ((worker (C := demo_consts) (cfg := demo_config) (P := demo_primitives)
      demo_nodir_world).1 = Raise FileNotFoundError ∧
   w_out (worker (C := demo_consts) (cfg := demo_config) (P := demo_primitives)
            demo_nodir_world).2 = [] ∧
   w_open (worker (C := demo_consts) (cfg := demo_config) (P := demo_primitives)
             demo_nodir_world).2 = false) ∧
  ((worker (C := demo_consts) (cfg := demo_config) (P := demo_primitives)
      demo_short_prefix_world).1 = Raise StructError ∧
   w_out (worker (C := demo_consts) (cfg := demo_config) (P := demo_primitives)
            demo_short_prefix_world).2 =
     [demo_xor (replicate 32 x09) demo_alpha; [x00; x00]] ∧
   w_open (worker (C := demo_consts) (cfg := demo_config) (P := demo_primitives)
             demo_short_prefix_world).2 = false) ∧
  ((worker (C := demo_consts) (cfg := demo_config) (P := demo_primitives)
      demo_short_params_world).1 = Raise IndexError ∧
   w_out (worker (C := demo_consts) (cfg := demo_config) (P := demo_primitives)
            demo_short_params_world).2 =
     [(x00 :: demo_xor (replicate 32 x07) demo_alpha) ++ demo_nonce; auth_marker] ∧
   w_open (worker (C := demo_consts) (cfg := demo_config) (P := demo_primitives)
             demo_short_params_world).2 = false).
Proof.
  split_and!; vm_compute; reflexivity.
Qed.

(** * Reading a packet *)

Lemma recv_cons n c rest w :
  w_in w = c :: rest →
  recv n w = (Ret (take n c),
              set_in (match drop n c with [] => rest | r => r :: rest end) w).
Proof. intros E. unfold recv. by rewrite E. Qed.

Lemma concat_after_recv (n : nat) (c : bytes) (rest : list bytes) :
  concat (match drop n c with [] => rest | r => r :: rest end) = drop n c ++ concat rest.
Proof. by destruct (drop n c). Qed.

Lemma length_after_recv (n : nat) (c : bytes) (rest : list bytes) :
  (0 < n)%nat →
  (length (match drop n c with [] => rest | r => r :: rest end) +
   length (drop n c ++ concat rest) < length (c :: rest) + length (c ++ concat rest))%nat.
Proof.
  intros Hn. rewrite !length_app. cbn [length].
  destruct (drop n c) as [|b r] eqn:E.
  - cbn [length]. lia.
  - assert (length (drop n c) = S (length r)) as Hl by (by rewrite E).
    rewrite length_drop in Hl. cbn [length]. lia.
Qed.

Lemma take_after_recv (n m : nat) (c k : bytes) :
  m = (n - n `min` length c)%nat →
  take n c ++ take m (drop n c ++ k) = take n (c ++ k).
Proof.
  intros ->. rewrite (take_app c k n). f_equal.
  destruct (decide (length c ≤ n)%nat).
  - rewrite (drop_ge c n) by lia. cbn [app]. f_equal. lia.
  - replace (n - n `min` length c)%nat with 0%nat by lia.
    replace (n - length c)%nat with 0%nat by lia. by rewrite !take_0.
Qed.

Lemma drop_after_recv (n m : nat) (c k : bytes) :
  m = (n - n `min` length c)%nat →
  drop m (drop n c ++ k) = drop n (c ++ k).
Proof.
  intros ->. rewrite (drop_app c k n).
  destruct (decide (length c ≤ n)%nat).
  - rewrite (drop_ge c n) by lia. cbn [app]. f_equal. lia.
  - replace (n - n `min` length c)%nat with 0%nat by lia.
    replace (n - length c)%nat with 0%nat by lia. by rewrite !drop_0.
Qed.

(** The loop of [read_pkt] with [res] already read, on a stream that
    still holds the missing bytes. *)
Lemma read_pkt_loop_enough fuel size res w :
  (length res ≤ size)%nat →
  (length (w_in w) + length (concat (w_in w)) ≤ fuel)%nat →
  (size - length res ≤ length (concat (w_in w)))%nat →
  ∃ w', read_pkt_loop fuel size res w =
          (Ret (res ++ take (size - length res) (concat (w_in w))), w') ∧
        concat (w_in w') = drop (size - length res) (concat (w_in w)) ∧
        w_fs w' = w_fs w ∧ w_out w' = w_out w ∧ w_open w' = w_open w.
Proof.
  revert res w. induction fuel as [|fuel IH]; intros res w Hres Hfuel Hin.
  - assert (size - length res = 0)%nat as -> by lia.
    exists w. cbn [read_pkt_loop]. rewrite decide_False by lia.
    by rewrite take_0, drop_0, app_nil_r.
  - cbn [read_pkt_loop]. case_decide as Hlt.
    + destruct (w_in w) as [|c rest] eqn:E; [cbn in Hin; lia|].
      rewrite bind_run, (recv_cons _ c rest) by done.
      set (n := (size - length res)%nat) in *.
      cbn [concat] in *.
      assert (length (res ++ take n c) ≤ size)%nat as H1.
      { rewrite length_app, length_take. unfold n. lia. }
      assert (length (w_in (set_in (match drop n c with [] => rest | r => r :: rest end) w)) +
              length (concat (w_in (set_in (match drop n c with [] => rest | r => r :: rest end) w)))
              ≤ fuel)%nat as H2.
      { cbn [w_in set_in]. rewrite concat_after_recv.
        pose proof (length_after_recv n c rest). cbn [length] in *. lia. }
      assert (size - length (res ++ take n c) ≤
              length (concat (w_in (set_in (match drop n c with [] => rest | r => r :: rest end) w))))%nat
        as H3.
      { cbn [w_in set_in]. rewrite concat_after_recv, !length_app, length_drop.
        rewrite length_take. rewrite length_app in Hin. unfold n in *. lia. }
      destruct (IH _ _ H1 H2 H3) as (w' & Hrun & Hc & Hf & Ho & Hop).
      clear H1 H2 H3.
      exists w'. rewrite Hrun. cbn [w_in set_in] in *.
      rewrite concat_after_recv in *.
      rewrite length_app, length_take in *.
      assert (n = size - length res)%nat as Hn by done. clearbody n.
      split_and!; try done.
      * rewrite <- app_assoc, (take_after_recv n _ c (concat rest)) by lia. done.
      * rewrite Hc. apply drop_after_recv. lia.
    + assert (size - length res = 0)%nat as -> by lia.
      exists w. by rewrite take_0, drop_0, app_nil_r.
Qed.

(** The same loop on a stream that ends before the missing bytes have
    come. *)
Lemma read_pkt_loop_short fuel size res w :
  (length (concat (w_in w)) < size - length res)%nat →
  (read_pkt_loop fuel size res w).1 = Hang.
Proof.
  revert res w. induction fuel as [|fuel IH]; intros res w Hin.
  - cbn [read_pkt_loop]. by rewrite decide_True by lia.
  - cbn [read_pkt_loop]. rewrite decide_True by lia.
    destruct (w_in w) as [|c rest] eqn:E; [done|].
    rewrite bind_run, (recv_cons _ c rest) by done.
    apply IH. cbn [w_in set_in]. rewrite concat_after_recv.
    cbn [concat] in Hin. rewrite !length_app, length_drop, length_take.
    rewrite length_app in Hin. lia.
Qed.

(** X1. [read_pkt] returns exactly the next [size] bytes of the stream,
    however they are split into segments, and leaves the rest of the stream,
    the record store and what was sent as they were. *)
Theorem read_pkt_exact size w :
  (size ≤ length (concat (w_in w)))%nat →
  ∃ w', read_pkt size w = (Ret (take size (concat (w_in w))), w') ∧
        concat (w_in w') = drop size (concat (w_in w)) ∧
        w_fs w' = w_fs w ∧ w_out w' = w_out w ∧ w_open w' = w_open w.
Proof.
  intros Hin. unfold read_pkt.
  destruct (read_pkt_loop_enough (length (w_in w) + length (concat (w_in w))) size [] w)
    as (w' & Hrun & H); cbn [length]; try lia.
  exists w'. rewrite Hrun. cbn [length app] in *.
  by rewrite Nat.sub_0_r in *.
Qed.

(** X2. On a stream that ends before [size] bytes have come, [read_pkt] does
    not return: at end of stream [recv] keeps returning the empty string and
    the loop goes on. *)
Theorem read_pkt_short_stream size w :
  (length (concat (w_in w)) < size)%nat →
  (read_pkt size w).1 = Hang.
Proof.
  intros Hin. unfold read_pkt. apply read_pkt_loop_short. cbn [length]. lia.
Qed.

(** * Triples on the record store *)

Section Hoare.
Context {A B : Type}.
Implicit Types (Qe : fsys → Prop).

Lemma hoare_bind (m : M A) (f : A → M B) fs (Qr : B → fsys → Prop) Qe :
  hoare m fs (λ a fs', hoare (f a) fs' Qr Qe) Qe → hoare (m ≫= f) fs Qr Qe.
Proof.
  intros Hm w Hw. rewrite bind_run. specialize (Hm w Hw).
  destruct (m w) as [[a| |e|] w1]; try done. by apply Hm.
Qed.

Lemma hoare_conseq (m : M A) fs (Qr Qr' : A → fsys → Prop) Qe Qe' :
  hoare m fs Qr Qe → (∀ a fs', Qr a fs' → Qr' a fs') → (∀ fs', Qe fs' → Qe' fs') →
  hoare m fs Qr' Qe'.
Proof.
  intros Hm Hr He w Hw. specialize (Hm w Hw).
  destruct (m w) as [[a| |e|] w1]; auto.
Qed.

Lemma hoare_const (m : M A) fs (Qr : A → fsys → Prop) Qe :
  fs_const m → Qe fs → (∀ a, Qr a fs) → hoare m fs Qr Qe.
Proof.
  intros Hm He Hr w Hw. specialize (Hm w).
  destruct (m w) as [[a| |e|] w1]; cbn in Hm; rewrite Hm, Hw; auto.
Qed.

Lemma hoare_talk (m : M A) (f : A → M B) fs (Qr : B → fsys → Prop) Qe :
  fs_const m → Qe fs → (∀ a, hoare (f a) fs Qr Qe) → hoare (m ≫= f) fs Qr Qe.
Proof. intros Hm He Hf. apply hoare_bind. by apply hoare_const. Qed.

Lemma hoare_trivial (m : M A) fs : hoare m fs (λ _ _, True) (λ _, True).
Proof. intros w _. by destruct (m w) as [[a| |e|] w1]. Qed.

Lemma hoare_ret (a : A) fs (Qr : A → fsys → Prop) Qe : Qr a fs → hoare (mret a) fs Qr Qe.
Proof. intros HQ w <-. exact HQ. Qed.

Lemma hoare_fail fs (Qr : A → fsys → Prop) Qe : Qe fs → hoare fail fs Qr Qe.
Proof. intros HQ w <-. exact HQ. Qed.

Lemma hoare_raise e fs (Qr : A → fsys → Prop) Qe : Qe fs → hoare (raise e) fs Qr Qe.
Proof. intros HQ w <-. exact HQ. Qed.

Lemma hoare_when_fail b (f : unit → M B) fs (Qr : B → fsys → Prop) Qe :
  Qe fs → (b = false → hoare (f tt) fs Qr Qe) → hoare (when b fail ≫= f) fs Qr Qe.
Proof.
  intros He Hf. destruct b.
  - intros w <-. rewrite bind_when_true, bind_fail. exact He.
  - intros w Hw. rewrite bind_when_false. by apply Hf.
Qed.

Lemma hoare_path_exists p (f : bool → M B) fs (Qr : B → fsys → Prop) Qe :
  hoare (f (dir_exists fs p)) fs Qr Qe → hoare (path_exists p ≫= f) fs Qr Qe.
Proof. intros Hf w Hw. rewrite bind_path_exists, Hw. by apply Hf. Qed.

Lemma hoare_load_blob p g sz (f : option bytes → M B) fs (Qr : B → fsys → Prop) Qe :
  Qe fs →
  ((∀ b, fs_read fs p g = Some b → well_sized sz b) → hoare (f (fs_read fs p g)) fs Qr Qe) →
  hoare (load_blob p g sz ≫= f) fs Qr Qe.
Proof.
  intros He Hf w Hw. rewrite bind_run.
  destruct (load_blob p g sz w) as [[v| |e|] w1] eqn:E.
  - apply load_blob_Ret in E as (E1 & E2 & Hs). rewrite E1, E2, Hw in *.
    apply Hf; [|done]. intros b Hb. by apply Hs.
  - destruct (load_blob_cases p g sz w) as [E'|E']; rewrite E' in E; simplify_eq.
  - destruct (load_blob_cases p g sz w) as [E'|E']; rewrite E' in E; simplify_eq.
    done.
  - destruct (load_blob_cases p g sz w) as [E'|E']; rewrite E' in E; simplify_eq.
Qed.

Lemma hoare_randombytes n (f : bytes → M B) fs (Qr : B → fsys → Prop) Qe :
  (∀ k, length k = n → hoare (f k) fs Qr Qe) → hoare (randombytes n ≫= f) fs Qr Qe.
Proof.
  intros Hf w Hw. rewrite bind_randombytes. apply Hf; [|done].
  by rewrite length_fmap, length_seq.
Qed.

End Hoare.

Section HoareFiles.
Context {B : Type}.
Implicit Types (Qr : B → fsys → Prop) (Qe : fsys → Prop).

Lemma hoare_save_blob_end p g b fs (Q : unit → fsys → Prop) Qe :
  Qe fs → (dir_exists fs p = true → Q tt (fs_write fs p g b)) →
  hoare (save_blob p g b) fs Q Qe.
Proof.
  intros He HQ w Hw. unfold save_blob. rewrite Hw.
  destruct (dir_exists fs p); [by apply HQ|by rewrite Hw].
Qed.

Lemma hoare_save_blob p g b (f : unit → M B) fs Qr Qe :
  Qe fs → (dir_exists fs p = true → hoare (f tt) (fs_write fs p g b) Qr Qe) →
  hoare (save_blob p g b ≫= f) fs Qr Qe.
Proof. intros He Hf. apply hoare_bind. by apply hoare_save_blob_end. Qed.

Lemma hoare_os_mkdir p (f : unit → M B) fs Qr Qe :
  Qe fs →
  (dir_exists fs p = false → (p = None ∨ dir_exists fs None = true) →
   hoare (f tt) (fs_mkdir fs p) Qr Qe) →
  hoare (os_mkdir p ≫= f) fs Qr Qe.
Proof.
  intros He Hf w Hw. rewrite bind_run. unfold os_mkdir. rewrite Hw.
  destruct (dir_exists fs p) eqn:Hp; [by rewrite Hw|].
  destruct p as [id|].
  - destruct (dir_exists fs None) eqn:Hr; [|by rewrite Hw].
    apply Hf; auto.
  - apply Hf; auto.
Qed.

Lemma hoare_os_unlink p g (f : unit → M B) fs Qr Qe :
  Qe fs → (is_Some (fs_read fs p g) → hoare (f tt) (fs_unlink fs p g) Qr Qe) →
  hoare (os_unlink p g ≫= f) fs Qr Qe.
Proof.
  intros He Hf w Hw. rewrite bind_run. unfold os_unlink. rewrite Hw.
  destruct (fs_read fs p g) as [v|] eqn:Hv; [|by rewrite Hw].
  apply Hf; eauto.
Qed.

Lemma hoare_rmtree p (f : unit → M B) fs Qr Qe :
  Qe fs → (dir_exists fs p = true → hoare (f tt) (fs_rmtree fs p) Qr Qe) →
  hoare (rmtree p ≫= f) fs Qr Qe.
Proof.
  intros He Hf w Hw. rewrite bind_run. unfold rmtree. rewrite Hw.
  destruct (dir_exists fs p); [by apply Hf|by rewrite Hw].
Qed.

(** [if not os.path.exists(p): os.mkdir(p)] *)
Lemma hoare_ensure_dir p (f : unit → M B) fs Qr Qe :
  Qe fs →
  (dir_exists fs p = true → hoare (f tt) fs Qr Qe) →
  (dir_exists fs p = false → hoare (f tt) (fs_mkdir fs p) Qr Qe) →
  hoare (path_exists p ≫= λ ex, when (negb ex) (os_mkdir p) ≫= f) fs Qr Qe.
Proof.
  intros He Hyes Hno. apply hoare_path_exists.
  destruct (dir_exists fs p) eqn:Hp; cbn [negb].
  - intros w Hw. rewrite bind_when_false. by apply Hyes.
  - intros w Hw. rewrite bind_when_true. revert w Hw.
    apply hoare_os_mkdir; [done|]. intros _ _. by apply Hno.
Qed.

Lemma hoare_try_save p g b (h : M unit) (f : unit → M B) fs Qr Qe :
  Qe fs → fs_const h →
  (dir_exists fs p = true → hoare (f tt) (fs_write fs p g b) Qr Qe) →
  (dir_exists fs p = false → hoare (f tt) fs Qr Qe) →
  hoare (try_except (save_blob p g b) (is_exn FileNotFoundError) h ≫= f) fs Qr Qe.
Proof.
  intros He Hh Hyes Hno. destruct (dir_exists fs p) eqn:Hp.
  - intros w Hw. rewrite bind_run. unfold try_except, save_blob. rewrite Hw, Hp.
    by apply Hyes.
  - intros w Hw.
    pose proof (hoare_talk h f fs Qr Qe Hh He
                  (λ u, match u with tt => Hno eq_refl end) w Hw) as H.
    rewrite bind_run in H |- *. unfold try_except, save_blob, is_exn.
    rewrite Hw, Hp, bool_decide_eq_true_2 by done. exact H.
Qed.

Lemma hoare_save_blob_ok p g b (f : unit → M B) fs Qr Qe :
  dir_exists fs p = true → hoare (f tt) (fs_write fs p g b) Qr Qe →
  hoare (save_blob p g b ≫= f) fs Qr Qe.
Proof.
  intros Hdir Hf w Hw. rewrite bind_run. unfold save_blob. rewrite Hw, Hdir.
  by apply Hf.
Qed.

Lemma hoare_os_unlink_ok p g (f : unit → M B) fs Qr Qe :
  is_Some (fs_read fs p g) → hoare (f tt) (fs_unlink fs p g) Qr Qe →
  hoare (os_unlink p g ≫= f) fs Qr Qe.
Proof.
  intros [v Hv] Hf w Hw. rewrite bind_run. unfold os_unlink. rewrite Hw, Hv.
  by apply Hf.
Qed.

Lemma hoare_os_mkdir_ok p (f : unit → M B) fs Qr Qe :
  dir_exists fs p = false → (p = None ∨ dir_exists fs None = true) →
  hoare (f tt) (fs_mkdir fs p) Qr Qe →
  hoare (os_mkdir p ≫= f) fs Qr Qe.
Proof.
  intros Hp Hroot Hf w Hw. rewrite bind_run. unfold os_mkdir. rewrite Hw, Hp.
  destruct p as [id|].
  - destruct Hroot as [|Hr]; [done|]. rewrite Hr. by apply Hf.
  - by apply Hf.
Qed.

Lemma hoare_when_false (m : M unit) (f : unit → M B) fs Qr Qe :
  hoare (f tt) fs Qr Qe → hoare (when false m ≫= f) fs Qr Qe.
Proof. intros Hf w Hw. rewrite bind_when_false. by apply Hf. Qed.

Lemma hoare_when_true (m : M unit) (f : unit → M B) fs Qr Qe :
  hoare (m ≫= f) fs Qr Qe → hoare (when true m ≫= f) fs Qr Qe.
Proof. intros Hf w Hw. rewrite bind_when_true. by apply Hf. Qed.

(** [if not os.path.exists(p): os.mkdir(p)] for a directory whose parent
    exists. *)
Lemma hoare_ensure_dir_ok p (f : unit → M B) fs Qr Qe :
  (p = None ∨ dir_exists fs None = true) →
  hoare (f tt) (if dir_exists fs p then fs else fs_mkdir fs p) Qr Qe →
  hoare (path_exists p ≫= λ ex, when (negb ex) (os_mkdir p) ≫= f) fs Qr Qe.
Proof.
  intros Hroot Hf. apply hoare_path_exists.
  destruct (dir_exists fs p) eqn:Hp; cbn [negb].
  - by apply hoare_when_false.
  - apply hoare_when_true. by apply hoare_os_mkdir_ok.
Qed.

Lemma hoare_send b (f : unit → M B) fs Qr Qe :
  hoare (f tt) fs Qr Qe → hoare (send b ≫= f) fs Qr Qe.
Proof. intros Hf w Hw. rewrite bind_send. by apply Hf. Qed.

Lemma hoare_send_end b fs (Q : unit → fsys → Prop) Qe : Q tt fs → hoare (send b) fs Q Qe.
Proof. intros HQ w <-. exact HQ. Qed.

End HoareFiles.

Section HoareSigned.
Context {C : Consts} {cfg : Config} {P : Primitives} {B : Type}.

(** A signed message that passes [verify_blob]: the signature in its last
    64 bytes verifies, and the message comes back without it. *)
Lemma hoare_verified msg pk (f : bytes → M B) fs (Qr : B → fsys → Prop) (Qe : fsys → Prop) :
  Qe fs →
  (crypto_sign_verify_detached (last_n 64 msg) (but_last_n 64 msg) pk = true →
   hoare (f (but_last_n 64 msg)) fs Qr Qe) →
  hoare (try_except (verify_blob msg pk) (is_exn ValueError) fail ≫= f) fs Qr Qe.
Proof.
  intros He Hf w Hw. rewrite bind_run. unfold try_except, verify_blob.
  destruct (crypto_sign_verify_detached _ _ _) eqn:Hsig.
  - by apply Hf.
  - unfold raise, is_exn. rewrite bool_decide_eq_true_2 by done.
    subst fs. exact He.
Qed.

Lemma hoare_verified_end msg pk fs (Q : bytes → fsys → Prop) (Qe : fsys → Prop) :
  Qe fs →
  (crypto_sign_verify_detached (last_n 64 msg) (but_last_n 64 msg) pk = true →
   Q (but_last_n 64 msg) fs) →
  hoare (try_except (verify_blob msg pk) (is_exn ValueError) fail) fs Q Qe.
Proof.
  intros He HQ w Hw. unfold try_except, verify_blob.
  destruct (crypto_sign_verify_detached _ _ _) eqn:Hsig.
  - subst fs. by apply HQ.
  - unfold raise, is_exn. rewrite bool_decide_eq_true_2 by done.
    subst fs. exact He.
Qed.

End HoareSigned.

Ltac hoare_step :=
  lazymatch goal with
  | |- hoare (mret _) _ _ _ => apply hoare_ret
  | |- hoare fail _ _ _ => apply hoare_fail
  | |- hoare (raise _) _ _ _ => apply hoare_raise
  | |- hoare (when _ fail ≫= _) _ _ _ => apply hoare_when_fail; [|intros ?]
  | |- hoare (load_blob _ _ _ ≫= _) _ _ _ => apply hoare_load_blob; [|intros ?]
  | |- hoare (randombytes _ ≫= _) _ _ _ => apply hoare_randombytes; intros ? ?
  | |- hoare (path_exists _ ≫= _) _ _ _ => apply hoare_path_exists
  | |- hoare (save_blob _ _ _ ≫= _) _ _ _ => apply hoare_save_blob; [|intros ?]
  | |- hoare (os_unlink _ _ ≫= _) _ _ _ => apply hoare_os_unlink; [|intros ?]
  | |- hoare (rmtree _ ≫= _) _ _ _ => apply hoare_rmtree; [|intros ?]
  | |- hoare (os_mkdir _ ≫= _) _ _ _ => apply hoare_os_mkdir; [|intros ? ?]
  | |- hoare (try_except (verify_blob _ _) _ fail ≫= _) _ _ _ =>
      apply hoare_verified; [|intros ?]
  | |- hoare ((_ ≫= _) ≫= _) _ _ _ => apply hoare_bind
  | |- hoare (?m ≫= _) _ _ _ =>
      lazymatch m with
      | match _ with _ => _ end => apply hoare_bind
      | _ => apply hoare_talk; [solve [fs_const_tac] | | intros ?]
      end
  | |- hoare (match ?x with _ => _ end) _ _ _ => destruct x eqn:?
  end; cbn beta iota zeta.

Ltac hoare_talk_end := apply hoare_const; [solve [fs_const_tac] | | intros ?].

(** * What the operations do to the record store *)

Section Effects.
Context {C : Consts} {cfg : Config} {P : Primitives}.

Lemma hoare_commit_undo new old msg fs :
  hoare (commit_undo new old msg) fs (λ _ _, True) (λ fs', fs' = fs).
Proof.
  destruct (shadow_names_ne new) as (N1 & N2 & N3).
  unfold commit_undo, pop. hoare_step; [done|]. hoare_step. hoare_step; [done|].
  apply negb_false_iff in H0. hoare_step; [done|].
  do 6 (hoare_step; [done|]; hoare_step; [|by apply hoare_fail]).
  do 6 (apply hoare_save_blob_ok; [exact H0|]).
  apply hoare_os_unlink_ok.
  { do 6 apply fs_read_write_is_Some. eauto. }
  apply hoare_os_unlink_ok.
  { rewrite fs_read_unlink, decide_False by congruence.
    do 6 apply fs_read_write_is_Some. eauto. }
  apply hoare_os_unlink_ok.
  { rewrite !fs_read_unlink, !decide_False by congruence.
    do 6 apply fs_read_write_is_Some. eauto. }
  by apply hoare_send_end.
Qed.

Lemma hoare_stage id k (blob : bytes) fs :
  dir_exists fs id = true →
  hoare (when (bool_decide (length blob ≠ (32 + RULE_SIZE + 64)%nat)) fail;;
         let pk := take 32 blob in
         signed ← try_except (verify_blob blob pk) (is_exn ValueError) fail;
         let rules := drop 32 signed in
         save_blob id "new" k;;
         save_blob id "rules.new" rules;;
         save_blob id "pub.new" pk;;
         send ok_marker)
    fs (λ _ fs', staged_by fs id k fs') (λ fs', fs' = fs).
Proof.
  intros Hdir. hoare_step; [done|]. apply length_checked in H.
  hoare_step; [done|].
  do 3 (apply hoare_save_blob_ok; [exact Hdir|]).
  apply hoare_send_end.
  exists (take 32 blob), (drop 32 (but_last_n 64 blob)), (last_n 64 blob).
  assert (take 32 blob ++ drop 32 (but_last_n 64 blob) = but_last_n 64 blob) as Hsplit.
  { unfold but_last_n.
    replace (take 32 blob) with (take 32 (take (length blob - 64) blob))
      by (rewrite take_take; f_equal; lia).
    apply take_drop. }
  split_and!; [| |by rewrite Hsplit|done].
  - rewrite length_take. lia.
  - unfold but_last_n. rewrite length_drop, length_take. lia.
Qed.

Lemma hoare_change msg fs :
  hoare (change msg) fs
    (λ _ fs', ∃ k, length k = 32%nat ∧ staged_by fs (req_id msg) k fs')
    (λ fs', fs' = fs).
Proof.
  unfold change, pop. fold (req_id msg).
  hoare_step; [done|]. hoare_step. hoare_step; [done|].
  apply negb_false_iff in H0.
  hoare_step; [done|]. hoare_step; [done|]. hoare_step; [done|].
  hoare_step. do 3 (hoare_step; [done|]).
  eapply hoare_conseq; [by apply hoare_stage| |done].
  intros ? fs' Hst. eauto.
Qed.

Lemma hoare_change_dkg msg fs :
  hoare (change_dkg msg) fs
    (λ _ fs', ∃ xi, staged_by fs (req_id msg) xi fs')
    (λ fs', fs' = fs).
Proof.
  unfold change_dkg, pop. fold (req_id msg).
  hoare_step; [done|]. hoare_step. hoare_step; [done|].
  apply negb_false_iff in H0.
  do 2 (hoare_step; [done|]).
  do 3 (hoare_step; [done|]; hoare_step).
  do 5 (hoare_step; [done|]).
  eapply hoare_conseq; [by apply hoare_stage| |done].
  intros ? fs' Hst. eexists. exact Hst.
Qed.

Lemma hoare_outcome {A} (m : M A) w Qr Qe :
  hoare m (w_fs w) Qr Qe →
  (∀ a, (m w).1 = Ret a → Qr a (w_fs (m w).2)) ∧
  ((∀ a, (m w).1 ≠ Ret a) → Qe (w_fs (m w).2)).
Proof.
  intros H. specialize (H w eq_refl).
  destruct (m w) as [[a| |e|] w1]; cbn; split; try done.
  - by intros ? [= <-].
  - intros Hn. by destruct (Hn a).
Qed.

(** X3. [commit_undo] is all or nothing: a COMMIT or UNDO that does not
    return, whether it left through [fail] or with an exception, has not
    touched the record store.  All six blobs are loaded and checked before
    the first write, and each of the nine writes finds what it needs. *)
Theorem commit_undo_all_or_nothing new old msg w :
  (commit_undo new old msg w).1 ≠ Ret tt →
  w_fs (commit_undo new old msg w).2 = w_fs w.
Proof.
  intros Hn.
  apply (hoare_outcome _ _ _ _ (hoare_commit_undo new old msg (w_fs w))).
  by intros [].
Qed.

(** X4. [change] and [change_dkg] are all or nothing too: the three staged
    files are written after the last check, so a run that does not return
    leaves the record store as it was. *)
Theorem change_all_or_nothing msg w :
  ((change msg w).1 ≠ Ret tt → w_fs (change msg w).2 = w_fs w) ∧
  ((change_dkg msg w).1 ≠ Ret tt → w_fs (change_dkg msg w).2 = w_fs w).
Proof.
  split; intros Hn.
  - apply (hoare_outcome _ _ _ _ (hoare_change msg (w_fs w))). by intros [].
  - apply (hoare_outcome _ _ _ _ (hoare_change_dkg msg (w_fs w))). by intros [].
Qed.

Lemma change_Ret msg w w' :
  change msg w = (Ret tt, w') →
  ∃ k, length k = 32%nat ∧ staged_by (w_fs w) (req_id msg) k (w_fs w').
Proof.
  intros H. pose proof (hoare_change msg (w_fs w) w eq_refl) as Hh.
  by rewrite H in Hh.
Qed.

(** X6. COMMIT after [change] never goes through.  [change] stages the raw
    32 bytes of [randombytes] as [new], and [commit_undo] loads [new] asking
    for 33 bytes: whatever the client sends, the commit ends without
    returning and without touching the store. *)
Theorem change_then_commit_fails msg w w1 msg' w2 :
  change msg w = (Ret tt, w1) →
  w_fs w2 = w_fs w1 →
  req_id msg' = req_id msg →
  (commit_undo "new" "old" msg' w2).1 ≠ Ret tt ∧
  w_fs (commit_undo "new" "old" msg' w2).2 = w_fs w2.
Proof.
  intros Hc Hfs Hid.
  assert ((commit_undo "new" "old" msg' w2).1 ≠ Ret tt) as Hn.
  { intros Hr. apply run_eq in Hr.
    apply commit_undo_Ret in Hr
      as (? & nk & ? & ? & ? & ? & ? & _ & _ & _ & _ & _ & _ & _ & [Hnk Hlen] & _).
    apply change_Ret in Hc as (k & Hk & pk & rules & sig & _ & _ & _ & Hw).
    rewrite Hfs, Hw, Hid in Hnk. rewrite !fs_read_write in Hnk.
    repeat (case_decide; simplify_eq; try done). lia. }
  split; [exact Hn|].
  apply (hoare_outcome _ _ _ _ (hoare_commit_undo "new" "old" msg' (w_fs w2))).
  by intros [].
Qed.

Lemma hoare_update_blob fs :
  hoare update_blob fs (λ _ fs', blob_updated fs fs') (λ fs', fs' = fs).
Proof.
  unfold update_blob. hoare_step; [done|]. hoare_step; [done|].
  destruct (bool_decide (sum_bytes _ = 0)); [apply hoare_ret; by left|].
  set (id := take 32 a) in *.
  hoare_step; [done|]. hoare_step.
  destruct (fs_read fs (Some id) "pub") as [pk|] eqn:Hpub.
  - (* the host record exists *)
    hoare_step; [done|]. hoare_step; [done|].
    destruct (fs_read fs (Some id) "blob") as [blob|]; [|by apply hoare_fail].
    hoare_step. hoare_step; [done|]. hoare_step.
    do 3 (hoare_step; [done|]).
    hoare_step; [done|]. rewrite Hpub.
    apply hoare_verified_end; [done|]. intros Hsig.
    apply hoare_save_blob_end; [done|]. intros _.
    right; left.
    exists id, pk, (but_last_n 64 (a1 ++ a3)), (last_n 64 (a1 ++ a3)), (last_n 64 a).
    replace id with (but_last_n 64 a) at 2; [done|].
    apply length_checked in H. unfold but_last_n, id. f_equal. lia.
  - (* enrolment *)
    hoare_step. hoare_step; [done|]. hoare_step.
    hoare_step; [done|]. hoare_step.
    do 4 (hoare_step; [done|]).
    hoare_step; [done|].
    apply hoare_ensure_dir_ok; [by left|].
    set (fsr := if dir_exists fs None then fs else fs_mkdir fs None).
    assert (dir_exists fsr None = true) as Hroot.
    { unfold fsr. destruct (dir_exists fs None) eqn:E; [done|].
      by rewrite dir_exists_mkdir, bool_decide_eq_true_2. }
    assert (dir_exists fsr (Some id) = false) as Hno.
    { unfold fsr. destruct (dir_exists fs None) eqn:E; [done|].
      by rewrite dir_exists_mkdir, bool_decide_eq_false_2. }
    apply hoare_ensure_dir_ok; [by right|]. rewrite Hno.
    assert (dir_exists (fs_mkdir fsr (Some id)) (Some id) = true) as Hdir.
    { by rewrite dir_exists_mkdir, bool_decide_eq_true_2. }
    apply hoare_save_blob_ok; [exact Hdir|]. apply hoare_ret.
    intros w Hw. unfold save_blob. rewrite Hw. rewrite dir_exists_write, Hdir.
    cbn [w_fs set_fs]. right; right.
    by exists id, a1, (but_last_n 64 (a1 ++ a2 ++ a4)), (last_n 64 (a1 ++ a2 ++ a4)).
Qed.

(** X7. [update_blob] does one of three things to the record store, or
    nothing: see [blob_updated].  In particular it never replaces the [pub]
    of a host record, it replaces a [blob] only by one signed under the
    [pub] on file, it enrols a record only where no directory existed, and
    when it does not return the store is as it was. *)
Theorem update_blob_effect w :
  blob_updated (w_fs w) (w_fs (update_blob w).2) ∧
  ((update_blob w).1 ≠ Ret tt → w_fs (update_blob w).2 = w_fs w).
Proof.
  pose proof (hoare_update_blob (w_fs w) w eq_refl) as H.
  destruct (update_blob w) as [[[]| |e|] w1]; cbn in *.
  - split; [done|]. by intros [].
  - split; [by left|done].
  - split; [by left|done].
  - split; [by left|done].
Qed.

Lemma blob_updated_pub fs fs' id pk :
  blob_updated fs fs' →
  fs_read fs (Some id) "pub" = Some pk → fs_read fs' (Some id) "pub" = Some pk.
Proof.
  intros [-> | [H | H]] Hpk; [done| |].
  - destruct H as (id' & pk' & blob & sig & idsig & _ & _ & _ & ->).
    rewrite fs_read_write. by case_decide; simplify_eq.
  - destruct H as (id' & pk' & signed & sig & Hnone & Hdir & _ & ->).
    rewrite !fs_read_write, fs_read_mkdir.
    repeat (case_decide; simplify_eq; try done).
    destruct (dir_exists fs None); by rewrite ?fs_read_mkdir.
Qed.

(** X8. No run of [update_blob] changes a [pub] that is on file, however the
    run ends: the only write of a [pub] is in the enrolment branch, which is
    taken when the record has none. *)
Theorem update_blob_keeps_pub w id pk :
  fs_read (w_fs w) (Some id) "pub" = Some pk →
  fs_read (w_fs (update_blob w).2) (Some id) "pub" = Some pk.
Proof.
  intros Hpk. pose proof (hoare_update_blob (w_fs w) w eq_refl) as H.
  destruct (update_blob w) as [[[]| |e|] w1]; cbn in *; try by rewrite H.
  by eapply blob_updated_pub.
Qed.

(** X10. A [delete] that returns has removed the directory of the record with
    everything in it: the live triple, anything staged or kept as [.old],
    and the rate-limit context. *)
Theorem delete_removes_record msg w w' :
  delete msg w = (Ret tt, w') →
  dir_exists (w_fs w) (req_id msg) = true ∧
  dir_exists (w_fs w') (req_id msg) = false ∧
  ∀ f, fs_read (w_fs w') (req_id msg) f = None.
Proof.
  intros H.
  assert (hoare (delete msg) (w_fs w)
            (λ _ fs', dir_exists (w_fs w) (req_id msg) = true ∧
                      dir_exists fs' (req_id msg) = false ∧
                      ∀ f, fs_read fs' (req_id msg) f = None)
            (λ _, True)) as Hh.
  { unfold delete, pop. fold (req_id msg).
    hoare_step; [done|]. hoare_step. hoare_step; [done|].
    apply negb_false_iff in H1. hoare_step; [done|].
    apply hoare_bind. eapply hoare_conseq; [apply hoare_trivial| |done].
    intros ? fs1 _. cbn beta. hoare_step; [done|].
    apply hoare_send_end. split_and!; [done| |].
    - rewrite dir_exists_rmtree, bool_decide_eq_true_2 by done. done.
    - intros f. rewrite fs_read_rmtree. by rewrite decide_True. }
  specialize (Hh w eq_refl). by rewrite H in Hh.
Qed.

End Effects.

(** * Footprints *)

Lemma ww_const {A} (m : M A) D E : fs_const m → writes_within m D E.
Proof. intros Hm w. rewrite Hm. done. Qed.

Lemma ww_bind {A B} (m : M A) (f : A → M B) D E :
  writes_within m D E → (∀ a, writes_within (f a) D E) → writes_within (m ≫= f) D E.
Proof.
  intros Hm Hf w. rewrite bind_run. specialize (Hm w).
  destruct (m w) as [[a| |e|] w1]; cbn in *; try done.
  destruct Hm as [Hm1 Hm2]. destruct (Hf a w1) as [Hf1 Hf2]. split.
  - intros p g Hd. by rewrite Hf1, Hm1.
  - intros p Hd. by rewrite Hf2, Hm2.
Qed.

Lemma ww_try {A} (m h : M A) c D E :
  writes_within m D E → writes_within h D E → writes_within (try_except m c h) D E.
Proof.
  intros Hm Hh w. unfold try_except. specialize (Hm w).
  destruct (m w) as [[a| |e|] w1]; cbn in *; try done.
  destruct (c e); [|done].
  destruct Hm as [Hm1 Hm2]. destruct (Hh w1) as [Hh1 Hh2]. split.
  - intros p g Hd. by rewrite Hh1, Hm1.
  - intros p Hd. by rewrite Hh2, Hm2.
Qed.

Lemma ww_when b (m : M unit) D E : writes_within m D E → writes_within (when b m) D E.
Proof. destruct b; [done|]. intros _. by apply ww_const. Qed.

Lemma ww_weaken {A} (m : M A) (D D' : path → string → Prop) (E E' : path → Prop) :
  writes_within m D E → (∀ p f, D p f → D' p f) → (∀ p, E p → E' p) →
  writes_within m D' E'.
Proof.
  intros Hm HD HE w. destruct (Hm w) as [H1 H2]. split.
  - intros p f Hd. apply H1. auto.
  - intros p Hd. apply H2. auto.
Qed.

Lemma ww_save_blob p f b (D : path → string → Prop) E :
  D p f → writes_within (save_blob p f b) D E.
Proof.
  intros Hd w. unfold save_blob. destruct (dir_exists _ _); [|done].
  cbn [snd w_fs set_fs]. split; [|done].
  intros p' f' Hn. rewrite fs_read_write. case_decide; [|done]. by simplify_eq.
Qed.

Lemma ww_os_unlink p f (D : path → string → Prop) E :
  D p f → writes_within (os_unlink p f) D E.
Proof.
  intros Hd w. unfold os_unlink. destruct (fs_read _ _ _); [|done].
  cbn [snd w_fs set_fs]. split; [|done].
  intros p' f' Hn. rewrite fs_read_unlink. case_decide; [|done]. by simplify_eq.
Qed.

Lemma ww_os_mkdir p D (E : path → Prop) : E p → writes_within (os_mkdir p) D E.
Proof.
  intros He w. unfold os_mkdir.
  assert (∀ w0 : world,
    (∀ p' f', ¬ D p' f' →
       fs_read (w_fs (set_fs (fs_mkdir (w_fs w0) p) w0)) p' f' = fs_read (w_fs w0) p' f') ∧
    (∀ p', ¬ E p' →
       dir_exists (w_fs (set_fs (fs_mkdir (w_fs w0) p) w0)) p' = dir_exists (w_fs w0) p'))
    as Hmk.
  { intros w0. cbn [w_fs set_fs]. split; [done|].
    intros p' Hn. rewrite dir_exists_mkdir, bool_decide_eq_false_2; [done|].
    by intros ->. }
  destruct (dir_exists _ p); [done|].
  destruct p; [|apply Hmk]. destruct (dir_exists _ None); [apply Hmk|done].
Qed.

Lemma ww_rmtree p (D : path → string → Prop) (E : path → Prop) :
  E p → (∀ f, D p f) → writes_within (rmtree p) D E.
Proof.
  intros He Hd w. unfold rmtree. destruct (dir_exists _ p); [|done].
  cbn [snd w_fs set_fs]. split.
  - intros p' f' Hn. rewrite fs_read_rmtree. case_decide; [|done].
    subst. by destruct Hn.
  - intros p' Hn. rewrite dir_exists_rmtree, bool_decide_eq_false_2; [done|].
    by intros ->.
Qed.

Ltac ww_step side :=
  match goal with
  | |- writes_within (_ ≫= _) _ _ => apply ww_bind; [|intros ?]
  | |- writes_within (try_except _ _ _) _ _ => apply ww_try
  | |- writes_within (when _ _) _ _ => apply ww_when
  | |- writes_within (save_blob _ _ _) _ _ => apply ww_save_blob; side
  | |- writes_within (os_unlink _ _) _ _ => apply ww_os_unlink; side
  | |- writes_within (os_mkdir _) _ _ => apply ww_os_mkdir; side
  | |- writes_within (rmtree _) _ _ => apply ww_rmtree; side
  | |- writes_within (match ?x with _ => _ end) _ _ => destruct x
  | |- writes_within _ _ _ => solve [apply ww_const; fs_const_tac]
  | |- writes_within _ _ _ => solve [auto]
  end.

Ltac ww_tac side := repeat (cbn beta iota zeta; ww_step side).

Section Footprint.
Context {C : Consts} {cfg : Config} {P : Primitives}.

Lemma ww_update_blob : writes_within update_blob in_records any_dir.
Proof. unfold update_blob. ww_tac ltac:(done). Qed.

Lemma ww_create msg : writes_within (create msg) in_records any_dir.
Proof. pose proof ww_update_blob. unfold create, pop. ww_tac ltac:(done). Qed.

Lemma ww_create_dkg msg : writes_within (create_dkg msg) in_records any_dir.
Proof. pose proof ww_update_blob. unfold create_dkg, pop. ww_tac ltac:(done). Qed.

Lemma ww_change msg : writes_within (change msg) in_records any_dir.
Proof. unfold change, pop. ww_tac ltac:(done). Qed.

Lemma ww_change_dkg msg : writes_within (change_dkg msg) in_records any_dir.
Proof. unfold change_dkg, pop. ww_tac ltac:(done). Qed.

Lemma ww_delete msg : writes_within (delete msg) in_records any_dir.
Proof. pose proof ww_update_blob. unfold delete, pop. ww_tac ltac:(done). Qed.

Lemma ww_commit_undo new old msg : writes_within (commit_undo new old msg) in_records any_dir.
Proof. unfold commit_undo, pop. ww_tac ltac:(done). Qed.

Lemma ww_handler data : writes_within (handler data) in_records any_dir.
Proof.
  pose proof ww_change. pose proof ww_change_dkg. pose proof ww_delete.
  pose proof ww_commit_undo.
  unfold handler. ww_tac ltac:(done).
Qed.

Lemma ww_verify_challenge : writes_within verify_challenge in_records any_dir.
Proof. pose proof ww_handler. unfold verify_challenge, pop. ww_tac ltac:(done). Qed.

Lemma ww_create_challenge : writes_within create_challenge rate_limit_files no_dir.
Proof.
  unfold create_challenge.
  ww_tac ltac:(first [by left | by right]).
Qed.

Lemma keeps_mac_key_records {A} (m : M A) E :
  writes_within m in_records E → keeps_mac_key m.
Proof.
  intros Hm w k Hk _. destruct (Hm w) as [H _]. rewrite H; [done|].
  unfold in_records. tauto.
Qed.

Lemma keeps_mac_key_bind {A B} (m : M A) (f : A → M B) :
  keeps_mac_key m → (∀ a, keeps_mac_key (f a)) → keeps_mac_key (m ≫= f).
Proof.
  intros Hm Hf w k Hk Hne. rewrite bind_run. specialize (Hm w k Hk Hne).
  destruct (m w) as [[a| |e|] w1]; cbn in *; try done.
  by apply Hf.
Qed.

Lemma keeps_mac_key_create_challenge : keeps_mac_key create_challenge.
Proof.
  intros w k Hk Hne.
  assert (hoare create_challenge (w_fs w)
            (λ _ fs', fs_read fs' None "key" = Some k)
            (λ fs', fs_read fs' None "key" = Some k)) as Hh.
  { assert (∀ fs (resp : bytes → bytes), fs_read fs None "key" = Some k →
      hoare (key ← load_blob None "key" (Some 32%nat);
             key ←
               match key with
               | None | Some [] =>
                   key ← randombytes 32;
                   save_blob None "key" key;;
                   mret key
               | Some key => mret key
               end;
             send (resp key))
        fs (λ _ fs', fs_read fs' None "key" = Some k)
        (λ fs', fs_read fs' None "key" = Some k)) as Hsign.
    { intros fs resp Hfs. hoare_step; [done|]. rewrite Hfs.
      destruct k as [|b k]; [done|]. apply hoare_bind. apply hoare_ret.
      by apply hoare_send_end. }
    unfold create_challenge. hoare_step; [done|].
    apply hoare_talk; [fs_const_tac|done|intros _].
    hoare_step; [done|]. hoare_step; [done|].
    apply hoare_talk; [fs_const_tac|done|intros [[[n kk] level] count]].
    do 3 (hoare_step; [done|]).
    apply hoare_try_save; [done|fs_const_tac|intros Hdir|intros _].
    - assert (fs_read (fs_write (w_fs w) (Some (take 32 (drop 1 a))) "difficulty"
                         (a1 ++ a2 ++ a3)) None "key" = Some k) as Hk'.
      { rewrite fs_read_write. by case_decide; simplify_eq. }
      do 2 (hoare_step; [done|]).
      by apply (Hsign _ (λ key, (a4 ++ a5) ++ crypto_generichash key (a ++ a4 ++ a5))).
    - do 2 (hoare_step; [done|]).
      by apply (Hsign _ (λ key, (a4 ++ a5) ++ crypto_generichash key (a ++ a4 ++ a5))). }
  specialize (Hh w eq_refl).
  by destruct (create_challenge w) as [[[]| |e|] w1].
Qed.

Lemma keeps_mac_key_ratelimit : keeps_mac_key ratelimit.
Proof.
  unfold ratelimit. apply keeps_mac_key_bind.
  { apply (keeps_mac_key_records _ any_dir), ww_const. fs_const_tac. }
  intros op. repeat case_bool_decide.
  - apply keeps_mac_key_bind.
    { apply (keeps_mac_key_records _ any_dir), ww_const. fs_const_tac. }
    intros data. apply (keeps_mac_key_records _ any_dir), ww_create.
  - apply keeps_mac_key_bind.
    { apply (keeps_mac_key_records _ any_dir), ww_const. fs_const_tac. }
    intros data. apply (keeps_mac_key_records _ any_dir), ww_create_dkg.
  - apply keeps_mac_key_create_challenge.
  - apply (keeps_mac_key_records _ any_dir), ww_verify_challenge.
  - apply (keeps_mac_key_records _ any_dir), ww_const. fs_const_tac.
Qed.

(** X11. The MAC key of the server is never rotated: once the data directory
    holds a non-empty [key], no operation of the server changes or removes
    it, however the operation ends.  The record operations write inside
    record directories only, and [create_challenge] writes the key only when
    it finds none. *)
Theorem mac_key_stable (m : M unit) w k :
  server_op m →
  fs_read (w_fs w) None "key" = Some k → k ≠ [] →
  fs_read (w_fs (m w).2) None "key" = Some k.
Proof.
  intros Hm. revert w k. change (keeps_mac_key m).
  destruct Hm.
  - apply (keeps_mac_key_records _ any_dir), ww_create.
  - apply (keeps_mac_key_records _ any_dir), ww_create_dkg.
  - apply (keeps_mac_key_records _ any_dir), ww_change.
  - apply (keeps_mac_key_records _ any_dir), ww_change_dkg.
  - apply (keeps_mac_key_records _ any_dir), ww_commit_undo.
  - apply (keeps_mac_key_records _ any_dir), ww_commit_undo.
  - apply (keeps_mac_key_records _ any_dir), ww_delete.
  - apply (keeps_mac_key_records _ any_dir), ww_update_blob.
  - apply (keeps_mac_key_records _ any_dir), ww_const, fs_const_get.
  - apply (keeps_mac_key_records _ any_dir), ww_const, fs_const_read.
  - apply keeps_mac_key_create_challenge.
  - apply (keeps_mac_key_records _ any_dir), ww_verify_challenge.
  - apply (keeps_mac_key_records _ any_dir), ww_handler.
  - apply keeps_mac_key_ratelimit.
  - intros w k Hk Hne. pose proof (keeps_mac_key_ratelimit w k Hk Hne) as H.
    unfold worker. by destruct (ratelimit w) as [[[]| |e|] w1].
Qed.

(** X12. Issuing a challenge never touches account data: whatever the request
    and however it ends, [create_challenge] changes at most the [difficulty]
    file of a record and the [key] file of the data directory, and makes or
    removes no directory. *)
Theorem create_challenge_footprint w p f :
  ¬ rate_limit_files p f →
  fs_read (w_fs (create_challenge w).2) p f = fs_read (w_fs w) p f ∧
  dirs (w_fs (create_challenge w).2) = dirs (w_fs w).
Proof.
  intros Hn. destruct (ww_create_challenge w) as [H1 H2]. split; [by apply H1|].
  apply set_eq. intros q. specialize (H2 q (λ x, x)).
  unfold dir_exists in H2.
  by rewrite <- (bool_decide_eq_true (q ∈ dirs (w_fs (create_challenge w).2))),
    <- (bool_decide_eq_true (q ∈ dirs (w_fs w))), H2.
Qed.

End Footprint.

(** * Runs that return *)

Lemma recv_run n w : recv n w = (Ret (next_bytes n w), (recv n w).2).
Proof. unfold recv, next_bytes. destruct (w_in w); [|done]. cbn. by destruct n. Qed.

Lemma recv_frame n w :
  w_fs (recv n w).2 = w_fs w ∧ w_out (recv n w).2 = w_out w ∧
  w_now (recv n w).2 = w_now w ∧ w_open (recv n w).2 = w_open w ∧
  w_entropy (recv n w).2 = w_entropy w ∧ w_rpos (recv n w).2 = w_rpos w.
Proof. unfold recv. by destruct (w_in w). Qed.

Lemma next_bytes_length n w : (length (next_bytes n w) ≤ n)%nat.
Proof. unfold next_bytes. rewrite length_take. lia. Qed.

Section Post.
Context {A B : Type}.
Implicit Types (Q : B → world → Prop).

Lemma post_bind (m : M A) (f : A → M B) w Q :
  post m w (λ a w1, post (f a) w1 Q) → post (m ≫= f) w Q.
Proof.
  intros H b w' E. apply bind_Ret_inv in E as (a & w1 & E1 & E2).
  exact (H a w1 E1 b w' E2).
Qed.

Lemma post_ret (a : A) w (Q : A → world → Prop) : Q a w → post (mret a) w Q.
Proof. by intros H ? ? [= <- <-]. Qed.

Lemma post_fail w (Q : A → world → Prop) : post fail w Q.
Proof. by intros ? ? ?. Qed.

Lemma post_raise e w (Q : A → world → Prop) : post (raise e) w Q.
Proof. by intros ? ? ?. Qed.

Lemma post_when_fail b (f : unit → M B) w Q :
  (b = false → post (f tt) w Q) → post (when b fail ≫= f) w Q.
Proof.
  intros H. destruct b.
  - intros ? ? E. by rewrite bind_when_true, bind_fail in E.
  - intros ? ? E. rewrite bind_when_false in E. by apply H in E.
Qed.

Lemma post_lib e (o : option A) (f : A → M B) w Q :
  (∀ a, o = Some a → post (f a) w Q) → post (lib e o ≫= f) w Q.
Proof.
  intros H. destruct o as [a|].
  - intros ? ? E. rewrite bind_lib_Some in E. by eapply H.
  - intros ? ? E. by rewrite bind_lib_None in E.
Qed.

Lemma post_try_lib e (o : option A) c (f : A → M B) w Q :
  (∀ a, o = Some a → post (f a) w Q) →
  post (try_except (lib e o) c fail ≫= f) w Q.
Proof.
  intros H. destruct o as [a|].
  - intros ? ? E. rewrite bind_run in E. by eapply H.
  - intros ? ? E. rewrite bind_run in E. unfold try_except in E. cbn in E.
    by destruct (c e).
Qed.

Lemma post_recv n (f : bytes → M B) w Q :
  post (f (next_bytes n w)) (recv n w).2 Q → post (recv n ≫= f) w Q.
Proof. intros H ? ? E. rewrite bind_run, recv_run in E. by apply H. Qed.

Lemma post_randombytes n (f : bytes → M B) w Q :
  post (f (fresh_bytes n w)) (set_rpos (w_rpos w + n) w) Q →
  post (randombytes n ≫= f) w Q.
Proof. intros H ? ? E. rewrite bind_randombytes in E. by apply H. Qed.

Lemma post_timestamp (f : QArith_base.Q → M B) w Q :
  post (f (w_now w)) w Q → post (timestamp ≫= f) w Q.
Proof. intros H ? ? E. rewrite bind_timestamp in E. by apply H. Qed.

Lemma post_path_exists p (f : bool → M B) w Q :
  post (f (dir_exists (w_fs w) p)) w Q → post (path_exists p ≫= f) w Q.
Proof. intros H ? ? E. rewrite bind_path_exists in E. by apply H. Qed.

Lemma post_load_blob p g sz (f : option bytes → M B) w Q :
  ((∀ b, fs_read (w_fs w) p g = Some b → well_sized sz b) →
   post (f (fs_read (w_fs w) p g)) w Q) →
  post (load_blob p g sz ≫= f) w Q.
Proof.
  intros H ? ? E. rewrite bind_run in E.
  destruct (load_blob p g sz w) as [[v| |e|] w1] eqn:L; try done.
  apply load_blob_Ret in L as (-> & -> & Hs). by eapply H.
Qed.

Lemma post_conseq (m : M A) w (Q Q' : A → world → Prop) :
  post m w Q → (∀ a w', Q a w' → Q' a w') → post m w Q'.
Proof. intros H HQ a w' E. apply HQ. by apply H. Qed.

(** A step that returns in the world it started in. *)
Lemma post_same_world (m : M A) (f : A → M B) w Q :
  (∀ a w', m w = (Ret a, w') → w' = w) → (∀ a, post (f a) w Q) →
  post (m ≫= f) w Q.
Proof.
  intros Hm Hf. apply post_bind. intros a w' E.
  rewrite (Hm a w' E). apply Hf.
Qed.

End Post.

Section PostFiles.
Context {B : Type}.
Implicit Types (Q : B → world → Prop).

Lemma post_send b (f : unit → M B) w Q :
  post (f tt) (set_out (w_out w ++ [b]) w) Q → post (send b ≫= f) w Q.
Proof. intros H ? ? E. rewrite bind_send in E. by apply H. Qed.

Lemma post_send_end b w (Q : unit → world → Prop) :
  Q tt (set_out (w_out w ++ [b]) w) → post (send b) w Q.
Proof. by intros H ? ? [= <- <-]. Qed.

Lemma post_save_blob p g b (f : unit → M B) w Q :
  (dir_exists (w_fs w) p = true →
   post (f tt) (set_fs (fs_write (w_fs w) p g b) w) Q) →
  post (save_blob p g b ≫= f) w Q.
Proof.
  intros H ? ? E. rewrite bind_run in E. unfold save_blob in E.
  destruct (dir_exists (w_fs w) p); [|done]. by eapply H.
Qed.

Lemma post_try_save p g b (h : M unit) (f : unit → M B) w Q :
  (dir_exists (w_fs w) p = true →
   post (f tt) (set_fs (fs_write (w_fs w) p g b) w) Q) →
  (dir_exists (w_fs w) p = false → post (h ≫= f) w Q) →
  post (try_except (save_blob p g b) (is_exn FileNotFoundError) h ≫= f) w Q.
Proof.
  intros Hyes Hno ? ? E. rewrite bind_run in E. unfold try_except, save_blob in E.
  destruct (dir_exists (w_fs w) p) eqn:Hp; [by eapply Hyes|].
  unfold is_exn in E. rewrite bool_decide_eq_true_2 in E by done.
  eapply Hno; [done|]. by rewrite bind_run.
Qed.

End PostFiles.

Ltac post_step :=
  lazymatch goal with
  | |- post (mret _) _ _ => apply post_ret
  | |- post fail _ _ => apply post_fail
  | |- post (raise _) _ _ => apply post_raise
  | |- post (when _ fail ≫= _) _ _ => apply post_when_fail; intros ?
  | |- post (lib _ _ ≫= _) _ _ => apply post_lib; intros ? ?
  | |- post (try_except (lib _ _) _ fail ≫= _) _ _ => apply post_try_lib; intros ? ?
  | |- post (recv _ ≫= _) _ _ => apply post_recv
  | |- post (send _ ≫= _) _ _ => apply post_send
  | |- post (send _) _ _ => apply post_send_end
  | |- post (randombytes _ ≫= _) _ _ => apply post_randombytes
  | |- post (timestamp ≫= _) _ _ => apply post_timestamp
  | |- post (path_exists _ ≫= _) _ _ => apply post_path_exists
  | |- post (load_blob _ _ _ ≫= _) _ _ => apply post_load_blob; intros ?
  | |- post (save_blob _ _ _ ≫= _) _ _ => apply post_save_blob; intros ?
  | |- post ((_ ≫= _) ≫= _) _ _ => apply post_bind
  | |- post (?m ≫= _) _ _ =>
      lazymatch m with
      | match _ with _ => _ end => apply post_bind
      end
  | |- post (match ?x with _ => _ end) _ _ => destruct x eqn:?
  end; cbn beta iota zeta.

Section Replies.
Context {C : Consts} {cfg : Config} {P : Primitives}.

(** What a run of [auth] that returns has done, field by field. *)
Lemma auth_Ret id alpha w w' :
  auth id alpha w = (Ret tt, w') →
  ∃ pk beta,
    fs_read (w_fs w) id "pub" = Some pk ∧ length pk = 32%nat ∧
    match fs_read (w_fs w) id "key" with
    | Some k => ∃ k0 e, head k = Some k0 ∧
                        oprf_evaluate (drop 1 k) alpha = Some e ∧ beta = k0 :: e
    | None => beta = []
    end ∧
    crypto_sign_verify_detached (next_bytes 64 w) (fresh_bytes 32 w) pk = true ∧
    w_out w' = w_out w ++ [beta ++ fresh_bytes 32 w; auth_marker] ∧
    w_in w' = w_in (recv 64 w).2 ∧
    w_rpos w' = (w_rpos w + 32)%nat ∧
    w_fs w' = w_fs w ∧ w_open w' = w_open w ∧
    w_entropy w' = w_entropy w ∧ w_now w' = w_now w.
Proof.
  unfold auth. rewrite bind_run. unfold load_blob at 1.
  destruct (fs_read (w_fs w) id "pub") as [pk|] eqn:Hpk; [|done].
  destruct (decide (length pk ≠ 32%nat)) as [|Hlen%dec_stable]; [done|].
  rewrite bind_randombytes, bind_run. unfold load_blob at 1. cbn [w_fs set_rpos].
  fold (fresh_bytes 32 w).
  set (w1 := set_rpos _ w).
  assert (∀ beta,
    (send (beta ++ fresh_bytes 32 w);;
     sig ← recv 64;
     if crypto_sign_verify_detached sig (fresh_bytes 32 w) pk
     then send auth_marker else fail) w1 = (Ret tt, w') →
    crypto_sign_verify_detached (next_bytes 64 w) (fresh_bytes 32 w) pk = true ∧
    w_out w' = w_out w ++ [beta ++ fresh_bytes 32 w; auth_marker] ∧
    w_in w' = w_in (recv 64 w).2 ∧
    w_rpos w' = (w_rpos w + 32)%nat ∧
    w_fs w' = w_fs w ∧ w_open w' = w_open w ∧
    w_entropy w' = w_entropy w ∧ w_now w' = w_now w) as Hrest.
  { intros beta. rewrite bind_send, bind_run, recv_run.
    change (next_bytes 64 (set_out _ w1)) with (next_bytes 64 w).
    destruct (crypto_sign_verify_detached _ _ _); [|done].
    intros [= <-]. split; [done|].
    unfold recv, w1. cbn. destruct (w_in w); cbn; rewrite <- ?app_assoc; done. }
  destruct (fs_read (w_fs w) id "key") as [k|] eqn:Hkey.
  - rewrite bind_run. unfold try_except. rewrite bind_run.
    destruct (head k) as [k0|]; cbn [lib mret M_ret raise any_exn]; [|done].
    rewrite bind_run.
    destruct (oprf_evaluate (drop 1 k) alpha) as [e|]; cbn [lib mret M_ret raise any_exn];
      [|done].
    intros (?&?&?&?&?&?&?&?)%Hrest. exists pk, (k0 :: e). split_and!; try done.
    by exists k0, e.
  - rewrite bind_ret. intros (?&?&?&?&?&?&?&?)%Hrest. exists pk, []. by split_and!.
Qed.

(** X13. [auth] returns only to a client that holds the signing key of the
    record.  The record has a 32-byte [pub]; the server drew 32 bytes of
    entropy as nonce and sent them in one message, after the OPRF answer
    [key[0] | evaluate(key[1:], alpha)] when the record has a [key] and
    alone when it has none; the next (at most) 64 bytes of the connection,
    taken as signature of that nonce, verify under [pub].  The marker of
    success is the last thing sent, these 64 bytes and 32 bytes of entropy
    are consumed, and nothing else has changed: not the record store, not
    the connection state. *)
Theorem auth_sound id alpha w w' :
  auth id alpha w = (Ret tt, w') →
  ∃ pk beta,
    fs_read (w_fs w) id "pub" = Some pk ∧ length pk = 32%nat ∧
    match fs_read (w_fs w) id "key" with
    | Some k => ∃ k0 e, head k = Some k0 ∧
                        oprf_evaluate (drop 1 k) alpha = Some e ∧ beta = k0 :: e
    | None => beta = []
    end ∧
    crypto_sign_verify_detached (next_bytes 64 w) (fresh_bytes 32 w) pk = true ∧
    w_out w' = w_out w ++ [beta ++ fresh_bytes 32 w; auth_marker] ∧
    w_in w' = w_in (recv 64 w).2 ∧
    w_rpos w' = (w_rpos w + 32)%nat ∧
    w_fs w' = w_fs w ∧ w_open w' = w_open w ∧
    w_entropy w' = w_entropy w ∧ w_now w' = w_now w.
Proof. apply auth_Ret. Qed.

Lemma struct_pack_Some n v b :
  struct_pack n v = Some b → b = le_bytes n v ∧ 0 ≤ v < 256 ^ Z.of_nat n.
Proof.
  unfold struct_pack.
  destruct (Z.leb_spec 0 v); cbn; [|discriminate].
  destruct (Z.ltb_spec v (256 ^ Z.of_nat n)); cbn; [|discriminate].
  by intros [= <-].
Qed.

Lemma bytes_of_ints_Some l b : bytes_of_ints l = Some b → b = Z_to_byte <$> l.
Proof. unfold bytes_of_ints. destruct (forallb _ _); [|discriminate]. by intros [= <-]. Qed.

(** The end of [create_challenge], from the level and count that were
    decided on: the context is written, the MAC key loaded or made, the
    challenge sent. *)
Lemma post_issue_challenge w (req : bytes) (diff : option bytes) level count d :
  difficulty_at level = Some d →
  post (rl_level ← lib StructError (struct_pack 1 level);
        rl_count ← lib StructError (struct_pack 4 count);
        rl_ts ← lib StructError (struct_pack 4 (int_of_Q (w_now w)));
        let rl_ctx := rl_level ++ rl_count ++ rl_ts in
        try_except (save_blob (req_id req) "difficulty" rl_ctx) (is_exn FileNotFoundError)
          (match diff with
           | None | Some [] => mret tt
           | Some _ => raise FileNotFoundError
           end);;
        nk ← lib ValueError (bytes_of_ints [d_n d; d_k d]);
        ts8 ← lib StructError (struct_pack 8 (int_of_Q (w_now w)));
        let challenge := nk ++ ts8 in
        key ← load_blob None "key" (Some 32%nat);
        key ←
          match key with
          | None | Some [] =>
              key ← randombytes 32;
              save_blob None "key" key;;
              mret key
          | Some key => mret key
          end;
        let sig := crypto_generichash key (req ++ challenge) in
        let resp := challenge ++ sig in
        send resp)
    w
    (λ _ w', ∃ key,
       0 ≤ level ∧
       fs_read (w_fs w') None "key" = Some key ∧ length key = 32%nat ∧
       w_out w' = w_out w ++ [challenge_of d (w_now w) ++
                              crypto_generichash key (req ++ challenge_of d (w_now w))] ∧
       (dir_exists (w_fs w) (req_id req) = true →
        0 ≤ count ∧
        fs_read (w_fs w') (req_id req) "difficulty" =
          Some (rl_ctx_of level count (int_of_Q (w_now w))))).
Proof.
  intros Hd.
  post_step. apply struct_pack_Some in H as [-> Hlevel].
  post_step. apply struct_pack_Some in H as [-> Hcount].
  post_step. apply struct_pack_Some in H as [-> Hts].
  fold (rl_ctx_of level count (int_of_Q (w_now w))).
  assert (∀ w1, w_out w1 = w_out w → w_now w1 = w_now w →
    fs_read (w_fs w1) None "key" = fs_read (w_fs w) None "key" →
    dir_exists (w_fs w1) None = dir_exists (w_fs w) None →
    (dir_exists (w_fs w) (req_id req) = true →
     fs_read (w_fs w1) (req_id req) "difficulty" =
       Some (rl_ctx_of level count (int_of_Q (w_now w)))) →
    post (nk ← lib ValueError (bytes_of_ints [d_n d; d_k d]);
          ts8 ← lib StructError (struct_pack 8 (int_of_Q (w_now w)));
          let challenge := nk ++ ts8 in
          key ← load_blob None "key" (Some 32%nat);
          key ←
            match key with
            | None | Some [] =>
                key ← randombytes 32;
                save_blob None "key" key;;
                mret key
            | Some key => mret key
            end;
          let sig := crypto_generichash key (req ++ challenge) in
          let resp := challenge ++ sig in
          send resp)
      w1
      (λ _ w', ∃ key,
         0 ≤ level ∧
         fs_read (w_fs w') None "key" = Some key ∧ length key = 32%nat ∧
         w_out w' = w_out w ++ [challenge_of d (w_now w) ++
                                crypto_generichash key (req ++ challenge_of d (w_now w))] ∧
         (dir_exists (w_fs w) (req_id req) = true →
          0 ≤ count ∧
          fs_read (w_fs w') (req_id req) "difficulty" =
            Some (rl_ctx_of level count (int_of_Q (w_now w)))))) as Hrest.
  { intros w1 Hout Hnow Hkey Hroot Hdiff.
    post_step. apply bytes_of_ints_Some in H as ->.
    post_step. apply struct_pack_Some in H as [-> _].
    change (Z_to_byte <$> [d_n d; d_k d]) with [Z_to_byte (d_n d); Z_to_byte (d_k d)].
    fold (challenge_of d (w_now w)).
    post_step. post_step.
    destruct (fs_read (w_fs w1) None "key") as [[|b key]|] eqn:Hk.
    - (* an empty key file *)
      post_step. post_step. post_step. post_step.
      exists (fresh_bytes 32 w1). cbn [w_fs w_out set_out set_fs set_rpos].
      rewrite Hout. split_and!; try done; try lia.
      + rewrite fs_read_write. by rewrite decide_True.
      + intros Hdir. split; [lia|]. rewrite fs_read_write.
        rewrite decide_False; [by apply Hdiff|]. unfold req_id. congruence.
    - post_step. post_step.
      exists (b :: key). cbn [w_fs w_out set_out].
      rewrite Hout. split_and!; try done; try lia.
      + by apply (H (b :: key)).
      + intros Hdir. split; [lia|]. by apply Hdiff.
    - post_step. post_step. post_step. post_step.
      exists (fresh_bytes 32 w1). cbn [w_fs w_out set_out set_fs set_rpos].
      rewrite Hout. split_and!; try done; try lia.
      + rewrite fs_read_write. by rewrite decide_True.
      + intros Hdir. split; [lia|]. rewrite fs_read_write.
        rewrite decide_False; [by apply Hdiff|]. unfold req_id. congruence. }
  apply post_try_save.
  - intros Hdir. apply Hrest; cbn [w_fs w_out w_now set_fs]; try done.
    + rewrite fs_read_write. rewrite decide_False; [done|]. unfold req_id. congruence.
    + intros _. rewrite fs_read_write. by rewrite decide_True.
  - intros Hdir. apply post_same_world.
    { intros [] w1. destruct diff as [[|]|]; by intros [= <-]. }
    intros []. apply Hrest; try done. intros Hdir'. congruence.
Qed.

(** X14. Every challenge [create_challenge] sends is bound to the request and
    to the MAC key on file: the reply is the ten bytes [n|k|ts] of a rung
    of the ladder and the current time, followed by the MAC, under the
    32-byte key the data directory holds afterwards, of the request followed
    by those ten bytes.  When the record exists, the context written for it
    carries the level of that rung and the same time. *)
Theorem create_challenge_response w w' :
  create_challenge w = (Ret tt, w') →
  ∃ level count d key,
    wf_request (next_bytes 65 w) ∧
    0 ≤ level ∧ difficulty_at level = Some d ∧
    fs_read (w_fs w') None "key" = Some key ∧ length key = 32%nat ∧
    w_out w' = w_out w ++
      [challenge_of d (w_now w) ++
       crypto_generichash key (next_bytes 65 w ++ challenge_of d (w_now w))] ∧
    (dir_exists (w_fs w) (req_id (next_bytes 65 w)) = true →
     0 ≤ count ∧
     fs_read (w_fs w') (req_id (next_bytes 65 w)) "difficulty" =
       Some (rl_ctx_of level count (int_of_Q (w_now w)))).
Proof.
  revert w'.
  assert (post create_challenge w (λ _ w',
    ∃ level count d key,
      wf_request (next_bytes 65 w) ∧
      0 ≤ level ∧ difficulty_at level = Some d ∧
      fs_read (w_fs w') None "key" = Some key ∧ length key = 32%nat ∧
      w_out w' = w_out w ++
        [challenge_of d (w_now w) ++
         crypto_generichash key (next_bytes 65 w ++ challenge_of d (w_now w))] ∧
      (dir_exists (w_fs w) (req_id (next_bytes 65 w)) = true →
       0 ≤ count ∧
       fs_read (w_fs w') (req_id (next_bytes 65 w)) "difficulty" =
         Some (rl_ctx_of level count (int_of_Q (w_now w)))))) as H.
  { unfold create_challenge. post_step.
    set (req := next_bytes 65 w). set (w0 := (recv 65 w).2).
    destruct (recv_frame 65 w) as (Hfs & Hout & Hnow & _). fold w0 in Hfs, Hout, Hnow.
    assert (wf_request req →
      ∀ level count d, difficulty_at level = Some d →
      post (let '(n, k, level, count) := (d_n d, d_k d, level, count) in
            rl_level ← lib StructError (struct_pack 1 level);
            rl_count ← lib StructError (struct_pack 4 count);
            rl_ts ← lib StructError (struct_pack 4 (int_of_Q (w_now w0)));
            let rl_ctx := rl_level ++ rl_count ++ rl_ts in
            try_except (save_blob (req_id req) "difficulty" rl_ctx)
              (is_exn FileNotFoundError)
              (match fs_read (w_fs w0) (req_id req) "difficulty" with
               | None | Some [] => mret tt
               | Some _ => raise FileNotFoundError
               end);;
            nk ← lib ValueError (bytes_of_ints [n; k]);
            ts8 ← lib StructError (struct_pack 8 (int_of_Q (w_now w0)));
            let challenge := nk ++ ts8 in
            key ← load_blob None "key" (Some 32%nat);
            key ←
              match key with
              | None | Some [] =>
                  key ← randombytes 32;
                  save_blob None "key" key;;
                  mret key
              | Some key => mret key
              end;
            let sig := crypto_generichash key (req ++ challenge) in
            let resp := challenge ++ sig in
            send resp)
        w0
        (λ _ w', ∃ level count d key,
           wf_request req ∧
           0 ≤ level ∧ difficulty_at level = Some d ∧
           fs_read (w_fs w') None "key" = Some key ∧ length key = 32%nat ∧
           w_out w' = w_out w ++
             [challenge_of d (w_now w) ++
              crypto_generichash key (req ++ challenge_of d (w_now w))] ∧
           (dir_exists (w_fs w) (req_id req) = true →
            0 ≤ count ∧
            fs_read (w_fs w') (req_id req) "difficulty" =
              Some (rl_ctx_of level count (int_of_Q (w_now w)))))) as Hrest.
    { intros Hreq level count d Hd. cbn beta iota zeta.
      eapply post_conseq; [by apply post_issue_challenge|].
      intros ? w' (key & Hl & Hk & Hlen & Ho & Hdiff).
      exists level, count, d, key. rewrite Hout, Hnow, Hfs in *. by split_and!. }
    assert (wf_request req →
      post (now ← timestamp;
            let id := Some (take 32 (drop 1 req)) in
            diff ← load_blob id "difficulty" (Some 9%nat);
            '(n, k, level, count) ←
              match diff with
              | None | Some [] =>
                  d ← lib IndexError (difficulty_at 0);
                  mret (d_n d, d_k d, 0, 0)
              | Some diff =>
                  level ← lib StructError (struct_unpack 1 (take 1 diff));
                  count ← lib StructError (struct_unpack 4 (take 4 (drop 1 diff)));
                  ts ← lib StructError (struct_unpack 4 (drop 5 diff));
                  '(level, count) ← lib ZeroDivisionError (next_difficulty now level count ts);
                  d ← lib IndexError (difficulty_at level);
                  mret (d_n d, d_k d, level, count)
              end;
            rl_level ← lib StructError (struct_pack 1 level);
            rl_count ← lib StructError (struct_pack 4 count);
            rl_ts ← lib StructError (struct_pack 4 (int_of_Q now));
            let rl_ctx := rl_level ++ rl_count ++ rl_ts in
            try_except (save_blob id "difficulty" rl_ctx) (is_exn FileNotFoundError)
              (match diff with
               | None | Some [] => mret tt
               | Some _ => raise FileNotFoundError
               end);;
            nk ← lib ValueError (bytes_of_ints [n; k]);
            ts8 ← lib StructError (struct_pack 8 (int_of_Q now));
            let challenge := nk ++ ts8 in
            key ← load_blob None "key" (Some 32%nat);
            key ←
              match key with
              | None | Some [] =>
                  key ← randombytes 32;
                  save_blob None "key" key;;
                  mret key
              | Some key => mret key
              end;
            let sig := crypto_generichash key (req ++ challenge) in
            let resp := challenge ++ sig in
            send resp)
        w0
        (λ _ w', ∃ level count d key,
           wf_request req ∧
           0 ≤ level ∧ difficulty_at level = Some d ∧
           fs_read (w_fs w') None "key" = Some key ∧ length key = 32%nat ∧
           w_out w' = w_out w ++
             [challenge_of d (w_now w) ++
              crypto_generichash key (req ++ challenge_of d (w_now w))] ∧
           (dir_exists (w_fs w) (req_id req) = true →
            0 ≤ count ∧
            fs_read (w_fs w') (req_id req) "difficulty" =
              Some (rl_ctx_of level count (int_of_Q (w_now w)))))) as Hmain.
    { intros Hreq. post_step. fold (req_id req). post_step. apply post_bind.
      destruct (fs_read (w_fs w0) (req_id req) "difficulty") as [[|b diff]|] eqn:Hdiff.
      - apply post_lib; intros d Hd. apply post_ret. by apply (Hrest Hreq 0 0 d).
      - apply post_lib; intros lv _. apply post_lib; intros cn _.
        apply post_lib; intros ts _. apply post_lib; intros [level count] _.
        cbn beta iota. apply post_lib; intros d Hd. apply post_ret.
        by apply (Hrest Hreq level count d).
      - apply post_lib; intros d Hd. apply post_ret. by apply (Hrest Hreq 0 0 d). }
    unfold wf_request in *.
    destruct (bool_decide (take 1 req = READ)).
    - post_step. apply length_checked in H. by apply Hmain.
    - post_step. apply length_checked in H. by apply Hmain. }
  intros w'. apply H.
Qed.

End Replies.

(** * From a challenge to its verification *)

Lemma byte_to_Z_to_byte v : byte_to_Z (Z_to_byte v) = v `mod` 256.
Proof.
  unfold byte_to_Z, Z_to_byte.
  pose proof (Z.mod_pos_bound v 256 eq_refl) as Hm.
  destruct (Byte.of_N (Z.to_N (v `mod` 256))) as [b|] eqn:E.
  - apply Byte.to_of_N in E. rewrite E. lia.
  - apply Byte.of_N_None_iff in E. lia.
Qed.

Lemma length_le_bytes n v : length (le_bytes n v) = n.
Proof. revert v. induction n as [|n IH]; intros v; cbn; [done|]. by rewrite IH. Qed.

Lemma le_value_le_bytes n v : 0 ≤ v < 256 ^ Z.of_nat n → le_value (le_bytes n v) = v.
Proof.
  revert v. induction n as [|n IH]; intros v Hv.
  - cbn in *. lia.
  - cbn [le_bytes le_value]. rewrite byte_to_Z_to_byte, IH.
    + pose proof (Z.div_mod v 256). lia.
    + rewrite Nat2Z.inj_succ, Z.pow_succ_r in Hv by lia.
      split; [apply Z.div_pos; lia|]. apply Z.div_lt_upper_bound; lia.
Qed.

Lemma xor_sum_self (a : bytes) : xor_sum a a = 0.
Proof.
  unfold xor_sum. induction a as [|x a IH]; [done|].
  cbn [zip zip_with foldr fst snd]. rewrite Z.lxor_nilpotent.
  cbn in IH |- *. by rewrite IH.
Qed.

(** Every rung of the ladder has its timeout in [RL_Timeouts]: no two
    rungs share (n, k). *)
Lemma RL_Timeouts_ladder d :
  d ∈ Difficulties → RL_Timeouts !! (d_n d, d_k d) = Some (d_timeout d).
Proof.
  unfold Difficulties. rewrite !elem_of_cons, elem_of_nil.
  intros H. repeat (destruct H as [-> | H]; [vm_compute; reflexivity|]). done.
Qed.

Section Issued.
Context {C : Consts} {cfg : Config} {P : Primitives}.


End Issued.

(** * The connection *)

Lemma closes_of_exits {A} (m : M A) : exits_by_fail m → closes m.
Proof. intros H w E. by destruct (H w E) as (_ & _ & ?). Qed.

Lemma closes_bind {A B} (m : M A) (f : A → M B) :
  closes m → (∀ a, closes (f a)) → closes (m ≫= f).
Proof.
  intros Hm Hf w. rewrite bind_run. specialize (Hm w).
  destruct (m w) as [[a| |e|] w1]; cbn in *; [apply Hf|intros _; by apply Hm|done|done].
Qed.

Section Connection.
Context {C : Consts} {cfg : Config} {P : Primitives}.

Lemma closes_handler data : closes (handler data).
Proof.
  unfold handler. apply closes_bind.
  - apply closes_of_exits.
    pose proof exits_get. pose proof exits_change. pose proof exits_change_dkg.
    pose proof exits_delete. pose proof exits_commit_undo. pose proof exits_read.
    exits.
  - intros []. by intros w _.
Qed.

Lemma closes_verify_challenge : closes verify_challenge.
Proof.
  unfold verify_challenge, pop.
  repeat first
    [ apply closes_handler
    | apply closes_of_exits; solve [exits]
    | apply closes_bind; [apply closes_of_exits; solve [exits]|intros ?]
    | match goal with |- closes (match ?x with _ => _ end) => destruct x end ];
    cbn beta iota zeta.
Qed.

Lemma closes_ratelimit : closes ratelimit.
Proof.
  pose proof exits_create. pose proof exits_create_dkg.
  unfold ratelimit. apply closes_bind; [apply closes_of_exits; exits|].
  intros op. repeat case_bool_decide.
  - apply closes_of_exits. exits.
  - apply closes_of_exits. exits.
  - apply closes_of_exits, exits_create_challenge.
  - apply closes_verify_challenge.
  - apply closes_of_exits. exits.
Qed.

(** X16. A worker that ends has closed the connection, whether it came to the
    end of [ratelimit], left through [fail] or through [handler], or died of
    an exception.  (The one run that does not end is [read_pkt] on a stream
    that stops short.) *)
Theorem worker_closes_connection w :
  (worker w).1 ≠ Hang → w_open (worker w).2 = false.
Proof.
  intros Hn. pose proof (closes_ratelimit w) as Hc.
  unfold worker in *. destruct (ratelimit w) as [[[]| |e|] w1]; cbn in *; auto.
  done.
Qed.

(** X17. Opcodes no dispatcher knows get no answer.  A first byte that is none
    of CREATE, CREATE_DKG, CHALLENGE_CREATE and CHALLENGE_VERIFY (so also a
    GET or CHANGE sent without a challenge) ends the worker with nothing
    sent and the store untouched; a request that passed its challenge but
    carries none of the seven opcodes of [handler] has the connection closed
    without a reply, not even the fail marker. *)
Theorem unknown_opcode_ignored w data :
  (next_bytes 1 w ∉ [CREATE; CREATE_DKG; CHALLENGE_CREATE; CHALLENGE_VERIFY] →
   (worker w).1 = Exit ∧ w_out (worker w).2 = w_out w ∧
   w_fs (worker w).2 = w_fs w ∧ w_open (worker w).2 = false) ∧
  (take 1 data ∉ [GET; CHANGE; CHANGE_DKG; DELETE; COMMIT; UNDO; READ] →
   handler data w = (Exit, set_open false w)).
Proof.
  split.
  - intros Hop. unfold worker, ratelimit. rewrite bind_run, recv_run.
    rewrite !bool_decide_eq_false_2 by (intros E; apply Hop; rewrite E; set_solver).
    destruct (recv_frame 1 w) as (Hfs & Hout & _). by cbn.
  - intros Hop. unfold handler.
    rewrite !bool_decide_eq_false_2 by (intros E; apply Hop; rewrite E; set_solver).
    reflexivity.
Qed.

(** X18. GET, READ and the authentication never write: however they end, the
    record store is what it was. *)
Theorem read_only_requests msg id alpha w :
  w_fs (get msg w).2 = w_fs w ∧
  w_fs (read msg w).2 = w_fs w ∧
  w_fs (auth id alpha w).2 = w_fs w.
Proof.
  split_and!.
  - apply fs_const_get.
  - apply fs_const_read.
  - apply fs_const_auth.
Qed.

End Connection.

(** * Blobs and rate-limit contexts *)

(** X19. Round trip through the store: what [save_blob] wrote is what
    [load_blob] returns, when the size asked for is the size of the blob, or
    no size (or size 0) is asked for; any other size is a [ValueError].
    Without the directory nothing is written and [save_blob] raises. *)
Theorem save_then_load p f b sz w :
  (dir_exists (w_fs w) p = true →
   (well_sized sz b →
    (save_blob p f b;; load_blob p f sz) w =
      (Ret (Some b), set_fs (fs_write (w_fs w) p f b) w)) ∧
   (¬ well_sized sz b →
    (save_blob p f b;; load_blob p f sz) w =
      (Raise ValueError, set_fs (fs_write (w_fs w) p f b) w))) ∧
  (dir_exists (w_fs w) p = false →
   (save_blob p f b;; load_blob p f sz) w = (Raise FileNotFoundError, w)).
Proof.
  split.
  - intros Hdir. rewrite bind_save_blob by done.
    unfold load_blob. cbn [w_fs set_fs]. rewrite fs_read_write, decide_True by done.
    split; intros Hs.
    + destruct sz as [[|n]|]; try done. cbn in Hs. by rewrite decide_False by lia.
    + destruct sz as [[|n]|]; try (by destruct Hs). cbn in Hs. by rewrite decide_True.
  - intros Hdir. rewrite bind_run. unfold save_blob. by rewrite Hdir.
Qed.

(** X20. Round trip of the rate-limit context: the nine bytes
    [create_challenge] packs from (level, count, ts) are unpacked by the next
    [create_challenge] to the same three numbers, as long as each fits its
    field (one byte, four bytes, four bytes). *)
Theorem rl_ctx_round_trip level count ts :
  0 ≤ level < 2 ^ 8 → 0 ≤ count < 2 ^ 32 → 0 ≤ ts < 2 ^ 32 →
  length (rl_ctx_of level count ts) = 9%nat ∧
  difficulty_of (rl_ctx_of level count ts) = (level, count, ts).
Proof.
  intros Hl Hc Ht. unfold rl_ctx_of, difficulty_of. split.
  - by rewrite !length_app, !length_le_bytes.
  - rewrite take_app_length' by (by rewrite length_le_bytes).
    rewrite drop_app_length' by (by rewrite length_le_bytes).
    rewrite take_app_length' by (by rewrite length_le_bytes).
    replace (drop 5 (le_bytes 1 level ++ le_bytes 4 count ++ le_bytes 4 ts))
      with (le_bytes 4 ts).
    2:{ rewrite app_assoc, drop_app_length'; [done|].
        by rewrite length_app, !length_le_bytes. }
    rewrite !le_value_le_bytes; [done|..]; cbn; lia.
Qed.

Section Ladder.
Context {cfg : Config}.

(** X21. With a positive [rl_decay] the rate-limit update never fails and
    never leaves the ladder: whatever the stored level (even one beyond the
    ladder), the clock and the count, the new level is one of the 13 rungs,
    and the count is either reset to 0 or, with the level unchanged, one
    more than before. *)
Theorem next_difficulty_in_ladder now level count ts :
  0 < rl_decay → 0 ≤ level →
  ∃ level' count',
    next_difficulty now level count ts = Some (level', count') ∧
    0 ≤ level' ≤ 12 ∧ level' ≤ Z.max level 12 ∧
    (count' = 0 ∨ (level' = level ∧ count' = count + 1)).
Proof.
  intros Hd Hl. unfold next_difficulty.
  change (Z.of_nat (length Difficulties)) with 13. change (13 - 1) with 12.
  case_bool_decide as H13.
  { exists 12, 0. split_and!; auto; lia. }
  destruct (Qgtb _ _ && bool_decide (0 < level)) eqn:E.
  - apply andb_true_iff in E as [E1 E2]. apply bool_decide_eq_true in E2.
    rewrite bool_decide_eq_false_2 by lia.
    case_bool_decide as Hp.
    + eexists _, 0. split; [done|].
      assert (0 ≤ Qfloor ((now - inject_Z ts) / inject_Z rl_decay)) as Hq.
      { apply Qgtb_true in E1.
        rewrite <- (Qfloor_Z 0). apply Qfloor_resp_le.
        apply Qle_shift_div_l.
        - change 0%Q with (inject_Z 0). by rewrite <- Zlt_Qlt.
        - assert (0 < inject_Z rl_decay)%Q
            by (change 0%Q with (inject_Z 0); by rewrite <- Zlt_Qlt).
          change (inject_Z 0) with 0%Q. lra. }
      split_and!; auto; lia.
    + exists 0, 0. split_and!; auto; lia.
  - destruct (bool_decide (rl_threshold ≤ count) && bool_decide (level < 12)) eqn:E'.
    + apply andb_true_iff in E' as [_ E2]. apply bool_decide_eq_true in E2.
      exists (level + 1), 0. split_and!; auto; lia.
    + exists level, (count + 1). split_and!; auto; lia.
Qed.

End Ladder.

(** * More rules for runs that return *)

Section PostMore.
Context {C : Consts} {cfg : Config} {P : Primitives}.

Lemma post_pop_int {B} msg (f : nat * bytes → M B) w (Q : B → world → Prop) :
  (∀ n, post (f (n, drop 1 msg)) w Q) → post (pop_int msg ≫= f) w Q.
Proof.
  intros Hf b w' E. rewrite bind_run in E. unfold pop_int, pop in E.
  rewrite bind_run in E. destruct (head (take 1 msg)) as [x0|]; [|done].
  cbn in E. by eapply Hf.
Qed.

Lemma post_verified {B} msg pk (f : bytes → M B) w (Q : B → world → Prop) :
  (crypto_sign_verify_detached (last_n 64 msg) (but_last_n 64 msg) pk = true →
   post (f (but_last_n 64 msg)) w Q) →
  post (try_except (verify_blob msg pk) (is_exn ValueError) fail ≫= f) w Q.
Proof.
  intros Hf b w' E. rewrite bind_run in E. unfold try_except, verify_blob in E.
  destruct (crypto_sign_verify_detached _ _ _) eqn:Hsig; [by eapply Hf|].
  unfold raise, is_exn in E. by rewrite bool_decide_eq_true_2 in E.
Qed.

End PostMore.

(** * What was sent, and in which order *)

Lemma only_appends_same {A} (m : M A) :
  (∀ w, w_out (m w).2 = w_out w) → only_appends m.
Proof. intros H w. by rewrite H. Qed.

Lemma only_appends_bind {A B} (m : M A) (f : A → M B) :
  only_appends m → (∀ a, only_appends (f a)) → only_appends (m ≫= f).
Proof.
  intros Hm Hf w. rewrite bind_run. specialize (Hm w).
  destruct (m w) as [[a| |e|] w1]; cbn in *; try done.
  etrans; [exact Hm|apply Hf].
Qed.

Lemma only_appends_try {A} (m h : M A) c :
  only_appends m → only_appends h → only_appends (try_except m c h).
Proof.
  intros Hm Hh w. unfold try_except. specialize (Hm w).
  destruct (m w) as [[a| |e|] w1]; cbn in *; try done.
  destruct (c e); [|done]. etrans; [exact Hm|apply Hh].
Qed.

Lemma only_appends_when b (m : M unit) : only_appends m → only_appends (when b m).
Proof. destruct b; [done|]. intros _. by apply only_appends_same. Qed.

Lemma only_appends_send b : only_appends (send b).
Proof. intros w. cbn. by apply prefix_app_r. Qed.

Lemma only_appends_fail {A} : only_appends (@fail A).
Proof. intros w. cbn. by apply prefix_app_r. Qed.

Lemma only_appends_ret {A} (a : A) : only_appends (mret a).
Proof. by apply only_appends_same. Qed.

Lemma only_appends_raise {A} e : only_appends (@raise A e).
Proof. by apply only_appends_same. Qed.

Lemma only_appends_lib {A} e (o : option A) : only_appends (lib e o).
Proof. apply only_appends_same. by destruct o. Qed.

Lemma only_appends_recv n : only_appends (recv n).
Proof. apply only_appends_same. intros w. by destruct (recv_frame n w) as (_ & ? & _). Qed.

Lemma only_appends_randombytes n : only_appends (randombytes n).
Proof. by apply only_appends_same. Qed.

Lemma only_appends_path_exists p : only_appends (path_exists p).
Proof. by apply only_appends_same. Qed.

Lemma only_appends_os_mkdir p : only_appends (os_mkdir p).
Proof.
  apply only_appends_same. intros w. unfold os_mkdir.
  destruct (dir_exists _ p); [done|]. destruct p; [|done]. by destruct (dir_exists _ _).
Qed.

Lemma only_appends_save_blob p f b : only_appends (save_blob p f b).
Proof. apply only_appends_same. intros w. unfold save_blob. by destruct (dir_exists _ _). Qed.

Lemma only_appends_load_blob p f sz : only_appends (load_blob p f sz).
Proof.
  apply only_appends_same. intros w.
  by destruct (load_blob_cases p f sz w) as [-> | ->].
Qed.

Lemma only_appends_read_pkt_loop fuel size res :
  only_appends (read_pkt_loop fuel size res).
Proof.
  revert res. induction fuel as [|fuel IH]; intros res; cbn [read_pkt_loop].
  - case_decide; by apply only_appends_same.
  - case_decide; [|by apply only_appends_same].
    intros w. destruct (w_in w) eqn:E; [done|].
    apply (only_appends_bind (recv _) _ (only_appends_recv _) (λ c, IH (res ++ c))).
Qed.

Lemma only_appends_read_pkt size : only_appends (read_pkt size).
Proof. intros w. apply only_appends_read_pkt_loop. Qed.

Create HintDb appends discriminated.
#[global] Hint Resolve only_appends_send only_appends_fail only_appends_ret
  only_appends_raise only_appends_lib only_appends_recv only_appends_randombytes
  only_appends_path_exists only_appends_os_mkdir only_appends_save_blob
  only_appends_load_blob only_appends_read_pkt : appends.

Ltac appends_step :=
  match goal with
  | |- only_appends (_ ≫= _) => apply only_appends_bind; [|intros ?]
  | |- only_appends (try_except _ _ _) => apply only_appends_try
  | |- only_appends (when _ _) => apply only_appends_when
  | |- only_appends (match ?x with _ => _ end) => destruct x
  | |- only_appends _ => solve [auto with appends]
  end.

Ltac appends_tac := repeat (cbn beta iota zeta; appends_step).

Section PostOrder.
Context {A B : Type}.

(** A step of which only what it adds to the messages sent matters. *)
Lemma post_appends (m : M A) (f : A → M B) w (Q : B → world → Prop) pre :
  only_appends m → pre `prefix_of` w_out w →
  (∀ a w1, pre `prefix_of` w_out w1 → post (f a) w1 Q) →
  post (m ≫= f) w Q.
Proof.
  intros Hm Hpre Hf. apply post_bind. intros a w1 E.
  apply Hf. specialize (Hm w). rewrite E in Hm. by etrans.
Qed.

Lemma post_os_mkdir p (f : unit → M B) w (Q : B → world → Prop) :
  (dir_exists (w_fs w) p = false →
   post (f tt) (set_fs (fs_mkdir (w_fs w) p) w) Q) →
  post (os_mkdir p ≫= f) w Q.
Proof.
  intros H ? ? E. rewrite bind_run in E. unfold os_mkdir in E.
  destruct (dir_exists (w_fs w) p) eqn:Hp; [done|].
  destruct p; [destruct (dir_exists (w_fs w) None); [|done]|]; by eapply H.
Qed.

End PostOrder.

Section Records.
Context {C : Consts} {cfg : Config} {P : Primitives}.

Lemma only_appends_verify_blob msg pk : only_appends (verify_blob msg pk).
Proof. unfold verify_blob. appends_tac. Qed.

Lemma only_appends_update_blob : only_appends update_blob.
Proof. pose proof only_appends_verify_blob. unfold update_blob. appends_tac. Qed.

Lemma only_appends_load_authkeys_lines lines : only_appends (load_authkeys_lines lines).
Proof.
  induction lines as [|line rest IH]; cbn [load_authkeys_lines]; [appends_tac|].
  apply only_appends_bind; [appends_tac|]. intros [b64key name].
  apply only_appends_bind; [appends_tac|]. intros key.
  apply only_appends_bind; [exact IH|]. intros res. appends_tac.
Qed.

Lemma only_appends_load_authkeys : only_appends load_authkeys.
Proof.
  pose proof only_appends_load_authkeys_lines. unfold load_authkeys. appends_tac.
Qed.

Lemma only_appends_setup_noise_sessions n privkey auth_keys :
  only_appends (setup_noise_sessions n privkey auth_keys).
Proof. unfold setup_noise_sessions. appends_tac. Qed.

Lemma only_appends_dkg n t index aux : only_appends (dkg n t index aux).
Proof.
  pose proof only_appends_load_authkeys.
  pose proof only_appends_setup_noise_sessions.
  unfold dkg. appends_tac.
Qed.

(** What a [create_dkg] that returns has sent and stored. *)
Lemma create_dkg_Ret msg w w1 :
  create_dkg msg w = (Ret tt, w1) →
  ∃ xi xi0 beta rules before after,
    head xi = Some xi0 ∧
    oprf_evaluate (drop 1 xi) (take 32 (drop 36 msg)) = Some beta ∧
    w_out w1 = w_out w ++ before ++ [xi0 :: beta] ++ after ++ [ok_marker] ∧
    fs_read (w_fs w1) (Some (take 32 (drop 4 msg))) "key" = Some xi ∧
    fs_read (w_fs w1) (Some (take 32 (drop 4 msg))) "rules" = Some rules ∧
    length rules = RULE_SIZE.
Proof.
  revert w1.
  assert (post (create_dkg msg) w (λ _ w1,
    ∃ xi xi0 beta rules before after,
      head xi = Some xi0 ∧
      oprf_evaluate (drop 1 xi) (take 32 (drop 36 msg)) = Some beta ∧
      w_out w1 = w_out w ++ before ++ [xi0 :: beta] ++ after ++ [ok_marker] ∧
      fs_read (w_fs w1) (Some (take 32 (drop 4 msg))) "key" = Some xi ∧
      fs_read (w_fs w1) (Some (take 32 (drop 4 msg))) "rules" = Some rules ∧
      length rules = RULE_SIZE)) as H.
  { unfold create_dkg, pop. post_step.
    apply post_pop_int; intros index. apply post_pop_int; intros t.
    apply post_pop_int; intros n. cbn beta iota zeta.
    rewrite !drop_drop. cbn [Nat.add].
    post_step. post_step.
    apply (post_appends _ _ _ _ (w_out w) (only_appends_dkg _ _ _ _)); [done|].
    intros xi w2 [before Hbefore].
    apply post_try_lib; intros beta Hbeta.
    apply post_lib; intros xi0 Hxi0.
    post_step.
    set (b := xi0 :: beta).
    assert ((w_out w ++ before ++ [b]) `prefix_of` w_out (set_out (w_out w2 ++ [b]) w2))
      as Hb.
    { cbn. rewrite Hbefore. by rewrite <- app_assoc. }
    revert Hb. generalize (set_out (w_out w2 ++ [b]) w2). intros w3 Hb.
    apply (post_appends _ _ _ _ _ (only_appends_recv _) Hb). intros msg2 w4 Hb4.
    apply post_when_fail; intros Hlen. apply length_checked in Hlen.
    apply post_verified; intros _.
    apply (post_appends _ _ _ _ _ only_appends_update_blob Hb4).
    intros [] w5 Hb5.
    apply (post_appends _ _ _ _ _ (only_appends_path_exists _) Hb5). intros ex w6 Hb6.
    apply (post_appends _ _ _ _ (w_out w ++ before ++ [b])); [appends_tac|done|].
    intros [] w7 Hb7.
    apply (post_appends _ _ _ _ _ (only_appends_os_mkdir _) Hb7).
    intros [] w8 [after Hafter].
    do 3 post_step. post_step.
    exists xi, xi0, beta, (drop 32 (but_last_n 64 msg2)), before, after.
    cbn [w_fs w_out set_fs set_out].
    split_and!; try done.
    - rewrite Hafter. by rewrite <- !app_assoc.
    - rewrite !fs_read_write. repeat (case_decide; simplify_eq; try done).
    - rewrite !fs_read_write. repeat (case_decide; simplify_eq; try done).
    - unfold but_last_n. rewrite length_drop, length_take. lia. }
  intros w1. apply H.
Qed.

Lemma fresh_bytes_eq n w w' :
  w_entropy w' = w_entropy w → w_rpos w' = w_rpos w → fresh_bytes n w' = fresh_bytes n w.
Proof. unfold fresh_bytes. by intros -> ->. Qed.


(** X5. A [change] that returns has staged what the protocol says.  After
    [auth] the next 32 bytes of the connection are the new blinded element,
    [new] is the 32 bytes of entropy drawn next, and the OPRF evaluation of
    that element under that key is sent; the following 32+RULE_SIZE+64
    bytes are taken as
    [pk | rules | sig], the signature verifies under [pk], and [pub.new] and
    [rules.new] are these [pk] and [rules].  The evaluation and [ok] are all
    that is sent after [auth]; the live triple and every other file are as
    before. *)
Theorem change_stages msg w w' :
  change msg w = (Ret tt, w') →
  ∃ w1 beta,
    let alpha := next_bytes 32 w1 in
    let k := fresh_bytes 32 w1 in
    let blob := next_bytes (32 + RULE_SIZE + 64) (recv 32 w1).2 in
    let pk := take 32 blob in
    let rules := drop 32 (but_last_n 64 blob) in
    drop 32 (drop 32 (drop 1 msg)) = [] ∧
    dir_exists (w_fs w) (req_id msg) = true ∧
    auth (req_id msg) (req_alpha msg) w = (Ret tt, w1) ∧
    length alpha = 32%nat ∧
    oprf_evaluate k alpha = Some beta ∧
    length blob = (32 + RULE_SIZE + 64)%nat ∧
    crypto_sign_verify_detached (last_n 64 blob) (but_last_n 64 blob) pk = true ∧
    w_out w' = w_out w1 ++ [beta; ok_marker] ∧
    fs_read (w_fs w') (req_id msg) "new" = Some k ∧
    fs_read (w_fs w') (req_id msg) "rules.new" = Some rules ∧
    fs_read (w_fs w') (req_id msg) "pub.new" = Some pk ∧
    dirs (w_fs w') = dirs (w_fs w) ∧
    ∀ p f, (p = req_id msg → f ∉ ["new"; "rules.new"; "pub.new"]) →
           fs_read (w_fs w') p f = fs_read (w_fs w) p f.
Proof.
  revert w'.
  assert (post (change msg) w (λ _ w', ∃ w1 beta,
    let alpha := next_bytes 32 w1 in
    let k := fresh_bytes 32 w1 in
    let blob := next_bytes (32 + RULE_SIZE + 64) (recv 32 w1).2 in
    let pk := take 32 blob in
    let rules := drop 32 (but_last_n 64 blob) in
    drop 32 (drop 32 (drop 1 msg)) = [] ∧
    dir_exists (w_fs w) (req_id msg) = true ∧
    auth (req_id msg) (req_alpha msg) w = (Ret tt, w1) ∧
    length alpha = 32%nat ∧
    oprf_evaluate k alpha = Some beta ∧
    length blob = (32 + RULE_SIZE + 64)%nat ∧
    crypto_sign_verify_detached (last_n 64 blob) (but_last_n 64 blob) pk = true ∧
    w_out w' = w_out w1 ++ [beta; ok_marker] ∧
    fs_read (w_fs w') (req_id msg) "new" = Some k ∧
    fs_read (w_fs w') (req_id msg) "rules.new" = Some rules ∧
    fs_read (w_fs w') (req_id msg) "pub.new" = Some pk ∧
    dirs (w_fs w') = dirs (w_fs w) ∧
    ∀ p f, (p = req_id msg → f ∉ ["new"; "rules.new"; "pub.new"]) →
           fs_read (w_fs w') p f = fs_read (w_fs w) p f)) as H.
  { unfold change, pop. fold (req_id msg) (req_alpha msg).
    apply post_when_fail; intros Htr%bool_decide_eq_false%dec_stable.
    apply post_path_exists. apply post_when_fail; intros Hdir%negb_false_iff.
    apply post_bind. intros [] w1 Hauth.
    pose proof (auth_Ret_fs _ _ _ _ Hauth) as Hfs1.
    apply post_recv. apply post_when_fail; intros Halpha%length_checked.
    destruct (recv_frame 32 w1) as (Hfs2 & Hout2 & _ & _ & Hent2 & Hrpos2).
    set (w2 := (recv 32 w1).2) in *.
    apply post_randombytes. rewrite (fresh_bytes_eq 32 w1 w2) by done.
    apply post_try_lib; intros beta Hbeta.
    apply post_send. apply post_recv.
    set (w3 := set_out _ (set_rpos _ w2)).
    change (next_bytes (32 + RULE_SIZE + 64) w3)
      with (next_bytes (32 + RULE_SIZE + 64) w2).
    set (blob := next_bytes (32 + RULE_SIZE + 64) w2).
    apply post_when_fail; intros Hblen%length_checked.
    apply post_verified; intros Hsig.
    destruct (recv_frame (32 + RULE_SIZE + 64) w3) as (Hfs3 & Hout3 & _).
    revert Hfs3 Hout3. generalize ((recv (32 + RULE_SIZE + 64) w3).2).
    unfold w3. cbn [w_fs w_out set_out set_rpos]. intros w4 Hfs4 Hout4.
    do 3 (apply post_save_blob; intros _). apply post_send_end.
    exists w1, beta. cbn [w_fs w_out set_fs set_out].
    rewrite Hfs4, Hout4, Hfs2, Hout2, Hfs1.
    split_and!; try done.
    - by rewrite <- app_assoc.
    - rewrite !fs_read_write. repeat (case_decide; simplify_eq; try done).
    - rewrite !fs_read_write. repeat (case_decide; simplify_eq; try done).
    - rewrite !fs_read_write. repeat (case_decide; simplify_eq; try done).
    - intros p f Hpf. rewrite !fs_read_write.
      repeat (case_decide; simplify_eq; try done);
        exfalso; apply (Hpf eq_refl); set_solver. }
  intros w'. apply H.
Qed.


End Records.

(** * The files [dkg] reads *)

Section AuthKeys.
Context {C : Consts} {cfg : Config} {P : Primitives}.

Lemma load_authkeys_lines_malformed lines line w :
  line ∈ lines → split_space line = None →
  load_authkeys_lines lines w = (Raise ValueError, w).
Proof.
  intros Hin Hbad. induction lines as [|l lines IH]; [by apply elem_of_nil in Hin|].
  cbn [load_authkeys_lines].
  destruct (split_space l) as [[b64key name]|] eqn:Hl; [|by rewrite bind_lib_None].
  rewrite bind_lib_Some. cbn beta iota.
  destruct (a2b_base64 b64key) as [key|]; [|by rewrite bind_lib_None].
  rewrite bind_lib_Some, bind_run.
  apply elem_of_cons in Hin as [-> | Hin]; [congruence|].
  by rewrite (IH Hin).
Qed.

(** X23. One malformed line spoils the key generation.  When the
    authorized_keys file has a line without a space (a blank line is one),
    [dkg] dies of a [ValueError] before it has sent anything: the worker
    ends without the fail marker and the store is untouched. *)
Theorem dkg_malformed_authorized_keys n t index aux w privkey lines line :
  noisekey_file = Some privkey → length privkey = 32%nat →
  authorized_keys_file = Some lines →
  line ∈ lines → split_space line = None →
  dkg n t index aux w = (Raise ValueError, w).
Proof.
  intros Hkey Hlen Hfile Hin Hbad. unfold dkg.
  rewrite Hkey, bind_lib_Some.
  rewrite bool_decide_eq_false_2 by (intros H; by apply H).
  rewrite bind_when_false, bind_run. unfold load_authkeys.
  rewrite Hfile, bind_lib_Some.
  by rewrite (load_authkeys_lines_malformed lines line).
Qed.

End AuthKeys.


Lemma dkg_malformed_authorized_keys_witness :
  dkg (cfg := demo_config_blank_line) (P := demo_primitives_dkg) 0 0 1 []
    demo_create_dkg_world =
  (Raise ValueError, demo_create_dkg_world).
Proof.
  apply (dkg_malformed_authorized_keys (cfg := demo_config_blank_line)
           (P := demo_primitives_dkg) 0 0 1 [] demo_create_dkg_world
           (replicate 32 x0a) [String "010"%char EmptyString]
           (String "010"%char EmptyString)).
  - reflexivity.
  - reflexivity.
  - reflexivity.
  - apply list_elem_of_here.
  - reflexivity.
Defined.

(** * Noise sessions *)

Lemma remove_dups_length_le {A} `{EqDecision A} (l : list A) :
  (length (remove_dups l) ≤ length l)%nat.
Proof.
  induction l as [|x l IH]; [done|]. cbn. case_decide; cbn; lia.
Qed.

Lemma remove_dups_length_NoDup {A} `{EqDecision A} (l : list A) :
  length (remove_dups l) = length l → NoDup l.
Proof.
  induction l as [|x l IH]; [constructor|]. cbn.
  pose proof (remove_dups_length_le l).
  case_decide as Hx; cbn; intros Hlen; [lia|].
  constructor; [done|]. apply IH. lia.
Qed.

Section Noise.
Context {P : Primitives}.

(** X24. Peers that announce the same noise key are turned away: when the
    [n] keys read after the server's own are not pairwise distinct,
    [setup_noise_sessions] leaves through [fail], having sent its own public
    key and the marker and nothing else, with the store untouched. *)
Theorem setup_noise_sessions_duplicate_keys n privkey auth_keys w :
  (32 * n ≤ length (concat (w_in w)))%nat →
  ¬ NoDup (split_by_n (take (32 * n) (concat (w_in w))) 32) →
  (setup_noise_sessions n privkey auth_keys w).1 = Exit ∧
  w_out (setup_noise_sessions n privkey auth_keys w).2 =
    w_out w ++ [noise_pubkey privkey; fail_marker] ∧
  w_fs (setup_noise_sessions n privkey auth_keys w).2 = w_fs w.
Proof.
  intros Hin Hdup. unfold setup_noise_sessions. rewrite bind_send, bind_run.
  set (w1 := set_out (w_out w ++ [noise_pubkey privkey]) w).
  destruct (read_pkt_loop_enough (length (w_in w1) + length (concat (w_in w1)))
              (32 * n) [] w1) as (w2 & Hrun & _ & Hfs & Hout & _);
    [cbn [length]; lia|done|cbn [length w_in w1 set_out]; lia|].
  unfold read_pkt. rewrite Hrun. cbn [app length w_in w1 set_out].
  rewrite Nat.sub_0_r.
  rewrite bool_decide_eq_true_2.
  2:{ intros Hlen. apply Hdup. by apply remove_dups_length_NoDup. }
  rewrite bind_when_true, bind_fail. unfold failed. cbn [fst snd w_out w_fs set_open set_out].
  rewrite Hfs, Hout. unfold w1. cbn [w_out w_fs set_out].
  by rewrite <- app_assoc.
Qed.

End Noise.

Lemma setup_noise_sessions_duplicate_keys_witness :
  (setup_noise_sessions (P := demo_primitives) 2 (replicate 32 x0a) []
     demo_twin_keys_world).1 = Exit ∧
  w_out (setup_noise_sessions (P := demo_primitives) 2 (replicate 32 x0a) []
           demo_twin_keys_world).2 =
    w_out demo_twin_keys_world ++ [replicate 32 x0a; fail_marker].
Proof.
  destruct (setup_noise_sessions_duplicate_keys (P := demo_primitives) 2
              (replicate 32 x0a) [] demo_twin_keys_world) as (H1 & H2 & _).
  - vm_compute. lia.
  - vm_compute. intros H. apply NoDup_cons in H as [H _]. apply H. left.
  - split; [exact H1 | exact H2].
Defined.

(** * The properties above on the demo instance *)

Lemma read_pkt_exact_witness :
  ∃ w', read_pkt 4 demo_stream_world = (Ret [x01; x02; x03; x04], w') ∧
        concat (w_in w') = [x05].
Proof.
  destruct (read_pkt_exact 4 demo_stream_world) as (w' & Hrun & Hin & _).
  - vm_compute. lia.
  - exists w'. split; [exact Hrun | exact Hin].
Defined.

Lemma read_pkt_short_stream_witness : (read_pkt 6 demo_stream_world).1 = Hang.
Proof. apply (read_pkt_short_stream 6 demo_stream_world). vm_compute. lia. Defined.

Lemma commit_undo_all_or_nothing_witness :
  w_fs (commit_undo (C := demo_consts) (P := demo_primitives) "new" "old"
          demo_commit_msg demo_live_world).2 = w_fs demo_live_world.
Proof.
  apply (commit_undo_all_or_nothing (C := demo_consts) (P := demo_primitives)
           "new" "old" demo_commit_msg demo_live_world).
  vm_compute. discriminate.
Defined.

Lemma change_stages_witness :
  fs_read (w_fs demo_changed.2) (Some demo_id) "new" = Some (replicate 32 x09) ∧
  fs_read (w_fs demo_changed.2) (Some demo_id) "rules.new" = Some demo_rules' ∧
  fs_read (w_fs demo_changed.2) (Some demo_id) "pub.new" = Some demo_pub'.
Proof.
  destruct (change_stages (C := demo_consts) (P := demo_primitives)
              demo_change_msg demo_change_world demo_changed.2)
    as (w1 & beta & _ & _ & Hauth & _ & _ & _ & _ & _ & Hk & Hr & Hp & _).
  - apply (run_eq demo_changed). vm_compute. reflexivity.
  - assert (w1 = (auth (P := demo_primitives) (req_id demo_change_msg)
                    (req_alpha demo_change_msg) demo_change_world).2) as ->
      by (by rewrite Hauth).
    split_and!; (etrans; [eassumption|]); vm_compute; reflexivity.
Defined.

Lemma change_then_commit_fails_witness :
  (commit_undo (C := demo_consts) (P := demo_primitives) "new" "old"
     demo_commit_msg demo_commit_after_change).1 ≠ Ret tt ∧
  w_fs (commit_undo (C := demo_consts) (P := demo_primitives) "new" "old"
          demo_commit_msg demo_commit_after_change).2 = w_fs demo_commit_after_change.
Proof.
  apply (change_then_commit_fails (C := demo_consts) (P := demo_primitives)
           demo_change_msg demo_change_world demo_changed.2
           demo_commit_msg demo_commit_after_change).
  - apply (run_eq demo_changed). vm_compute. reflexivity.
  - apply w_fs_set_fs.
  - vm_compute. reflexivity.
Defined.

Lemma update_blob_keeps_pub_witness :
  fs_read (w_fs (update_blob (P := demo_primitives) demo_blob_world).2)
    (Some demo_id) "pub" = Some demo_pub.
Proof.
  apply (update_blob_keeps_pub (P := demo_primitives) demo_blob_world demo_id demo_pub).
  vm_compute. reflexivity.
Defined.


Lemma delete_removes_record_witness :
  dir_exists (w_fs demo_delete_world) (Some demo_id) = true ∧
  dir_exists (w_fs demo_deleted.2) (Some demo_id) = false ∧
  ∀ f, fs_read (w_fs demo_deleted.2) (Some demo_id) f = None.
Proof.
  apply (delete_removes_record (P := demo_primitives)
           demo_delete_msg demo_delete_world demo_deleted.2).
  apply (run_eq demo_deleted). vm_compute. reflexivity.
Defined.

Lemma mac_key_stable_witness :
  fs_read (w_fs (create_challenge (C := demo_consts) (cfg := demo_config)
                   (P := demo_primitives) (demo_rl_world 3 1 1000 1005)).2)
    None "key" = Some demo_mac_key.
Proof.
  apply (mac_key_stable (C := demo_consts) (cfg := demo_config) (P := demo_primitives)
           create_challenge (demo_rl_world 3 1 1000 1005) demo_mac_key).
  - apply op_create_challenge.
  - vm_compute. reflexivity.
  - discriminate.
Defined.

Lemma create_challenge_footprint_witness :
  fs_read (w_fs (create_challenge (C := demo_consts) (cfg := demo_config)
                   (P := demo_primitives) (demo_rl_world 3 1 1000 1005)).2)
    (Some demo_id) "key" =
  fs_read (w_fs (demo_rl_world 3 1 1000 1005)) (Some demo_id) "key" ∧
  dirs (w_fs (create_challenge (C := demo_consts) (cfg := demo_config)
                (P := demo_primitives) (demo_rl_world 3 1 1000 1005)).2) =
  dirs (w_fs (demo_rl_world 3 1 1000 1005)).
Proof.
  apply (create_challenge_footprint (C := demo_consts) (cfg := demo_config)
           (P := demo_primitives) (demo_rl_world 3 1 1000 1005) (Some demo_id) "key").
  intros [[_ H] | [H _]]; discriminate H.
Defined.

Lemma auth_sound_witness :
  crypto_sign_verify_detached (Primitives := demo_primitives)
    (next_bytes 64 demo_live_world) (fresh_bytes 32 demo_live_world) demo_pub = true ∧
  w_out (auth (P := demo_primitives) (Some demo_id) demo_alpha demo_live_world).2 =
    [(x00 :: demo_xor (drop 1 demo_key) demo_alpha) ++ fresh_bytes 32 demo_live_world;
     auth_marker].
Proof.
  destruct (auth_sound (P := demo_primitives) (Some demo_id) demo_alpha demo_live_world
              (auth (P := demo_primitives) (Some demo_id) demo_alpha demo_live_world).2)
    as (pk & beta & Hpk & _ & Hbeta & Hsig & Hout & _).
  - apply run_eq. vm_compute. reflexivity.
  - vm_compute in Hpk. injection Hpk as <-. split; [exact Hsig|].
    rewrite Hout. vm_compute in Hbeta.
    destruct Hbeta as (k0 & e & Hk0 & He & ->).
    injection Hk0 as <-. injection He as <-. vm_compute. reflexivity.
Defined.

Lemma create_challenge_response_witness :
  ∃ level d key,
    difficulty_at level = Some d ∧
    w_out (create_challenge (C := demo_consts) (cfg := demo_config)
             (P := demo_primitives) (demo_rl_world 3 1 1000 1005)).2 =
      [challenge_of d 1005 ++
       crypto_generichash (Primitives := demo_primitives) key
         (demo_get_req ++ challenge_of d 1005)].
Proof.
  destruct (create_challenge_response (C := demo_consts) (cfg := demo_config)
              (P := demo_primitives) (demo_rl_world 3 1 1000 1005)
              (create_challenge (C := demo_consts) (cfg := demo_config)
                 (P := demo_primitives) (demo_rl_world 3 1 1000 1005)).2)
    as (level & count & d & key & _ & _ & Hd & _ & _ & Hout & _).
  - apply run_eq. vm_compute. reflexivity.
  - exists level, d, key. split; [exact Hd | exact Hout].
Defined.


Lemma worker_closes_connection_witness :
  w_open (worker (C := demo_consts) (cfg := demo_config) (P := demo_primitives)
            demo_enrol_world).2 = false.
Proof.
  apply (worker_closes_connection (C := demo_consts) (cfg := demo_config)
           (P := demo_primitives) demo_enrol_world).
  vm_compute. discriminate.
Defined.

Lemma rl_ctx_round_trip_witness :
  length (rl_ctx_of 3 1 1000) = 9%nat ∧ difficulty_of (rl_ctx_of 3 1 1000) = (3, 1, 1000).
Proof. apply (rl_ctx_round_trip 3 1 1000); lia. Defined.

Lemma next_difficulty_in_ladder_witness :
  ∃ level' count',
    next_difficulty (cfg := demo_config) 1005 3 1 1000 = Some (level', count') ∧
    0 ≤ level' ≤ 12 ∧ level' ≤ Z.max 3 12 ∧
    (count' = 0 ∨ (level' = 3 ∧ count' = 1 + 1)).
Proof.
  apply (next_difficulty_in_ladder (cfg := demo_config) 1005 3 1 1000).
  - reflexivity.
  - lia.
Defined.
